(** * ReguLog (regulog.py): event store, match state machine, templating
      and source discovery, as a shallow embedding.

    Python objects are modelled as records, dictionaries as [gmap]s (or as
    association lists where the iteration order is observable), mutable
    objects shared between several containers as cells of a heap indexed by
    object identity, and exceptions as an explicit [result] type. *)

From Stdlib Require Import ZArith Ascii DecimalString Lia.
From stdpp Require Import base option list gmap strings fin_maps sorting.

Local Open Scope Z_scope.

(** ** Python values, exceptions *)

(** A field value.  What a pattern captures is a [str] or [None]; the
    hooks may store any object with [set_field] and [add_field]: of these,
    the integers are modelled. *)
Inductive value :=
  | VNone
  | VStr (s : string)
  | VInt (n : Z).

#[global] Instance value_eq_dec : EqDecision value.
Proof. solve_decision. Defined.

Inductive exn :=
  | RuntimeError (msg : string)
  | KeyError (key : string)
  | AssertionError (msg : string)
  | ValueError (msg : string)
  | TypeError (msg : string)
  | AttributeError (msg : string)
  | IndexError (msg : string).

Inductive result (A : Type) :=
  | Ok (a : A)
  | Raise (e : exn).
Arguments Ok {A} a.
Arguments Raise {A} e.

#[global] Instance result_ret : MRet result := λ A a, Ok a.
#[global] Instance result_bind : MBind result := λ A B f r,
  match r with
  | Ok a => f a
  | Raise e => Raise e
  end.

Definition is_ok {A} (r : result A) : bool :=
  match r with Ok _ => true | Raise _ => false end.

(** ** Python [str] operations used by the program *)

Module Str.

Definition len (s : string) : Z := Z.of_nat (String.length s).

(** [s[a:b]] for [0 <= a], [0 <= b]. *)
Definition slice (a b : nat) (s : string) : string :=
  String.substring a (b - a) s.

(** [s[a:]] *)
Fixpoint drop (a : nat) (s : string) : string :=
  match a, s with
  | O, _ => s
  | S a', String _ s' => drop a' s'
  | S _, EmptyString => EmptyString
  end.

(** [s[:b]] *)
Fixpoint take (b : nat) (s : string) : string :=
  match b, s with
  | O, _ => EmptyString
  | S b', String c s' => String c (take b' s')
  | S _, EmptyString => EmptyString
  end.

(** [s.replace(old, new)] for a non-empty [old] (every call of the program
    passes a non-empty literal): non-overlapping occurrences, left to
    right.  [skip] counts the characters of an occurrence still to drop. *)
Fixpoint replace_from (old new : string) (skip : nat) (s : string) : string :=
  match s with
  | EmptyString => EmptyString
  | String c s' =>
      match skip with
      | S k => replace_from old new k s'
      | O =>
          if String.prefix old s
          then new +:+ replace_from old new (String.length old - 1) s'
          else String c (replace_from old new O s')
      end
  end.

Definition replace (old new s : string) : string := replace_from old new O s.

(** [s.partition(sep)] for a one-character [sep]. *)
Fixpoint partition (sep : ascii) (s : string) : string * string * string :=
  match s with
  | EmptyString => (EmptyString, EmptyString, EmptyString)
  | String c s' =>
      if Ascii.eqb c sep then (EmptyString, String sep EmptyString, s')
      else let '(a, p, b) := partition sep s' in (String c a, p, b)
  end.

Definition is_space (c : ascii) : bool :=
  let n := nat_of_ascii c in
  ((9 <=? n) && (n <=? 13) || (n =? 32))%nat.

Fixpoint lstrip (s : string) : string :=
  match s with
  | String c s' => if is_space c then lstrip s' else s
  | EmptyString => EmptyString
  end.

Fixpoint rstrip (s : string) : string :=
  match s with
  | EmptyString => EmptyString
  | String c s' =>
      match rstrip s' with
      | EmptyString => if is_space c then EmptyString else String c EmptyString
      | r => String c r
      end
  end.

Definition strip (s : string) : string := rstrip (lstrip s).

Definition upper_ascii (c : ascii) : ascii :=
  let n := nat_of_ascii c in
  if ((97 <=? n) && (n <=? 122))%nat then ascii_of_nat (n - 32) else c.

Definition lower_ascii (c : ascii) : ascii :=
  let n := nat_of_ascii c in
  if ((65 <=? n) && (n <=? 90))%nat then ascii_of_nat (n + 32) else c.

Fixpoint upper (s : string) : string :=
  match s with
  | EmptyString => EmptyString
  | String c s' => String (upper_ascii c) (upper s')
  end.

Definition digit_of (c : ascii) : option Z :=
  let n := nat_of_ascii c in
  if ((48 <=? n) && (n <=? 57))%nat then Some (Z.of_nat (n - 48)) else None.

Fixpoint digits (acc : Z) (s : string) : option Z :=
  match s with
  | EmptyString => Some acc
  | String c s' =>
      match digit_of c with
      | Some d => digits (10 * acc + d) s'
      | None => None
      end
  end.

(** [int(s)] on a [str]: surrounding white space is ignored, one optional
    sign, then at least one decimal digit; anything else is a
    [ValueError]. *)
Definition int (s : string) : result Z :=
  let bad := Raise (ValueError ("invalid literal for int() with base 10: " +:+ s)) in
  let body (t : string) :=
    match t with
    | EmptyString => None
    | _ => digits 0 t
    end in
  match strip s with
  | String "-"%char t =>
      match body t with Some n => Ok (- n) | None => bad end
  | String "+"%char t =>
      match body t with Some n => Ok n | None => bad end
  | t => match body t with Some n => Ok n | None => bad end
  end.

(** [str(n)] for an [int]. *)
Definition of_Z (n : Z) : string := NilZero.string_of_int (Z.to_int n).

(** ["%0<w>d" % n] for [0 <= n]. *)
Fixpoint zeros (k : nat) : string :=
  match k with O => EmptyString | S k' => String "0"%char (zeros k') end.

Definition zpad (w : nat) (n : Z) : string :=
  let s := of_Z n in
  zeros (w - String.length s) +:+ s.

(** [sep.join(l)] *)
Fixpoint join (sep : string) (l : list string) : string :=
  match l with
  | [] => EmptyString
  | [x] => x
  | x :: l' => x +:+ sep +:+ join sep l'
  end.

Definition newline : ascii := ascii_of_nat 10.
Definition tab : ascii := ascii_of_nat 9.
Definition nl : string := String newline EmptyString.

End Str.

(** ** Mutable state with exceptions

    A method that mutates an object and may raise is a function from the
    object's state to an outcome and the state it leaves behind: what was
    written before the exception stays written. *)

Definition ST (S A : Type) : Type := S → result A * S.

#[global] Instance ST_ret {S} : MRet (ST S) := λ A a s, (Ok a, s).
#[global] Instance ST_bind {S} : MBind (ST S) := λ A B f m s,
  match m s with
  | (Ok a, s') => f a s'
  | (Raise e, s') => (Raise e, s')
  end.

Definition get {S} : ST S S := λ s, (Ok s, s).
Definition gets {S A} (f : S → A) : ST S A := λ s, (Ok (f s), s).
Definition modify {S} (f : S → S) : ST S unit := λ s, (Ok tt, f s).
Definition raise {S A} (e : exn) : ST S A := λ s, (Raise e, s).
Definition lift_result {S A} (r : result A) : ST S A := λ s, (r, s).

(** [try: body except: handler] (a bare [except], or [except Exception]). *)
Definition try_except {S A} (body : ST S A) (handler : exn → ST S A) : ST S A :=
  λ s, match body s with
       | (Ok a, s') => (Ok a, s')
       | (Raise e, s') => handler e s'
       end.

(** A [for] loop with a body run for its effect. *)
Fixpoint for_each {S A} (l : list A) (body : A → ST S unit) : ST S unit :=
  match l with
  | [] => mret tt
  | x :: l' => body x ;; for_each l' body
  end.

(** ** datetime.datetime *)

Module datetime.

Record t := mk {
  year : Z; month : Z; day : Z;
  hour : Z; minute : Z; second : Z; microsecond : Z
}.

Definition fields (d : t) : list Z :=
  [year d; month d; day d; hour d; minute d; second d; microsecond d].

Fixpoint lex_compare (l1 l2 : list Z) : comparison :=
  match l1, l2 with
  | [], [] => Eq
  | [], _ :: _ => Lt
  | _ :: _, [] => Gt
  | x :: l1', y :: l2' =>
      match Z.compare x y with
      | Eq => lex_compare l1' l2'
      | c => c
      end
  end.

Definition compare (a b : t) : comparison := lex_compare (fields a) (fields b).

Definition ltb (a b : t) : bool :=
  match compare a b with Lt => true | _ => false end.
Definition eqb (a b : t) : bool :=
  match compare a b with Eq => true | _ => false end.

(** [datetime.datetime.min] *)
Definition min : t := mk 1 1 1 0 0 0 0.

Definition is_leap (y : Z) : bool :=
  (y mod 4 =? 0) && (negb (y mod 100 =? 0) || (y mod 400 =? 0)).

Definition days_in_month (y m : Z) : Z :=
  if m =? 2 then (if is_leap y then 29 else 28)
  else if (m =? 4) || (m =? 6) || (m =? 9) || (m =? 11) then 30
  else 31.

(** The constructor [datetime.datetime(year, month, day, hour, minute,
    second)], which refuses components out of range. *)
Definition make (y m d h mi s : Z) : result t :=
  if negb ((1 <=? y) && (y <=? 9999)) then Raise (ValueError "year is out of range")
  else if negb ((1 <=? m) && (m <=? 12)) then Raise (ValueError "month must be in 1..12")
  else if negb ((1 <=? d) && (d <=? days_in_month y m))
    then Raise (ValueError "day is out of range for month")
  else if negb ((0 <=? h) && (h <=? 23)) then Raise (ValueError "hour must be in 0..23")
  else if negb ((0 <=? mi) && (mi <=? 59)) then Raise (ValueError "minute must be in 0..59")
  else if negb ((0 <=? s) && (s <=? 59)) then Raise (ValueError "second must be in 0..59")
  else Ok (mk y m d h mi s 0).

Definition str_date (d : t) : string :=
  Str.zpad 4 (year d) +:+ "-" +:+ Str.zpad 2 (month d) +:+ "-" +:+ Str.zpad 2 (day d).

Definition str_time (d : t) : string :=
  Str.zpad 2 (hour d) +:+ ":" +:+ Str.zpad 2 (minute d) +:+ ":" +:+ Str.zpad 2 (second d)
  +:+ (if microsecond d =? 0 then "" else "." +:+ Str.zpad 6 (microsecond d)).

Definition isoformat (d : t) : string := str_date d +:+ "T" +:+ str_time d.

End datetime.

(** ** Match objects and event types *)

(** What a successful [search]/[match] of a compiled pattern returns: the
    span of the match and its [groupdict()], in the dictionary's iteration
    order (a group that did not take part has the value [None]). *)
Record Match := mkMatch {
  span : nat * nat;
  groupdict : list (string * value)
}.

(** os.path.basename on forward-slash paths. *)
Fixpoint basename_from (acc s : string) : string :=
  match s with
  | EmptyString => acc
  | String c s' =>
      if Ascii.eqb c "/" then basename_from EmptyString s'
      else basename_from (acc +:+ String c EmptyString) s'
  end.
Definition basename (path : string) : string := basename_from EmptyString path.

Module EventType.

(** An event type after [init]: its attributes, with each compiled pattern
    represented by its [search] method. *)
Record t := mk {
  name : string;
  description : string;
  multilineCount : Z;
  immediate : bool;
  displayOnMatch : option string;
  displayIfChanged : bool;
  execOnMatch : option string;
  compiledRexFilename : string → option Match;
  compiledRexText : string → option Match;
  compiledRexTimestamp : string → option Match
}.

Definition searchFilename (self : t) (path : string) : option Match :=
  compiledRexFilename self (basename path).
Definition searchText (self : t) (text : string) : option Match :=
  compiledRexText self text.
Definition searchTimestamp (self : t) (text : string) : option Match :=
  compiledRexTimestamp self text.

End EventType.

(** ** Event *)

Module Event.

Record t := mk {
  eventType : EventType.t;
  sfields : gmap string value;
  ufields : gmap string value;
  seqnum : Z;
  timestamp : datetime.t;
  timestampSpan : nat * nat
}.

Definition set_sfields (m : gmap string value) (ev : t) : t :=
  mk (eventType ev) m (ufields ev) (seqnum ev) (timestamp ev) (timestampSpan ev).
Definition set_ufields (m : gmap string value) (ev : t) : t :=
  mk (eventType ev) (sfields ev) m (seqnum ev) (timestamp ev) (timestampSpan ev).
Definition set_seqnum (n : Z) (ev : t) : t :=
  mk (eventType ev) (sfields ev) (ufields ev) n (timestamp ev) (timestampSpan ev).
Definition set_timestamp (d : datetime.t) (ev : t) : t :=
  mk (eventType ev) (sfields ev) (ufields ev) (seqnum ev) d (timestampSpan ev).
Definition set_timestampSpan (sp : nat * nat) (ev : t) : t :=
  mk (eventType ev) (sfields ev) (ufields ev) (seqnum ev) (timestamp ev) sp.

(** [self.sfields[k] = v] and [self.ufields[k] = v] *)
Definition sfield_store (k : string) (v : value) (ev : t) : t :=
  set_sfields (<[k := v]> (sfields ev)) ev.
Definition ufield_store (k : string) (v : value) (ev : t) : t :=
  set_ufields (<[k := v]> (ufields ev)) ev.

Definition setRaw (raw : string) : ST t unit :=
  modify (sfield_store "_raw" (VStr raw)).

Definition setLinenum (linenum : Z) : ST t unit :=
  modify (sfield_store "_line_number" (VStr (Str.of_Z linenum))).

Definition setSeqnum (num : Z) : ST t unit :=
  modify (set_seqnum num) ;;
  modify (sfield_store "_sequence_number" (VStr (Str.of_Z num))).

Definition setTimestamp (timestamp : option datetime.t) : ST t unit :=
  let ts := default datetime.min timestamp in
  modify (set_timestamp ts) ;;
  modify (sfield_store "_timestamp" (VStr (datetime.isoformat ts))) ;;
  modify (sfield_store "_date" (VStr (datetime.str_date ts))) ;;
  modify (sfield_store "_time" (VStr (datetime.str_time ts))).

(** [Event(eventType, path)]: the object [__init__] leaves behind.  The
    attributes start unset; [__init__] cannot raise. *)
Definition init (eventType : EventType.t) (path : string) : t :=
  let blank := mk eventType ∅ ∅ 0 datetime.min (0%nat, 0%nat) in
  snd ((modify (sfield_store "_name" (VStr (EventType.name eventType))) ;;
        modify (sfield_store "_description" (VStr (EventType.description eventType))) ;;
        modify (sfield_store "_source_path" (VStr path)) ;;
        modify (sfield_store "_source_filename" (VStr (basename path))) ;;
        modify (sfield_store "_display_on_match" VNone) ;;
        modify (ufield_store "_changed_fields" VNone) ;;
        setSeqnum (-1) ;;
        setTimestamp None ;;
        modify (set_timestampSpan (0%nat, 0%nat))) blank).

Definition set_field (name : string) (value : value) : ST t unit :=
  ev ← get;
  match sfields ev !! name with
  | Some _ => raise (RuntimeError ("Overwriting " +:+ name +:+ " system field not allowed"))
  | None => modify (ufield_store name value)
  end.

Definition add_field (name : string) (value : value) : ST t unit :=
  ev ← get;
  match sfields ev !! name, ufields ev !! name with
  | None, None => modify (ufield_store name value)
  | _, _ => raise (RuntimeError ("Field " +:+ name +:+ " already exists"))
  end.

Definition set_fields (dictionary : list (string * value)) : ST t unit :=
  for_each dictionary (λ '(name, value),
    try_except (set_field name value) (λ _, mret tt)).

Definition add_fields (dictionary : list (string * value)) : ST t unit :=
  for_each dictionary (λ '(name, value),
    try_except (add_field name value) (λ _, mret tt)).

Definition virtual_names : list string :=
  ["_user_fields"; "_system_fields"; "_flat"; "_core"; "_flat_core"].

Definition has_field (name : string) (ev : t) : bool :=
  existsb (String.eqb name) virtual_names
  || bool_decide (is_Some (ufields ev !! name))
  || bool_decide (is_Some (sfields ev !! name)).

(** [str(d)] of a field dictionary.  The escapes Python's [repr] puts into
    string literals are not modelled, and the entries come in the map's key
    order. *)
Definition repr_value (v : value) : string :=
  match v with
  | VNone => "None"
  | VStr s => "'" +:+ s +:+ "'"
  | VInt n => Str.of_Z n
  end.
Definition str_dict (d : gmap string value) : string :=
  "{" +:+ Str.join ", " ((λ '(k, v), "'" +:+ k +:+ "': " +:+ repr_value v) <$> map_to_list d)
  +:+ "}".

(** [self.sfields['_raw']] read as a string. *)
Definition raw_of (ev : t) : result string :=
  match sfields ev !! "_raw" with
  | None => Raise (KeyError "_raw")
  | Some VNone => Raise (AttributeError "'NoneType' object has no attribute 'replace'")
  | Some (VInt _) => Raise (AttributeError "'int' object has no attribute 'replace'")
  | Some (VStr raw) => Ok raw
  end.

Definition core_of (ev : t) (raw : string) : string :=
  Str.take (fst (timestampSpan ev)) raw +:+ Str.drop (snd (timestampSpan ev)) raw.

Definition get_field (name : string) (ev : t) : result value :=
  match ufields ev !! name with
  | Some v => Ok v
  | None =>
  match sfields ev !! name with
  | Some v => Ok v
  | None =>
      if String.eqb name "_user_fields" then Ok (VStr (str_dict (ufields ev)))
      else if String.eqb name "_system_fields" then Ok (VStr (str_dict (sfields ev)))
      else if String.eqb name "_flat" then
        raw ← raw_of ev; Ok (VStr (Str.replace Str.nl "" raw))
      else if String.eqb name "_core" then
        raw ← raw_of ev; Ok (VStr (core_of ev raw))
      else if String.eqb name "_flat_core" then
        raw ← raw_of ev; Ok (VStr (Str.replace Str.nl "" (core_of ev raw)))
      else Raise (RuntimeError ("Field " +:+ name +:+ " not found"))
  end
  end.

Definition get_user_fields (ev : t) : gmap string value := ufields ev.
Definition get_system_fields (ev : t) : gmap string value := sfields ev.

(** [parseText(textRexResult)]: the text match's named groups replace the
    user fields wholesale. *)
Definition parseText (textRexResult : option Match) : ST t unit :=
  ev ← get;
  res ← match textRexResult with
        | Some m => mret (Some m)
        | None =>
            match sfields ev !! "_raw" with
            | Some (VStr raw) => mret (EventType.searchText (eventType ev) raw)
            | Some VNone | Some (VInt _) => raise (TypeError "expected string or buffer")
            | None => raise (KeyError "_raw")
            end
        end;
  match res with
  | None => raise (AssertionError "")
  | Some m => modify (set_ufields (list_to_map (groupdict m)))
  end.

(** *** parseTimestamp *)

(** [tsfields[k]] on the [groupdict()] of the timestamp match. *)
Fixpoint assoc (k : string) (d : list (string * value)) : option value :=
  match d with
  | [] => None
  | (k', v) :: d' => if String.eqb k k' then Some v else assoc k d'
  end.

Definition component_letters : list ascii :=
  ["Y"; "M"; "D"; "h"; "m"; "s"]%char.

Definition is_digit (c : ascii) : bool :=
  let n := nat_of_ascii c in ((48 <=? n) && (n <=? 57))%nat.

(** The test of the first loop: the group took part with a non-empty text,
    and its name is [_], one of [Y M D h m s], and at most one digit.  It
    yields the component letter [k[1]] when the test holds. *)
Definition component_of (k : string) (v : value) : result (option ascii) :=
  match v with
  | VNone => Ok None
  | VInt _ => Raise (TypeError "object of type 'int' has no len()")
  | VStr EmptyString => Ok None
  | VStr _ =>
      match k with
      | EmptyString => Raise (IndexError "string index out of range")
      | String c0 rest =>
          if negb (Ascii.eqb c0 "_") then Ok None
          else match rest with
               | String c1 EmptyString =>
                   Ok (if existsb (Ascii.eqb c1) component_letters then Some c1 else None)
               | String c1 (String c2 EmptyString) =>
                   Ok (if existsb (Ascii.eqb c1) component_letters && is_digit c2
                       then Some c1 else None)
               | _ => Ok None
               end
      end
  end.

(** [names]: component letter to group name; a later group of the iteration
    replaces an earlier one for the same letter. *)
Fixpoint collect_names (tsfields : list (string * value)) (names : gmap ascii string)
  : result (gmap ascii string) :=
  match tsfields with
  | [] => Ok names
  | (k, v) :: rest =>
      c ← component_of k v;
      collect_names rest (match c with Some c1 => <[c1 := k]> names | None => names end)
  end.

(** [int(tsfields[names[c]])] *)
Definition int_component (tsfields : list (string * value)) (names : gmap ascii string)
    (c : ascii) : result Z :=
  match names !! c with
  | None => Raise (KeyError (String c EmptyString))
  | Some k =>
      match assoc k tsfields with
      | None => Raise (KeyError k)
      | Some VNone => Raise (TypeError "int() argument must be a string or a number")
      | Some (VStr s) => Str.int s
      | Some (VInt n) => Ok n
      end
  end.

(** The year: a captured year below 100 has 2000 added; without a year
    group, the year of the source file's time, or of the clock. *)
Definition resolve_year (captured : option string) (sourceTime : option datetime.t)
    (now : datetime.t) : result Z :=
  match captured with
  | Some y =>
      year ← Str.int y;
      Ok (if year <? 100 then year + 2000 else year)
  | None =>
      Ok (match sourceTime with
          | Some t => datetime.year t
          | None => datetime.year now
          end)
  end.

Definition months : list (string * Z) :=
  [("JAN", 1); ("FEB", 2); ("MAR", 3); ("APR", 4); ("MAY", 5); ("JUN", 6);
   ("JUL", 7); ("AUG", 8); ("SEP", 9); ("OCT", 10); ("NOV", 11); ("DEC", 12)].

Fixpoint months_lookup (m : string) (tbl : list (string * Z)) : result Z :=
  match tbl with
  | [] => Raise (KeyError m)
  | (k, n) :: tbl' => if String.eqb m k then Ok n else months_lookup m tbl'
  end.

(** The month: numeric when the text has at most two characters, otherwise
    its first three letters, upper-cased, looked up in [months]. *)
Definition resolve_month (m : string) : result Z :=
  if (String.length m <=? 2)%nat then Str.int m
  else months_lookup (Str.upper (Str.take 3 m)) months.

Definition captured (tsfields : list (string * value)) (names : gmap ascii string)
    (c : ascii) : result string :=
  match names !! c with
  | None => Raise (KeyError (String c EmptyString))
  | Some k =>
      match assoc k tsfields with
      | Some (VStr s) => Ok s
      | Some VNone => Raise (TypeError "object of type 'NoneType' has no len()")
      | Some (VInt _) => Raise (TypeError "object of type 'int' has no len()")
      | None => Raise (KeyError k)
      end
  end.

(** The date and time the named groups of a timestamp match stand for. *)
Definition timestamp_of (tsfields : list (string * value))
    (sourceTime : option datetime.t) (now : datetime.t) : result datetime.t :=
  names ← collect_names tsfields ∅;
  if negb (4 <=? Z.of_nat (size names)) then Raise (AssertionError "Not enough timestamp fields")
  else
    year ← match names !! "Y"%char with
           | Some _ => y ← captured tsfields names "Y"; resolve_year (Some y) sourceTime now
           | None => resolve_year None sourceTime now
           end;
    m ← captured tsfields names "M";
    month ← resolve_month m;
    second ← match names !! "s"%char with
             | Some _ => int_component tsfields names "s"
             | None => Ok 0
             end;
    day ← int_component tsfields names "D";
    hour ← int_component tsfields names "h";
    minute ← int_component tsfields names "m";
    datetime.make year month day hour minute second.

(** The last loop: every group that took part and whose name does not start
    with [_] becomes a user field, through [add_field]. *)
Fixpoint add_extra_fields (tsfields : list (string * value)) : ST t unit :=
  match tsfields with
  | [] => mret tt
  | (k, v) :: rest =>
      match v with
      | VNone => add_extra_fields rest
      | VStr _ | VInt _ =>
          match k with
          | EmptyString => raise (IndexError "string index out of range")
          | String c0 _ =>
              if Ascii.eqb c0 "_" then add_extra_fields rest
              else add_field k v ;; add_extra_fields rest
          end
      end
  end.

(** The text searched by [parseTimestamp]: [alternativeText] when it is
    given and not empty, otherwise the raw text of the event. *)
Definition timestamp_text (alternativeText : option string) : ST t string :=
  ev ← get;
  match alternativeText with
  | Some (String c s) => mret (String c s)
  | _ => match sfields ev !! "_raw" with
         | Some (VStr raw) => mret raw
         | Some VNone | Some (VInt _) => raise (TypeError "expected string or buffer")
         | None => raise (KeyError "_raw")
         end
  end.

(** What [parseTimestamp] does with the match [ts] of the timestamp
    pattern. *)
Definition apply_timestamp (now : datetime.t) (sourceTime : option datetime.t)
    (ts : Match) : ST t unit :=
  let tsfields := groupdict ts in
  stamp ← lift_result (timestamp_of tsfields sourceTime now);
  setTimestamp (Some stamp) ;;
  modify (set_timestampSpan (span ts)) ;;
  add_extra_fields tsfields.

(** [parseTimestamp(alternativeText, sourceTime)]; [now] is the clock read
    by [datetime.datetime.now()]. *)
Definition parseTimestamp (now : datetime.t) (alternativeText : option string)
    (sourceTime : option datetime.t) : ST t unit :=
  text ← timestamp_text alternativeText;
  ev ← get;
  match EventType.searchTimestamp (eventType ev) text with
  | None => raise (AssertionError "Timestamp regex does not match")
  | Some ts => apply_timestamp now sourceTime ts
  end.

End Event.

(** ** The heap of event objects

    An [Event] instance is shared by the per-type list and the flat list of
    the event set, by the map of unfinished events and by whoever iterates
    over [checkLine]; a mutation through one reference is seen through all.
    Events therefore live in a heap and the containers hold addresses. *)

Record Store := mkStore {
  heap : gmap nat Event.t;
  events_lists : gmap string (list nat);   (* the dict itself: [self[name]] *)
  events_sequence : list nat;              (* [self.sequence] *)
  events_curSeqnum : Z                     (* [self.curSeqnum] *)
}.

Definition set_heap (h : gmap nat Event.t) (st : Store) : Store :=
  mkStore h (events_lists st) (events_sequence st) (events_curSeqnum st).
Definition set_lists (l : gmap string (list nat)) (st : Store) : Store :=
  mkStore (heap st) l (events_sequence st) (events_curSeqnum st).
Definition set_sequence (l : list nat) (st : Store) : Store :=
  mkStore (heap st) (events_lists st) l (events_curSeqnum st).
Definition set_curSeqnum (n : Z) (st : Store) : Store :=
  mkStore (heap st) (events_lists st) (events_sequence st) n.

(** Reading an object through a reference.  Python has no dangling
    references; the model raises for an address outside the heap. *)
Definition deref (h : gmap nat Event.t) (a : nat) : result Event.t :=
  match h !! a with
  | Some ev => Ok ev
  | None => Raise (RuntimeError "no such object")
  end.

(** Running a method of the event at address [a]. *)
Definition on_event {A} (a : nat) (m : ST Event.t A) : ST Store A :=
  λ st, match heap st !! a with
        | None => (Raise (RuntimeError "no such object"), st)
        | Some ev => let '(r, ev') := m ev in (r, set_heap (<[a := ev']> (heap st)) st)
        end.

(** [ev = Event(...)]: a new object at an unused address. *)
Definition alloc (h : gmap nat Event.t) (ev : Event.t) : nat * gmap nat Event.t :=
  let a := fresh (dom h) in (a, <[a := ev]> h).

(** ** EventSet *)

Module EventSet.

(** [EventSet(eventTypes)]: an empty list per event type name. *)
Definition init (h : gmap nat Event.t) (names : list string) : Store :=
  mkStore h (list_to_map ((λ k, (k, [])) <$> names)) [] 0.

Definition add_event (event : nat) : ST Store unit :=
  st ← get;
  on_event event (Event.setSeqnum (events_curSeqnum st)) ;;
  modify (set_curSeqnum (events_curSeqnum st + 1)) ;;
  ev ← lift_result (deref (heap st) event);
  let name := EventType.name (Event.eventType ev) in
  match events_lists st !! name with
  | None => raise (KeyError name)
  | Some l =>
      modify (set_lists (<[name := l ++ [event]]> (events_lists st))) ;;
      modify (set_sequence (events_sequence st ++ [event]))
  end.

(** The [before] argument of a query: a [datetime] or an [Event]. *)
Inductive before_arg :=
  | BeforeTimestamp (t : datetime.t)
  | BeforeEvent (a : nat).

(** The check of one key of [fields] against an event. *)
Definition field_mismatch (ev : Event.t) (kf : string) (v : value) : bool :=
  (bool_decide (Event.sfields ev !! kf = None) && bool_decide (Event.ufields ev !! kf = None))
  || match Event.ufields ev !! kf with
     | Some u => negb (bool_decide (u = v))
     | None => false
     end
  || match Event.sfields ev !! kf with
     | Some s => negb (bool_decide (s = v))
     | None => false
     end.

(** The check of [before]: an event has the attributes [timestamp] and
    [seqnum], a [datetime] has [utcfromtimestamp]. *)
Definition excluded_by (h : gmap nat Event.t) (before : before_arg) (ev : Event.t)
  : result bool :=
  match before with
  | BeforeEvent b =>
      bev ← deref h b;
      Ok (datetime.ltb (Event.timestamp bev) (Event.timestamp ev)
          || (Event.seqnum bev <=? Event.seqnum ev))
  | BeforeTimestamp t =>
      Ok (datetime.ltb t (Event.timestamp ev))
  end.

Definition is_matching (h : gmap nat Event.t) (name : option string)
    (fields : option (list (string * value))) (before : option before_arg)
    (ev : Event.t) : result bool :=
  let m1 := match name with
            | Some n => String.eqb (EventType.name (Event.eventType ev)) n
            | None => true
            end in
  let m2 := match fields with
            | Some fs => m1 && forallb (λ '(kf, v), negb (field_mismatch ev kf v)) fs
            | None => m1
            end in
  match before with
  | Some b => if m2 then (x ← excluded_by h b ev; Ok (negb x)) else Ok false
  | None => Ok m2
  end.

(** The loop of [get_events] over the candidates, newest first; the result
    is what the generator yields, in order. *)
Fixpoint scan (h : gmap nat Event.t) (name : option string)
    (fields : option (list (string * value))) (before : option before_arg)
    (limit : Z) (num : Z) (candidates : list nat) : result (list nat) :=
  match candidates with
  | [] => Ok []
  | a :: rest =>
      ev ← deref h a;
      m ← is_matching h name fields before ev;
      if (m : bool) then
        if num + 1 =? limit then Ok [a]
        else (more ← scan h name fields before limit (num + 1) rest; Ok (a :: more))
      else scan h name fields before limit num rest
  end.

Definition get_events (st : Store) (name : option string)
    (fields : option (list (string * value))) (before : option before_arg)
    (limit : Z) : result (list nat) :=
  candidates ←
    match name with
    | None => Ok (events_sequence st)
    | Some n =>
        match events_lists st !! n with
        | Some l => Ok l
        | None => Raise (AssertionError
                    ("Given event name " +:+ n +:+ " is not known in event set"))
        end
    end;
  scan (heap st) name fields before limit 0 (reverse candidates).

Definition get_event (st : Store) (name : option string)
    (fields : option (list (string * value))) (before : option before_arg)
  : result (option nat) :=
  l ← get_events st name fields before 1;
  Ok (head l).

(** [Event.__cmp__]: by timestamp, then by sequence number; when both are
    equal the method returns nothing. *)
Definition cmp (self other : Event.t) : option Z :=
  if negb (datetime.eqb (Event.timestamp self) (Event.timestamp other)) then
    Some (if datetime.ltb (Event.timestamp self) (Event.timestamp other) then -1 else 1)
  else if negb (Event.seqnum self =? Event.seqnum other) then
    Some (if Event.seqnum self <? Event.seqnum other then -1 else 1)
  else None.

(** [x in l] on a list of events.  An element that is the object itself is
    found at once; any other is compared with [==], which an old-style class
    answers through [__cmp__]: the test goes on when that says the two
    differ, and raises when it returns nothing. *)
Fixpoint contains (h : gmap nat Event.t) (x : nat) (l : list nat) : result bool :=
  match l with
  | [] => Ok false
  | y :: l' =>
      if Nat.eqb x y then Ok true
      else
        ex ← deref h x;
        ey ← deref h y;
        match cmp ex ey with
        | Some _ => contains h x l'
        | None => Raise (TypeError "comparison did not return an int")
        end
  end.

(** [del l[l.index(x)]] after [x in l] held: the first occurrence goes. *)
Fixpoint remove_first (x : nat) (l : list nat) : list nat :=
  match l with
  | [] => []
  | y :: l' => if Nat.eqb x y then l' else y :: remove_first x l'
  end.

Definition delete_event (event : nat) : ST Store unit :=
  st ← get;
  found ← lift_result (contains (heap st) event (events_sequence st));
  (if (found : bool)
   then modify (set_sequence (remove_first event (events_sequence st)))
   else mret tt) ;;
  ev ← lift_result (deref (heap st) event);
  let name := EventType.name (Event.eventType ev) in
  match events_lists st !! name with
  | None => raise (KeyError name)
  | Some l =>
      found ← lift_result (contains (heap st) event l);
      if (found : bool)
      then modify (set_lists (<[name := remove_first event l]> (events_lists st)))
      else mret tt
  end.

(** [x < y] on two events, as [list.sort] asks it. *)
Definition lt_events (h : gmap nat Event.t) (x y : nat) : result bool :=
  ex ← deref h x;
  ey ← deref h y;
  match cmp ex ey with
  | Some c => Ok (c <? 0)
  | None => Raise (TypeError "comparison did not return an int")
  end.

(** [list.sort()] is a stable sort; it is modelled by the stable insertion
    sort, which yields the same list whenever the comparison is a total
    order on the elements. *)
Fixpoint sort_insert {A} (lt : A → A → result bool) (x : A) (l : list A)
  : result (list A) :=
  match l with
  | [] => Ok [x]
  | y :: l' =>
      b ← lt y x;
      if (b : bool) then (r ← sort_insert lt x l'; Ok (y :: r)) else Ok (x :: y :: l')
  end.

Fixpoint list_sort {A} (lt : A → A → result bool) (l : list A) : result (list A) :=
  match l with
  | [] => Ok []
  | x :: l' => s ← list_sort lt l'; sort_insert lt x s
  end.

(** The first loop of [sortEvents]: each per-type list is sorted in place
    and appended to the flat list. *)
Fixpoint sort_lists (todo : list (string * list nat)) : ST Store unit :=
  match todo with
  | [] => mret tt
  | (k, l) :: rest =>
      st ← get;
      sorted ← lift_result (list_sort (lt_events (heap st)) l);
      modify (set_lists (<[k := sorted]> (events_lists st))) ;;
      modify (set_sequence (events_sequence st ++ sorted)) ;;
      sort_lists rest
  end.

(** The last loop: [self.sequence[i].setSeqnum(i)]. *)
Fixpoint renumber (i : Z) (l : list nat) : ST Store unit :=
  match l with
  | [] => mret tt
  | a :: rest => on_event a (Event.setSeqnum i) ;; renumber (i + 1) rest
  end.

Definition sortEvents : ST Store (list nat) :=
  modify (set_sequence []) ;;
  st ← get;
  sort_lists (map_to_list (events_lists st)) ;;
  st ← get;
  sorted ← lift_result (list_sort (lt_events (heap st)) (events_sequence st));
  modify (set_sequence sorted) ;;
  renumber 0 sorted ;;
  mret sorted.

End EventSet.

(** ** Field templating: Event.replaceFields *)

(** [re.split("({[^{}]+})", s)]: the texts between the placeholders at the
    even positions, the placeholders (with their braces) at the odd ones.
    [text] is the text read since the last placeholder; [pending] holds the
    characters read after an opening brace that may still become one. *)
Fixpoint split_fields (s : string) (text : string) (pending : option string)
  : list string :=
  match s with
  | EmptyString =>
      [match pending with
       | Some buf => text +:+ "{" +:+ buf
       | None => text
       end]
  | String c s' =>
      match pending with
      | None =>
          if Ascii.eqb c "{" then split_fields s' text (Some EmptyString)
          else split_fields s' (text +:+ String c EmptyString) None
      | Some buf =>
          if Ascii.eqb c "}" then
            match buf with
            | EmptyString => split_fields s' (text +:+ "{}") None
            | _ => text :: ("{" +:+ buf +:+ "}") :: split_fields s' EmptyString None
            end
          else if Ascii.eqb c "{" then
            split_fields s' (text +:+ "{" +:+ buf) (Some EmptyString)
          else split_fields s' text (Some (buf +:+ String c EmptyString))
      end
  end.

(** [p[1:-1]] *)
Definition strip_braces (p : string) : string :=
  String.substring 1 (String.length p - 2) p.

(** The value of a field of the event found by a lookup, or the diagnostic. *)
Definition field_of_found (st : Store) (found : option nat) (fieldname : string)
    (otherwise : value) : result value :=
  match found with
  | None => Ok otherwise
  | Some a =>
      ev ← deref (heap st) a;
      if Event.has_field fieldname ev then Event.get_field fieldname ev
      else Ok (VStr ("FIELD '" +:+ fieldname +:+ "' NOT IN FOUND EVENT"))
  end.

(** The body of the loop of [replaceFields] for one placeholder [p]: the
    value of [trans] before the [None] check. *)
Definition resolve_field (st : Store) (self : nat) (p : string) : result value :=
  me ← deref (heap st) self;
  let src := Str.strip (strip_braces p) in
  let '(fieldname, sep, src) := Str.partition "@" src in
  if (String.length sep =? 0)%nat then
    if Event.has_field fieldname me then Event.get_field fieldname me
    else Ok (VStr ("FIELD '" +:+ fieldname +:+ "' NOT FOUND"))
  else
    let '(evname, sep, src) := Str.partition ":" src in
    match events_lists st !! evname with
    | None => Ok (VStr ("EVENT TYPE '" +:+ evname +:+ "' NOT FOUND"))
    | Some _ =>
        if (String.length sep =? 0)%nat then
          ev ← EventSet.get_event st (Some evname) None (Some (EventSet.BeforeEvent self));
          field_of_found st ev fieldname (VStr "NO MATCHING EVENT")
        else
          let '(rfieldname, sep, cfieldname) := Str.partition "=" src in
          if (String.length sep =? 0)%nat then
            field_of_found st None fieldname
              (VStr ("LOOKUP CONDITION '" +:+ src +:+ "' NOT VALID"))
          else if negb (Event.has_field cfieldname me) then
            field_of_found st None fieldname
              (VStr ("COMPARISON FIELD '" +:+ fieldname +:+ "' NOT FOUND"))
          else
            v ← Event.get_field cfieldname me;
            ev ← EventSet.get_event st (Some evname) (Some [(rfieldname, v)])
                   (Some (EventSet.BeforeEvent self));
            field_of_found st ev fieldname (VStr "NO MATCHING EVENT")
    end.

(** The loop over the odd positions of [parts]. *)
Fixpoint replace_parts (st : Store) (self : nat) (parts : list string) (res : string)
  : result string :=
  match parts with
  | p :: following :: rest =>
      trans ← resolve_field st self p;
      shown ← match trans with
              | VNone => Ok "N/A"
              | VStr s => Ok s
              | VInt _ =>
                  Raise (TypeError "unsupported operand type(s) for +: 'int' and 'str'")
              end;
      replace_parts st self rest (res +:+ shown +:+ following)
  | _ => Ok res
  end.

Definition backslash_t : string := String "\" (String "t" EmptyString).
Definition backslash_n : string := String "\" (String "n" EmptyString).

(** [self.replaceFields(text, events)], [self] an event of the heap. *)
Definition replaceFields (st : Store) (self : nat) (text : string) : result string :=
  let res := Str.replace backslash_t (String Str.tab EmptyString) text in
  let res := Str.replace backslash_n Str.nl res in
  match split_fields res EmptyString None with
  | [] => Raise (IndexError "list index out of range")
  | first :: rest => replace_parts st self rest first
  end.

(** ** Compiled patterns

    A compiled pattern, whatever its text and flags, is represented by the
    method that tries it at one offset of a text: [match_at s pos] is
    [pattern.match(s, pos)], given as the end of the match that starts at
    [pos] and its [groupdict()].  The pattern sees the whole text, before
    the offset too. *)
Record Pattern := mkPattern {
  match_at : string → nat → option (nat * list (string * value))
}.

Definition match_object (pos : nat) (r : nat * list (string * value)) : Match :=
  mkMatch (pos, r.1) r.2.

(** [pattern.match(s)]: the match that starts at offset 0. *)
Definition pattern_match (p : Pattern) (s : string) : option Match :=
  match_object 0 <$> match_at p s 0.

(** [pattern.search(s)]: the match at the first offset that has one. *)
Fixpoint search_offsets (p : Pattern) (s : string) (pos todo : nat) : option Match :=
  match match_at p s pos with
  | Some r => Some (match_object pos r)
  | None =>
      match todo with
      | O => None
      | S todo' => search_offsets p s (S pos) todo'
      end
  end.
Definition pattern_search (p : Pattern) (s : string) : option Match :=
  search_offsets p s 0 (String.length s).

(** ** Patterns given by their syntax

    The patterns of the examples are built from the operators below and
    matched by backtracking with the priorities of Python's [re]: the left
    alternative first, as many repetitions as possible first. *)

Inductive regex :=
  | Eps
  | Sym (p : ascii → bool)
  | Seq (r1 r2 : regex)
  | Alt (r1 r2 : regex)
  | Star (r : regex)
  | Group (name : string) (r : regex).

(** A literal character under [re.IGNORECASE], any character but a line
    break ([.]), and a literal string. *)
Definition lit_ci (c : ascii) : regex :=
  Sym (λ x, Ascii.eqb (Str.lower_ascii x) (Str.lower_ascii c)).
Definition any_char : regex :=
  Sym (λ x, negb (Ascii.eqb x Str.newline)).
Fixpoint literal (s : string) : regex :=
  match s with
  | EmptyString => Eps
  | String c s' => Seq (lit_ci c) (literal s')
  end.

(** The names of the groups, in the order of their opening parentheses. *)
Fixpoint group_names (r : regex) : list string :=
  match r with
  | Eps | Sym _ => []
  | Seq r1 r2 | Alt r1 r2 => group_names r1 ++ group_names r2
  | Star r1 => group_names r1
  | Group name r1 => name :: group_names r1
  end.

(** Repetition: one more round of [body], and when that way fails, the
    continuation.  No round is tried where the round before began ([last],
    as the length of the text that was left): a round that consumed nothing
    ends the repetition and keeps what it captured.  [n] bounds the rounds;
    the length of the input, plus one, is always enough. *)
Fixpoint star_loop {R} (body : string → gmap string string →
                               (string → gmap string string → option R) → option R)
    (k : string → gmap string string → option R)
    (n : nat) (last : option nat) (s : string) (g : gmap string string) : option R :=
  match n with
  | O => k s g
  | S n' =>
      if bool_decide (last = Some (String.length s)) then k s g
      else
        match body s g (star_loop body k n' (Some (String.length s))) with
        | Some x => Some x
        | None => k s g
        end
  end.

(** [rmatch r s g k]: match [r] at the start of [s], with the groups [g]
    captured so far, then hand the rest of the input and the groups to the
    continuation [k]; [None] when every way of matching fails. *)
Fixpoint rmatch {R} (r : regex) (s : string) (g : gmap string string)
    (k : string → gmap string string → option R) : option R :=
  match r with
  | Eps => k s g
  | Sym p =>
      match s with
      | String c s' => if p c then k s' g else None
      | EmptyString => None
      end
  | Seq r1 r2 => rmatch r1 s g (λ s' g', rmatch r2 s' g' k)
  | Alt r1 r2 =>
      match rmatch r1 s g k with
      | Some x => Some x
      | None => rmatch r2 s g k
      end
  | Star r1 => star_loop (rmatch r1) k (S (String.length s)) None s g
  | Group name r1 =>
      rmatch r1 s g (λ s' g',
        k s' (<[name := Str.take (String.length s - String.length s') s]> g'))
  end.

(** [groupdict()]: every group of the pattern, [None] for a group that took
    no part in the match. *)
Definition groupdict_of (r : regex) (g : gmap string string) : list (string * value) :=
  (λ name, (name, match g !! name with Some s => VStr s | None => VNone end))
    <$> group_names r.

(** [pattern.match(s)]: a match starting at offset 0. *)
Definition re_match (r : regex) (s : string) : option Match :=
  rmatch r s ∅ (λ s' g,
    Some (mkMatch (0%nat, (String.length s - String.length s')%nat) (groupdict_of r g))).

(** [pattern.search(s)]: the first offset at which the pattern matches. *)
Fixpoint search_from (r : regex) (pos : nat) (s : string) : option Match :=
  match rmatch r s ∅ (λ s' g,
          Some (mkMatch (pos, (pos + (String.length s - String.length s'))%nat)
                        (groupdict_of r g))) with
  | Some m => Some m
  | None =>
      match s with
      | EmptyString => None
      | String _ s' => search_from r (S pos) s'
      end
  end.
Definition re_search (r : regex) (s : string) : option Match := search_from r 0 s.

(** [re.compile] of a pattern given by its syntax.  These operators look
    at the text from the offset on, and at nothing before it. *)
Definition compile (r : regex) : Pattern :=
  mkPattern (λ s pos,
    if (pos <=? String.length s)%nat then
      m ← re_match r (Str.drop pos s);
      Some ((pos + (span m).2)%nat, groupdict m)
    else None).

(** The language of a pattern. *)
Inductive matches : regex → string → Prop :=
  | MEps : matches Eps EmptyString
  | MSym p c : p c = true → matches (Sym p) (String c EmptyString)
  | MSeq r1 r2 s1 s2 : matches r1 s1 → matches r2 s2 → matches (Seq r1 r2) (s1 +:+ s2)
  | MAltL r1 r2 s : matches r1 s → matches (Alt r1 r2) s
  | MAltR r1 r2 s : matches r2 s → matches (Alt r1 r2) s
  | MStar0 r : matches (Star r) EmptyString
  | MStarS r s1 s2 : matches r s1 → matches (Star r) s2 → matches (Star r) (s1 +:+ s2)
  | MGroup name r s : matches r s → matches (Group name r) s.

(** ** Files and archives

    What a file holds, as [tarfile.open] and [zipfile.ZipFile] see it: its
    members when it opens as a tar archive, its entries when it opens as a
    zip archive.  A [TarInfo] carries what [extractfile] returns for it (no
    file object for a member that is no regular file), a [ZipInfo] the
    content [open] gives access to. *)
Inductive blob :=
  | Blob (as_tar : option (list TarInfo)) (as_zip : option (list ZipInfo))
with TarInfo :=
  | mkTarInfo (name : string) (mtime : datetime.t) (size : Z) (extractfile : option blob)
with ZipInfo :=
  | mkZipInfo (filename : string) (date_time : Z * Z * Z * Z * Z * Z) (file_size : Z)
      (open : blob).

Definition as_tar (b : blob) : option (list TarInfo) :=
  match b with Blob t _ => t end.
Definition as_zip (b : blob) : option (list ZipInfo) :=
  match b with Blob _ z => z end.

Definition tar_name (i : TarInfo) : string :=
  match i with mkTarInfo n _ _ _ => n end.
Definition tar_mtime (i : TarInfo) : datetime.t :=
  match i with mkTarInfo _ t _ _ => t end.
Definition tar_size (i : TarInfo) : Z :=
  match i with mkTarInfo _ _ s _ => s end.
Definition tar_extractfile (i : TarInfo) : option blob :=
  match i with mkTarInfo _ _ _ f => f end.

Definition zip_filename (i : ZipInfo) : string :=
  match i with mkZipInfo n _ _ _ => n end.
Definition zip_date_time (i : ZipInfo) : Z * Z * Z * Z * Z * Z :=
  match i with mkZipInfo _ d _ _ => d end.
Definition zip_file_size (i : ZipInfo) : Z :=
  match i with mkZipInfo _ _ s _ => s end.
Definition zip_open (i : ZipInfo) : blob :=
  match i with mkZipInfo _ _ _ b => b end.

(** [TarFile.getmember(name)]: the last member of that name. *)
Fixpoint getmember (name : string) (members : list TarInfo) : result TarInfo :=
  match members with
  | [] => Raise (KeyError ("filename " +:+ name +:+ " not found"))
  | i :: rest =>
      match getmember name rest with
      | Ok found => Ok found
      | Raise e => if String.eqb name (tar_name i) then Ok i else Raise e
      end
  end.

(** [ZipFile.getinfo(name)]: the last entry of that name. *)
Fixpoint getinfo (name : string) (infos : list ZipInfo) : result ZipInfo :=
  match infos with
  | [] => Raise (KeyError ("There is no item named " +:+ name +:+ " in the archive"))
  | i :: rest =>
      match getinfo name rest with
      | Ok found => Ok found
      | Raise e => if String.eqb name (zip_filename i) then Ok i else Raise e
      end
  end.

(** [datetime.datetime.max], and [tm.replace(microsecond=0)]. *)
Definition datetime_max : datetime.t := datetime.mk 9999 12 31 23 59 59 999999.
Definition without_microsecond (d : datetime.t) : datetime.t :=
  datetime.mk (datetime.year d) (datetime.month d) (datetime.day d)
    (datetime.hour d) (datetime.minute d) (datetime.second d) 0.

(** ** LogSource *)

Module LogSource.

Inductive kind := DIR | TAR | ZIP | LOG.

(** [LogSourceFile]; the attributes that only the extraction uses
    ([offset] and the destination paths) are left out. *)
Record LogSourceFile := mkFile {
  file_path : string;
  pseudoPath : string;
  time : datetime.t;
  size : Z;
  info : option (TarInfo + ZipInfo);
  fields : list (string * value)
}.

(** The open archive object kept by a source. *)
Inductive handle :=
  | TarFile (members : list TarInfo)
  | ZipFile (infos : list ZipInfo).

Record t := mk {
  type : kind;
  path : string;
  archive : option handle;
  logs : list LogSourceFile;
  earliest : datetime.t;
  latest : datetime.t
}.

(** [LogSource(verbosity, type, path, archive)] *)
Definition init (type : kind) (path : string) (archive : option handle) : t :=
  mk type path archive [] datetime_max datetime.min.

Definition count (self : t) : Z := Z.of_nat (length (logs self)).

Section world.

(** The file system and the path functions of [os.path], which depend on
    the platform: [stat] gives the modification time (as the local time
    [fromtimestamp] makes of it) and the size of a file, or raises. *)
Variable join : string → string → string.
Variable relpath : string → string → string.
Variable stat : string → result (datetime.t * Z).

Definition getPseudoPath (self : t) (logpath : string) : string :=
  Str.replace "\" "/" (join (path self) logpath).

(** [add(logpath, fields)]: the source with the file appended. *)
Definition add (self : t) (logpath : string) (fields : list (string * value)) : result t :=
  '(info, tm) ←
    match type self with
    | LOG | DIR =>
        st ← stat logpath; Ok (None, fst st)
    | TAR =>
        match archive self with
        | Some (TarFile members) =>
            i ← getmember logpath members; Ok (Some (inl i), tar_mtime i)
        | _ => Raise (AttributeError "object has no attribute 'getmember'")
        end
    | ZIP =>
        match archive self with
        | Some (ZipFile infos) =>
            i ← getinfo logpath infos;
            let '(y, m, d, h, mi, s) := zip_date_time i in
            tm ← datetime.make y m d h mi s;
            Ok (Some (inr i), tm)
        | _ => Raise (AttributeError "object has no attribute 'getinfo'")
        end
    end;
  let tm := without_microsecond tm in
  let earliest' := if datetime.ltb tm (earliest self) then tm else earliest self in
  let latest' := if datetime.ltb (latest self) tm then tm else latest self in
  size ←
    match info with
    | Some (inr i) => Ok (zip_file_size i)
    | Some (inl i) => Ok (tar_size i)
    | None => st ← stat logpath; Ok (snd st)
    end;
  let spath :=
    match type self with
    | DIR => relpath logpath (path self)
    | _ => logpath
    end in
  Ok (mk (type self) (path self) (archive self)
        (logs self ++ [mkFile spath (getPseudoPath self spath) tm size info fields])
        earliest' latest').

End world.

End LogSource.

(** ** LogSet.checkPathFilter *)

Module LogSet.

(** [self.rexPathFilter] is the path filter, compiled with
    [re.IGNORECASE]. *)
Definition checkPathFilter (rexPathFilter : Pattern) (path : string)
  : option (list (string * value)) :=
  match pattern_match rexPathFilter (Str.replace "\" "/" path) with
  | Some res => Some (groupdict res)
  | None => None
  end.

(** *** scanPath *)

Record t := mk {
  rexPathFilter : Pattern;
  sources : list LogSource.t;
  singleLogFiles : option LogSource.t      (* set by [scanPaths] only *)
}.

Definition set_sources (l : list LogSource.t) (self : t) : t :=
  mk (rexPathFilter self) l (singleLogFiles self).
Definition set_singleLogFiles (s : option LogSource.t) (self : t) : t :=
  mk (rexPathFilter self) (sources self) s.

(** [res += self.scanPath(...)], where [scanPath] may return nothing. *)
Definition add_count (res : Z) (r : option Z) : result Z :=
  match r with
  | Some n => Ok (res + n)
  | None => Raise (TypeError "unsupported operand type(s) for +=: 'int' and 'NoneType'")
  end.

(** [if source.count() > 0: self.sources.append(source)] *)
Definition keep_source (source : LogSource.t) : ST t unit :=
  if 0 <? LogSource.count source
  then modify (λ self, set_sources (sources self ++ [source]) self)
  else mret tt.

Section world.

(** The file system: what is a directory, what is a file, what [os.walk]
    yields for a directory (the directory paths with their file names) and
    what a file holds; [archivePathRex] says whether the pattern of the
    archive names is found in a text. *)
Variable join : string → string → string.
Variable relpath : string → string → string.
Variable stat : string → result (datetime.t * Z).
Variable isdir : string → bool.
Variable isfile : string → bool.
Variable walk : string → list (string * list string).
Variable content : string → blob.
Variable archivePathRex : string → bool.

Section loops.

(** The recursive call, with one level of recursion less. *)
Variable scan : string → option blob → ST t (option Z).

(** The loop over the file names of one directory of the walk. *)
Fixpoint scan_filenames (dirpath : string) (filenames : list string)
    (source : LogSource.t) (res : Z) : ST t (LogSource.t * Z) :=
  match filenames with
  | [] => mret (source, res)
  | filename :: rest =>
      self ← get;
      let fullpath := join dirpath filename in
      match checkPathFilter (rexPathFilter self) fullpath with
      | Some fields =>
          source' ← lift_result (LogSource.add join relpath stat source fullpath fields);
          scan_filenames dirpath rest source' (res + 1)
      | None =>
          if archivePathRex filename then
            n ← scan fullpath None;
            res' ← lift_result (add_count res n);
            scan_filenames dirpath rest source res'
          else scan_filenames dirpath rest source res
      end
  end.

Fixpoint scan_walk (entries : list (string * list string)) (source : LogSource.t)
    (res : Z) : ST t (LogSource.t * Z) :=
  match entries with
  | [] => mret (source, res)
  | (dirpath, filenames) :: rest =>
      '(source', res') ← scan_filenames dirpath filenames source res;
      scan_walk rest source' res'
  end.

(** The loop over the members of an archive: the name of each and the file
    object that [extractfile] or [open] gives for it. *)
Fixpoint scan_members (path : string) (items : list (string * option blob))
    (addedNames : list string) (source : LogSource.t) (res : Z)
  : ST t (LogSource.t * Z) :=
  match items with
  | [] => mret (source, res)
  | (name, newFile) :: rest =>
      self ← get;
      let fullpath := join path name in
      match checkPathFilter (rexPathFilter self) fullpath with
      | Some fields =>
          if bool_decide (name ∈ addedNames) then
            scan_members path rest addedNames source res
          else
            source' ← lift_result (LogSource.add join relpath stat source name fields);
            scan_members path rest (name :: addedNames) source' (res + 1)
      | None =>
          if archivePathRex fullpath then
            n ← scan (join path name) newFile;
            res' ← lift_result (add_count res n);
            scan_members path rest addedNames source res'
          else scan_members path rest addedNames source res
      end
  end.

End loops.

(** The members of a tar archive as the loop sees them, and the names of a
    zip archive with what [zip.open(name)] gives: the last entry of that
    name. *)
Definition tar_items (members : list TarInfo) : list (string * option blob) :=
  (λ f, (tar_name f, tar_extractfile f)) <$> members.
Definition zip_items (infos : list ZipInfo) : list (string * option blob) :=
  (λ f, (zip_filename f,
         match getinfo (zip_filename f) infos with
         | Ok i => Some (zip_open i)
         | Raise _ => None
         end)) <$> infos.

(** [scanPath(path, archivePathRex, file)].  [depth] is the depth of
    recursion that is left: beyond it Python raises a [RuntimeError].  The
    result is [None] when the function ends without a [return]. *)
Fixpoint scanPath (depth : nat) (path : string) (file : option blob)
  : ST t (option Z) :=
  match depth with
  | O => raise (RuntimeError "maximum recursion depth exceeded")
  | S depth' =>
      self ← get;
      let fields := checkPathFilter (rexPathFilter self) path in
      if negb (bool_decide (is_Some file)) && isdir path then
        '(source, res) ← scan_walk (scanPath depth') (walk path)
                           (LogSource.init LogSource.DIR path None) 0;
        keep_source source ;;
        mret (Some res)
      else if negb (bool_decide (is_Some file)) && isfile path
              && bool_decide (is_Some fields) then
        match singleLogFiles self with
        | None => raise (AttributeError "LogSet instance has no attribute 'singleLogFiles'")
        | Some single =>
            single' ← lift_result
              (LogSource.add join relpath stat single path (default [] fields));
            modify (set_singleLogFiles (Some single')) ;;
            mret (Some 1)
        end
      else if bool_decide (is_Some file)
              || (negb (bool_decide (is_Some file)) && isfile path && archivePathRex path) then
        let opened := default (content path) file in
        match as_tar opened, as_zip opened with
        | Some members, _ =>
            '(source, res) ← scan_members (scanPath depth') path (tar_items members) []
                               (LogSource.init LogSource.TAR path
                                  (Some (LogSource.TarFile members))) 0;
            keep_source source ;;
            mret (Some res)
        | None, Some infos =>
            '(source, res) ← scan_members (scanPath depth') path (zip_items infos) []
                               (LogSource.init LogSource.ZIP path
                                  (Some (LogSource.ZipFile infos))) 0;
            keep_source source ;;
            mret (Some res)
        | None, None => mret (Some 0)
        end
      else mret None
  end.

(** [scanPaths(paths, extarchive)], for the paths that [paths.split(";")]
    gives; [archivePathRex] is the pattern built from [extarchive]. *)
Definition scanPaths (depth : nat) (paths : list string) : ST t unit :=
  modify (set_singleLogFiles (Some (LogSource.init LogSource.LOG EmptyString None))) ;;
  for_each paths (λ p, scanPath depth p None ;; mret tt) ;;
  self ← get;
  match singleLogFiles self with
  | None => raise (AttributeError "LogSet instance has no attribute 'singleLogFiles'")
  | Some single => keep_source single
  end.

End world.

End LogSet.

(** ** EventSearchContext: the multiline match state machine *)

Module EventSearchContext.

Record t := mk {
  store : Store;
  verbosity : Z;
  eventTypes : list EventType.t;
  chronological : bool;
  numProcessedLines : Z;
  numFoundEvents : Z;
  searchFilePath : string;
  searchFileTime : option datetime.t;
  searchEventTypes : list EventType.t;
  lines : list string;
  unfinishedEvents : gmap string nat;
  linenum : Z;
  eventLinesCount : option Z
}.

Definition set_store (x : Store) (c : t) : t :=
  mk x (verbosity c) (eventTypes c) (chronological c) (numProcessedLines c) (numFoundEvents c) (searchFilePath c) (searchFileTime c) (searchEventTypes c) (lines c) (unfinishedEvents c) (linenum c) (eventLinesCount c).
Definition set_numProcessedLines (x : Z) (c : t) : t :=
  mk (store c) (verbosity c) (eventTypes c) (chronological c) x (numFoundEvents c) (searchFilePath c) (searchFileTime c) (searchEventTypes c) (lines c) (unfinishedEvents c) (linenum c) (eventLinesCount c).
Definition set_numFoundEvents (x : Z) (c : t) : t :=
  mk (store c) (verbosity c) (eventTypes c) (chronological c) (numProcessedLines c) x (searchFilePath c) (searchFileTime c) (searchEventTypes c) (lines c) (unfinishedEvents c) (linenum c) (eventLinesCount c).
Definition set_searchFilePath (x : string) (c : t) : t :=
  mk (store c) (verbosity c) (eventTypes c) (chronological c) (numProcessedLines c) (numFoundEvents c) x (searchFileTime c) (searchEventTypes c) (lines c) (unfinishedEvents c) (linenum c) (eventLinesCount c).
Definition set_searchFileTime (x : option datetime.t) (c : t) : t :=
  mk (store c) (verbosity c) (eventTypes c) (chronological c) (numProcessedLines c) (numFoundEvents c) (searchFilePath c) x (searchEventTypes c) (lines c) (unfinishedEvents c) (linenum c) (eventLinesCount c).
Definition set_searchEventTypes (x : list EventType.t) (c : t) : t :=
  mk (store c) (verbosity c) (eventTypes c) (chronological c) (numProcessedLines c) (numFoundEvents c) (searchFilePath c) (searchFileTime c) x (lines c) (unfinishedEvents c) (linenum c) (eventLinesCount c).
Definition set_lines (x : list string) (c : t) : t :=
  mk (store c) (verbosity c) (eventTypes c) (chronological c) (numProcessedLines c) (numFoundEvents c) (searchFilePath c) (searchFileTime c) (searchEventTypes c) x (unfinishedEvents c) (linenum c) (eventLinesCount c).
Definition set_unfinishedEvents (x : gmap string nat) (c : t) : t :=
  mk (store c) (verbosity c) (eventTypes c) (chronological c) (numProcessedLines c) (numFoundEvents c) (searchFilePath c) (searchFileTime c) (searchEventTypes c) (lines c) x (linenum c) (eventLinesCount c).
Definition set_linenum (x : Z) (c : t) : t :=
  mk (store c) (verbosity c) (eventTypes c) (chronological c) (numProcessedLines c) (numFoundEvents c) (searchFilePath c) (searchFileTime c) (searchEventTypes c) (lines c) (unfinishedEvents c) x (eventLinesCount c).
Definition set_eventLinesCount (x : option Z) (c : t) : t :=
  mk (store c) (verbosity c) (eventTypes c) (chronological c) (numProcessedLines c) (numFoundEvents c) (searchFilePath c) (searchFileTime c) (searchEventTypes c) (lines c) (unfinishedEvents c) (linenum c) x.

(** Running a method of the event set, or of an event, from the context. *)
Definition on_store {A} (m : ST Store A) : ST t A :=
  λ c, let '(r, st') := m (store c) in (r, set_store st' c).
Definition on_ev {A} (a : nat) (m : ST Event.t A) : ST t A :=
  on_store (on_event a m).

(** [self.eventLinesCount], an attribute that exists only once assigned. *)
Definition read_eventLinesCount : ST t Z :=
  c ← get;
  match eventLinesCount c with
  | Some n => mret n
  | None => raise (AttributeError "EventSearchContext instance has no attribute 'eventLinesCount'")
  end.

(** [getMultiline(num)]: the [num] most recent lines, oldest first, joined
    by line breaks. *)
Fixpoint getMultiline_from (i : nat) (ls : list string) (res : string) : string :=
  match ls with
  | [] => res
  | l :: rest =>
      getMultiline_from (S i) rest
        (l +:+ (match i with O => EmptyString | S _ => Str.nl end) +:+ res)
  end.
Definition getMultiline (num : Z) (c : t) : string :=
  getMultiline_from 0 (take (Z.to_nat num) (lines c)) EmptyString.

(** [deque.appendleft] with [maxlen=100]. *)
Definition appendleft (line : string) (ls : list string) : list string :=
  take 100 (line :: ls).

Section hooks.

(** The code of a [Match] hook is run by [exec]; what it does to the events
    is a parameter of the model.  [now] is the clock. *)
Variable exec_hook : string → nat → ST Store unit.
Variable now : datetime.t.

(** [ev.execute(executionContext)] *)
Definition execute (ev : nat) : ST Store unit :=
  st ← get;
  e ← lift_result (deref (heap st) ev);
  match EventType.execOnMatch (Event.eventType e) with
  | None => mret tt
  | Some code => exec_hook code ev
  end.

(** The loop of [parseDisplay] over the user fields: the names of those that
    are new, or differ from the previous event's, are appended to [res],
    each after a comma unless [res] is still empty. *)
Fixpoint changed_from (previous : Event.t) (fields : list (string * value)) (res : string)
  : string :=
  match fields with
  | [] => res
  | (k, v) :: rest =>
      changed_from previous rest
        (if bool_decide (Event.ufields previous !! k = Some v) then res
         else res +:+ (if (0 <? String.length res)%nat then "," else "") +:+ k)
  end.
Definition changed_fields (me : Event.t) (previous : Event.t) : string :=
  changed_from previous (map_to_list (Event.ufields me)) EmptyString.

(** [ev.parseDisplay(previousEvent, events)] *)
Definition parseDisplay (ev : nat) (previousEvent : option nat) : ST Store unit :=
  st ← get;
  me ← lift_result (deref (heap st) ev);
  res ← match previousEvent with
        | None => mret EmptyString
        | Some p => prev ← lift_result (deref (heap st) p); mret (changed_fields me prev)
        end;
  on_event ev (modify (Event.sfield_store "_changed_fields"
                 (match res with EmptyString => VNone | _ => VStr res end))) ;;
  match EventType.displayOnMatch (Event.eventType me) with
  | Some (String c tpl) =>
      st ← get;
      shown ← lift_result (replaceFields st ev (String c tpl));
      on_event ev (modify (Event.sfield_store "_display_on_match" (VStr shown)))
  | _ => mret tt
  end.

(** [l[-2] if len(l) > 1 else None] *)
Definition second_last (l : list nat) : option nat :=
  match reverse l with
  | _ :: x :: _ => Some x
  | _ => None
  end.

Definition storeNewEvent (ev : nat) (eventLinesCount : Z) : ST t unit :=
  c ← get;
  on_ev ev (Event.setRaw (getMultiline eventLinesCount c)) ;;
  on_ev ev (Event.setLinenum (linenum c - (eventLinesCount + 1))) ;;
  on_store (EventSet.add_event ev) ;;
  modify (set_numFoundEvents (numFoundEvents c + 1)) ;;
  c ← get;
  e ← lift_result (deref (heap (store c)) ev);
  if EventType.immediate (Event.eventType e) || negb (chronological c) then
    on_store (execute ev) ;;
    c ← get;
    match events_lists (store c) !! EventType.name (Event.eventType e) with
    | None => raise (KeyError (EventType.name (Event.eventType e)))
    | Some l =>
        found ← lift_result (EventSet.contains (heap (store c)) ev l);
        if (found : bool) then on_store (parseDisplay ev (second_last l))
        else mret tt
    end
  else mret tt.

(** The first part of [checkLine]: the unfinished events are completed when
    the new line carries a timestamp of their type, or at the end of the
    file.  The result lists the events yielded. *)
Fixpoint finish_events (line : option string) (todo : list (string * nat))
  : ST t (list nat) :=
  match todo with
  | [] => mret []
  | (_, ev) :: rest =>
      c ← get;
      e ← lift_result (deref (heap (store c)) ev);
      let boundary :=
        match line with
        | None => true
        | Some l => bool_decide (is_Some (EventType.searchTimestamp (Event.eventType e) l))
        end in
      if boundary then
        n ← read_eventLinesCount;
        storeNewEvent ev n ;;
        modify (λ c, set_unfinishedEvents
                       (delete (EventType.name (Event.eventType e)) (unfinishedEvents c)) c) ;;
        more ← finish_events line rest;
        mret (ev :: more)
      else finish_events line rest
  end.

(** The loop that looks for a timestamp in the buffered lines, newest
    first; it says whether one was found. *)
Fixpoint find_timestamp (ev : nat) (ls : list string) : ST t bool :=
  match ls with
  | [] => modify (set_eventLinesCount (Some 1)) ;; mret false
  | l :: rest =>
      c ← get;
      try_except
        (on_ev ev (Event.parseTimestamp now (Some l) (searchFileTime c)) ;; mret true)
        (λ _, n ← read_eventLinesCount;
              modify (set_eventLinesCount (Some (n + 1))) ;;
              find_timestamp ev rest)
  end.

(** The second part of [checkLine], for one event type. *)
Definition match_type (line : string) (finishEvents : bool) (evt : EventType.t)
  : ST t (list nat) :=
  c ← get;
  match unfinishedEvents c !! EventType.name evt with
  | Some _ => mret []
  | None =>
      let multiline :=
        if EventType.multilineCount evt =? 1 then line
        else getMultiline (EventType.multilineCount evt) c in
      match EventType.searchText evt multiline with
      | None => mret []
      | Some rexResult =>
          if Str.len multiline - Z.of_nat (snd (span rexResult)) <? Str.len line then
            let '(ev, h) := alloc (heap (store c)) (Event.init evt (searchFilePath c)) in
            modify (set_store (set_heap h (store c))) ;;
            on_ev ev (Event.parseText (Some rexResult)) ;;
            modify (set_eventLinesCount (Some 1)) ;;
            timestampFound ← find_timestamp ev (lines c);
            (if negb timestampFound && (2 <=? verbosity c) then
               try_except
                 (on_ev ev (Event.parseTimestamp now (Some multiline) (searchFileTime c)))
                 (λ _, mret tt)
             else mret tt) ;;
            if negb finishEvents || negb timestampFound then
              n ← read_eventLinesCount;
              storeNewEvent ev n ;;
              mret [ev]
            else
              modify (λ c, set_unfinishedEvents
                             (<[EventType.name evt := ev]> (unfinishedEvents c)) c) ;;
              mret []
          else mret []
      end
  end.

Fixpoint match_types (line : string) (finishEvents : bool) (evts : list EventType.t)
  : ST t (list nat) :=
  match evts with
  | [] => mret []
  | evt :: rest =>
      found ← match_type line finishEvents evt;
      more ← match_types line finishEvents rest;
      mret (found ++ more)
  end.

(** [checkLine(line, finishEvents)]: the events it yields, in order. *)
Definition checkLine (line : option string) (finishEvents : bool) : ST t (list nat) :=
  c ← get;
  finished ←
    (if bool_decide (unfinishedEvents c = ∅) then mret []
     else
       evs ← finish_events line (map_to_list (unfinishedEvents c));
       n ← read_eventLinesCount;
       modify (set_eventLinesCount (Some (n + 1))) ;;
       mret evs);
  match line with
  | None => mret finished
  | Some l =>
      modify (λ c, set_lines (appendleft l (lines c)) c) ;;
      modify (λ c, set_linenum (linenum c + 1) c) ;;
      c ← get;
      started ← match_types l finishEvents (searchEventTypes c);
      modify (λ c, set_numProcessedLines (numProcessedLines c + 1) c) ;;
      mret (finished ++ started)
  end.

(** The lines of a file, then the end-of-file call, as [LogSource.search]
    feeds them to [checkLine]. *)
Fixpoint scan_lines (ls : list string) : ST t (list nat) :=
  match ls with
  | [] => checkLine None true
  | l :: rest =>
      evs ← checkLine (Some l) true;
      more ← scan_lines rest;
      mret (evs ++ more)
  end.

End hooks.

(** [EventSearchContext(verbosity, eventTypes, chronological, outputdir)].
    The attributes that [checkSource] assigns start with arbitrary values.
    The [Init] and [File] hooks are not part of the model: its event types
    carry the [Match] hook only. *)
Definition init (verbosity : Z) (eventTypes : list EventType.t) (chronological : bool) : t :=
  mk (EventSet.init ∅ (EventType.name <$> eventTypes)) verbosity eventTypes chronological
     0 0 EmptyString None [] [] ∅ 0 None.

(** [checkSource(filePath, fileTime)]: the event types whose filename
    pattern is found in the file's name; the per-file state is reset when
    there is one. *)
Definition checkSource (filePath : string) (fileTime : option datetime.t) : ST t bool :=
  modify (set_searchFilePath filePath) ;;
  modify (set_searchFileTime fileTime) ;;
  c ← get;
  let found :=
    filter (λ evt, is_Some (EventType.searchFilename evt filePath)) (eventTypes c) in
  modify (set_searchEventTypes found) ;;
  match found with
  | [] => mret false
  | _ =>
      modify (set_lines []) ;;
      modify (set_unfinishedEvents ∅) ;;
      modify (set_linenum 0) ;;
      mret true
  end.

End EventSearchContext.

(** ** Sample objects used by the examples *)

Definition sample_type : EventType.t :=
  EventType.mk "LOGIN" "N/A" 1 false None false None
    (λ _, None) (λ _, None) (λ _, None).

Definition sample_event : Event.t :=
  snd (Event.setRaw "real text" (Event.init sample_type "logs/app.log")).




Definition stamp_2024 : datetime.t := datetime.mk 2024 1 2 10 0 0 0.

(** A store holding one [LOGIN] event stamped [stamp_2024]. *)
Definition one_event_store : Store :=
  let ev := snd (Event.setTimestamp (Some stamp_2024) sample_event) in
  snd (EventSet.add_event 0%nat (EventSet.init {[0%nat := ev]} ["LOGIN"])).

(** Every reference held by the containers of the store is in the heap. *)
Definition closed (st : Store) : Prop :=
  (∀ a, a ∈ events_sequence st → is_Some (heap st !! a)) ∧
  (∀ k l a, events_lists st !! k = Some l → a ∈ l → is_Some (heap st !! a)).

Definition known_name (st : Store) (name : option string) : Prop :=
  match name with
  | Some n => is_Some (events_lists st !! n)
  | None => True
  end.

(** A store holding two [LOGIN] events with the same timestamp, at
    addresses 0 and 1, inserted in that order. *)
Definition two_event_store : Store :=
  let ev := snd (Event.setTimestamp (Some stamp_2024) sample_event) in
  let st0 := EventSet.init {[0%nat := ev; 1%nat := ev]} ["LOGIN"] in
  snd (EventSet.add_event 1%nat (snd (EventSet.add_event 0%nat st0))).

Definition second_event : Event.t :=
  default sample_event (heap two_event_store !! 1%nat).

(** The order of [Event.__cmp__]: by timestamp, then by sequence number. *)
Definition key_lt (e1 e2 : Event.t) : Prop :=
  datetime.compare (Event.timestamp e1) (Event.timestamp e2) = Lt ∨
  (Event.timestamp e1 = Event.timestamp e2 ∧ Event.seqnum e1 < Event.seqnum e2).

(** The same order on references into a heap. *)
Definition precedes (h : gmap nat Event.t) (x y : nat) : Prop :=
  ∃ ex ey, h !! x = Some ex ∧ h !! y = Some ey ∧ key_lt ex ey.

(** The events of the per-type lists, list after list. *)
Definition all_events (st : Store) : list nat :=
  concat (snd <$> map_to_list (events_lists st)).

(** What [sortEvents] relies on: no event is listed twice, every listed
    event exists, and no two listed events share a sequence number. *)
Definition sortable (st : Store) : Prop :=
  NoDup (all_events st) ∧
  (∀ a, a ∈ all_events st → is_Some (heap st !! a)) ∧
  (∀ a b ea eb, a ∈ all_events st → b ∈ all_events st → a ≠ b →
     heap st !! a = Some ea → heap st !! b = Some eb →
     Event.seqnum ea ≠ Event.seqnum eb).

Definition stamp_2023 : datetime.t := datetime.mk 2023 12 31 23 59 59 0.

Definition login_at (ts : datetime.t) : Event.t :=
  snd (Event.setTimestamp (Some ts) sample_event).

(** Two [LOGIN] events allocated but not yet inserted. *)
Definition fresh_store : Store :=
  EventSet.init {[0%nat := login_at stamp_2024; 1%nat := login_at stamp_2023]} ["LOGIN"].

(** Three [LOGIN] events inserted out of time order: events 0 and 2 are
    stamped [stamp_2024], event 1 is stamped [stamp_2023]. *)
Definition unsorted_store : Store :=
  let st0 := EventSet.init
    {[0%nat := login_at stamp_2024; 1%nat := login_at stamp_2023;
      2%nat := login_at stamp_2024]} ["LOGIN"] in
  snd (EventSet.add_event 2%nat
        (snd (EventSet.add_event 1%nat (snd (EventSet.add_event 0%nat st0))))).

(** The character [c] does not occur in [s]. *)
Fixpoint lacks (c : ascii) (s : string) : bool :=
  match s with
  | EmptyString => true
  | String c' s' => negb (Ascii.eqb c' c) && lacks c s'
  end.

(** The placeholder [{field@type:reffield=condfield}]. *)
Definition lookup_placeholder (field type reffield condfield : string) : string :=
  "{" +:+ (field +:+ "@" +:+ type +:+ ":" +:+ reffield +:+ "=" +:+ condfield) +:+ "}".

(** A filter with a group [dir] (any run of characters other than a slash)
    followed by [/app.log], and the filter [a/b]. *)
Definition dir_filter : regex :=
  Seq (Group "dir" (Star (Sym (λ c, negb (Ascii.eqb c "/"))))) (literal "/app.log").
Definition ab_filter : regex := literal "a/b".

(** The two-line file of the multiline scenario. *)
Definition line1 : string := "ERROR start".
Definition line2 : string := "2024-01-02 10:00:00 continuation".

Definition digit : regex := Sym Event.is_digit.
Definition dotall : regex := Sym (λ _, true).

(** The default timestamp pattern,
    [^(?P<_Y>\d{4})-(?P<_D>\d\d)-(?P<_M>\d\d) (?P<_h>\d\d):(?P<_m>\d\d):(?P<_s>\d\d)];
    the anchor is rendered by matching at offset 0. *)
Definition default_timestamp : regex :=
  Seq (Group "_Y" (Seq digit (Seq digit (Seq digit digit))))
  (Seq (lit_ci "-") (Seq (Group "_D" (Seq digit digit))
  (Seq (lit_ci "-") (Seq (Group "_M" (Seq digit digit))
  (Seq (lit_ci " ") (Seq (Group "_h" (Seq digit digit))
  (Seq (lit_ci ":") (Seq (Group "_m" (Seq digit digit))
  (Seq (lit_ci ":") (Group "_s" (Seq digit digit))))))))))).

(** A window-size-2 event type with the text pattern [rexText] (searched,
    case-insensitive), the default timestamp pattern and no hook. *)
Definition window2_type (rexText : regex) : EventType.t :=
  EventType.mk "ERR" "N/A" 2 false None false None
    (re_search (Star any_char)) (re_search rexText) (re_match default_timestamp).

(** The text pattern [ERROR], and [ERROR.*continuation] where the dot
    matches line breaks too. *)
Definition error_word : regex := literal "ERROR".
Definition error_span : regex :=
  Seq (literal "ERROR") (Seq (Star dotall) (literal "continuation")).

Definition no_hook : string → nat → ST Store unit := λ _ _, mret tt.

(** The system field [k] of the event at address [a]. *)
Definition sfield_at (h : gmap nat Event.t) (a : nat) (k : string) : option value :=
  match h !! a with
  | Some e => Event.sfields e !! k
  | None => None
  end.

(** Scanning the two-line file: what [checkSource] answers, the events
    yielded with their [_raw] and [_line_number], in order. *)
Definition scan_two_lines (chronological : bool) (evt : EventType.t)
  : result bool * result (list (option value * option value)) :=
  let c0 := EventSearchContext.init 0 [evt] chronological in
  let '(ok, c1) := EventSearchContext.checkSource "bundle.zip/app.log" (Some stamp_2024) c0 in
  let '(r, c2) := EventSearchContext.scan_lines no_hook datetime.min [line1; line2] c1 in
  (ok,
   match r with
   | Ok evs =>
       Ok ((λ a, (sfield_at (heap (EventSearchContext.store c2)) a "_raw",
                  sfield_at (heap (EventSearchContext.store c2)) a "_line_number")) <$> evs)
   | Raise e => Raise e
   end).

(** The context [c] with the heap [h] in place of its own. *)
Definition with_heap (h : gmap nat Event.t) (c : EventSearchContext.t)
  : EventSearchContext.t :=
  EventSearchContext.set_store (set_heap h (EventSearchContext.store c)) c.

(** A method of [Event] that leaves the event type of its object alone. *)
Definition keeps_type {A} (m : ST Event.t A) : Prop :=
  ∀ e, Event.eventType (snd (m e)) = Event.eventType e.

(** The context after [storeNewEvent] has stored the event at [ev], whose
    state is then [e']: it is appended to the list of its type [name] (which
    was [l]) and to the flat list. *)
Definition stored (ev : nat) (e' : Event.t) (name : string) (l : list nat)
    (c : EventSearchContext.t) : EventSearchContext.t :=
  EventSearchContext.set_numFoundEvents (EventSearchContext.numFoundEvents c + 1)
    (EventSearchContext.set_store
       (mkStore (<[ev := e']> (heap (EventSearchContext.store c)))
          (<[name := l ++ [ev]]> (events_lists (EventSearchContext.store c)))
          (events_sequence (EventSearchContext.store c) ++ [ev])
          (events_curSeqnum (EventSearchContext.store c) + 1)) c).

(** The context after a match at [ev] has looked for its timestamp: the
    event is in the heap as [e], and [eventLinesCount] is 1. *)
Definition prepared (ev : nat) (e : Event.t) (c : EventSearchContext.t)
  : EventSearchContext.t :=
  EventSearchContext.set_eventLinesCount (Some 1)
    (with_heap (<[ev := e]> (heap (EventSearchContext.store c))) c).

(** The event at [a] has the raw text [raw] and the line number [num]. *)
Definition event_is (h : gmap nat Event.t) (a : nat) (raw num : string) : Prop :=
  sfield_at h a "_raw" = Some (VStr raw) ∧ sfield_at h a "_line_number" = Some (VStr num).

(** The events of [l] exist and carry sequence numbers below the counter of
    the event set. *)
Definition numbered_below (st : Store) (l : list nat) : Prop :=
  ∀ a, a ∈ l → ∃ e, heap st !! a = Some e ∧ Event.seqnum e < events_curSeqnum st.

(** Two lines as the window of the second call sees them. *)
Definition window_of (l1 l2 : string) : string := l1 +:+ Str.nl +:+ l2.

(** The text pattern of [evt] matches the two-line window and the match ends
    in its last line: the test of [checkLine] at the second line. *)
Definition accepted_on (l1 l2 : string) (evt : EventType.t) : bool :=
  match EventType.searchText evt (window_of l1 l2) with
  | Some m => Str.len (window_of l1 l2) - Z.of_nat (snd (span m)) <? Str.len l2
  | None => false
  end.

(** A method of [Event] that keeps the property [P] of its object, however
    it ends. *)
Definition keeps {A} (P : Event.t → Prop) (m : ST Event.t A) : Prop :=
  ∀ e, P e → P (snd (m e)).

(** The system fields that describe the attributes [timestamp] and [seqnum]
    agree with them. *)
Definition described (ev : Event.t) : Prop :=
  Event.sfields ev !! "_timestamp" = Some (VStr (datetime.isoformat (Event.timestamp ev))) ∧
  Event.sfields ev !! "_date" = Some (VStr (datetime.str_date (Event.timestamp ev))) ∧
  Event.sfields ev !! "_time" = Some (VStr (datetime.str_time (Event.timestamp ev))) ∧
  Event.sfields ev !! "_sequence_number" = Some (VStr (Str.of_Z (Event.seqnum ev))).

(** A call of one of the methods that change an event. *)
Inductive call :=
  | call_set_field (name : string) (v : value)
  | call_add_field (name : string) (v : value)
  | call_set_fields (dictionary : list (string * value))
  | call_add_fields (dictionary : list (string * value))
  | call_setRaw (raw : string)
  | call_setLinenum (linenum : Z)
  | call_setSeqnum (num : Z)
  | call_setTimestamp (timestamp : option datetime.t)
  | call_parseText (textRexResult : option Match)
  | call_parseTimestamp (now : datetime.t) (alternativeText : option string)
      (sourceTime : option datetime.t).

Definition run_call (c : call) : ST Event.t unit :=
  match c with
  | call_set_field name v => Event.set_field name v
  | call_add_field name v => Event.add_field name v
  | call_set_fields d => Event.set_fields d
  | call_add_fields d => Event.add_fields d
  | call_setRaw raw => Event.setRaw raw
  | call_setLinenum n => Event.setLinenum n
  | call_setSeqnum n => Event.setSeqnum n
  | call_setTimestamp ts => Event.setTimestamp ts
  | call_parseText m => Event.parseText m
  | call_parseTimestamp now alt src => Event.parseTimestamp now alt src
  end.

(** The event after a sequence of calls, whether they raise or not. *)
Definition after_calls (calls : list call) (ev : Event.t) : Event.t :=
  foldl (λ e c, snd (run_call c e)) ev calls.

(** An event type whose timestamp pattern captures month, day, hour and
    minute only, whatever the text. *)
Definition yearless_type : EventType.t :=
  EventType.mk "Y" "N/A" 1 false None false None
    (λ _, None) (λ _, None)
    (λ _, Some (mkMatch (0%nat, 12%nat)
       [("_M", VStr "Feb"); ("_D", VStr "03"); ("_h", VStr "10"); ("_m", VStr "20")])).

(** The list a query walks through: the flat list, or the list of the
    given type. *)
Definition candidates_of (st : Store) (name : option string) : list nat :=
  match name with
  | None => events_sequence st
  | Some n => default [] (events_lists st !! n)
  end.

(** The state the methods of [EventSet] keep: the flat list holds distinct
    objects, with distinct sequence numbers below the counter; every event
    of the flat list is in the list of its type; a per-type list holds
    distinct events of the flat list, of that type. *)
Definition well_formed (st : Store) : Prop :=
  NoDup (events_sequence st) ∧
  numbered_below st (events_sequence st) ∧
  (∀ a b ea eb, a ∈ events_sequence st → b ∈ events_sequence st → a ≠ b →
     heap st !! a = Some ea → heap st !! b = Some eb →
     Event.seqnum ea ≠ Event.seqnum eb) ∧
  (∀ a e, a ∈ events_sequence st → heap st !! a = Some e →
     ∃ l, events_lists st !! EventType.name (Event.eventType e) = Some l ∧ a ∈ l) ∧
  (∀ k l, events_lists st !! k = Some l →
     NoDup l ∧
     ∀ a, a ∈ l → a ∈ events_sequence st ∧
       ∃ e, heap st !! a = Some e ∧ EventType.name (Event.eventType e) = k).

(** The event at [a] is in none of the lists of the set. *)
Definition unlisted (st : Store) (a : nat) : Prop :=
  (a ∉ events_sequence st) ∧ (∀ k l, events_lists st !! k = Some l → a ∉ l).





(** A store whose second event has got the number 42 as the field
    [delay]. *)
Definition delay_store : Store :=
  set_heap (<[1%nat := Event.ufield_store "delay" (VInt 42) second_event]>
              (heap two_event_store)) two_event_store.

(** The part of the context that follows the file being read is the same
    in [c] and [c']: the window of lines, the line number and the count of
    processed lines. *)
Definition same_file (c c' : EventSearchContext.t) : Prop :=
  EventSearchContext.lines c' = EventSearchContext.lines c ∧
  EventSearchContext.linenum c' = EventSearchContext.linenum c ∧
  EventSearchContext.numProcessedLines c' = EventSearchContext.numProcessedLines c.

(** A step of the search that leaves that part alone, however it ends. *)
Definition frames {A} (m : ST EventSearchContext.t A) : Prop :=
  ∀ c, same_file c (snd (m c)).

(** A context in which the event at address 0 waits to be stored: one line
    is buffered and one line was counted. *)
Definition pending_context : EventSearchContext.t :=
  EventSearchContext.set_lines ["a line"]
    (EventSearchContext.set_linenum 1
       (with_heap {[0%nat := Event.init sample_type "app.log"]}
          (EventSearchContext.init 0 [sample_type] false))).

(** The number of log files a [LogSet] has registered: those of its sources
    and the files given directly. *)
Definition registered (self : LogSet.t) : Z :=
  foldr (λ s n, LogSource.count s + n) 0 (LogSet.sources self)
  + match LogSet.singleLogFiles self with
    | Some single => LogSource.count single
    | None => 0
    end.

(** The return value of a scan tells how many files it registered. *)
Definition counts (scan : string → option blob → ST LogSet.t (option Z)) : Prop :=
  ∀ path file self n self',
    scan path file self = (Ok (Some n), self') → registered self' = registered self + n.


(** [a <= b] on [datetime] values. *)
Definition dt_le (a b : datetime.t) : Prop := datetime.ltb b a = false.

(** What holds for a file of a source: no backslash in its pseudo path, and
    a time without microseconds between the bounds of the source. *)
Definition file_ok (s : LogSource.t) (f : LogSource.LogSourceFile) : Prop :=
  lacks "\" (LogSource.pseudoPath f) = true ∧
  dt_le (LogSource.earliest s) (LogSource.time f) ∧
  dt_le (LogSource.time f) (LogSource.latest s) ∧
  datetime.microsecond (LogSource.time f) = 0.

(** A source of archive members: no member name twice, and the pseudo path
    of every member passes the path filter, with the fields stored. *)
Definition members_ok (rex : Pattern) (s : LogSource.t) : Prop :=
  NoDup (LogSource.file_path <$> LogSource.logs s) ∧
  Forall (λ f, LogSet.checkPathFilter rex (LogSource.pseudoPath f)
               = Some (LogSource.fields f)) (LogSource.logs s).

Definition source_ok (rex : Pattern) (s : LogSource.t) : Prop :=
  Forall (file_ok s) (LogSource.logs s) ∧
  (LogSource.type s = LogSource.TAR ∨ LogSource.type s = LogSource.ZIP → members_ok rex s).

(** The sources a [LogSet] keeps are in order, and none is empty; the path
    filter is [rex]. *)
Definition sources_ok (rex : Pattern) (self : LogSet.t) : Prop :=
  LogSet.rexPathFilter self = rex ∧
  Forall (λ s, source_ok rex s ∧ LogSource.logs s ≠ []) (LogSet.sources self) ∧
  (∀ single, LogSet.singleLogFiles self = Some single →
     LogSource.type single = LogSource.LOG ∧
     Forall (file_ok single) (LogSource.logs single)).

(** A scan that keeps the sources in order, however it ends. *)
Definition keeps_sources (rex : Pattern)
    (scan : string → option blob → ST LogSet.t (option Z)) : Prop :=
  ∀ path file self, sources_ok rex self → sources_ok rex (snd (scan path file self)).

(** The source filled by the loop over the members of the archive at
    [path]: its files so far are in order and their names are in
    [addedNames]. *)
Definition filling (rex : Pattern) (join : string → string → string) (path : string)
    (addedNames : list string) (s : LogSource.t) : Prop :=
  LogSource.path s = path ∧
  Forall (file_ok s) (LogSource.logs s) ∧
  members_ok rex s ∧
  (∀ f, f ∈ LogSource.logs s → LogSource.file_path f ∈ addedNames).

(** The call [scanPath(path, archivePathRex, file)] gets as far as opening
    an archive: a file object is given, or [path] is a file, and no
    directory, that does not pass the path filter and carries the name of
    an archive. *)
Definition candidate (isdir isfile archivePathRex : string → bool) (path : string)
    (file : option blob) (self : LogSet.t) : Prop :=
  file = None →
  isdir path = false ∧ isfile path = true ∧ archivePathRex path = true ∧
  LogSet.checkPathFilter (LogSet.rexPathFilter self) path = None.

(** A small world for the examples: the directory [logs] holds a log file,
    a file named like an archive that is none, and a name without a file
    behind it; another directory holds such a name only. *)
Definition log_filter : Pattern := compile (Seq (Star any_char) (literal ".log")).
Definition sample_join (a b : string) : string := a +:+ "/" +:+ b.
Definition sample_stat (p : string) : result (datetime.t * Z) := Ok (stamp_2024, 10).
Definition sample_isdir (p : string) : bool := String.eqb p "logs" || String.eqb p "broken".
Definition sample_isfile (p : string) : bool :=
  String.eqb p "logs/app.log" || String.eqb p "logs/old.zip".
Definition sample_walk (p : string) : list (string * list string) :=
  if String.eqb p "logs" then [("logs", ["old.zip"; "app.log"])]
  else [("broken", ["link.zip"])].
Definition sample_content (p : string) : blob := Blob None None.
Definition sample_archive_name (s : string) : bool :=
  match re_search (Seq (literal ".zip") Eps) s with Some _ => true | None => false end.
Definition empty_set : LogSet.t := LogSet.mk log_filter [] None.
Definition sample_scan (depth : nat) (path : string) : result (option Z) * LogSet.t :=
  LogSet.scanPath sample_join (λ f _, f) sample_stat sample_isdir sample_isfile
    sample_walk sample_content sample_archive_name depth path None empty_set.

(** ** EventSet.save: the CSV export

    The text written to the file is the state: what was written before an
    exception stays written. *)

(** [trans(s)] *)
Definition trans (s : value) : result string :=
  match s with
  | VNone => Ok EmptyString
  | VStr s => Ok (Str.replace ";" " " (Str.replace Str.nl " " s))
  | VInt _ => Raise (AttributeError "'int' object has no attribute 'replace'")
  end.






(** * Properties *)

(** ** Sanity checks of the string and date helpers *)

Example replace_ex1 : Str.replace "\" "/" "a\b\c" = "a/b/c".
Proof. reflexivity. Qed.
Example replace_ex2 : Str.replace "ab" "x" "aababab." = "axxx.".
Proof. reflexivity. Qed.
Example partition_ex1 : Str.partition "@" "code@LOGIN:u=v" = ("code", "@", "LOGIN:u=v").
Proof. reflexivity. Qed.
Example partition_ex2 : Str.partition "@" "code" = ("code", "", "").
Proof. reflexivity. Qed.
Example strip_ex : Str.strip "  a b  " = "a b".
Proof. reflexivity. Qed.
Example int_ex1 : Str.int "02" = Ok 2.
Proof. reflexivity. Qed.
Example int_ex2 : Str.int " -17 " = Ok (-17).
Proof. reflexivity. Qed.
Example int_ex3 : is_ok (Str.int "Feb") = false.
Proof. reflexivity. Qed.
Example of_Z_ex : (Str.of_Z (-1), Str.of_Z 0, Str.of_Z 120, Str.zpad 4 7) = ("-1", "0", "120", "0007").
Proof. reflexivity. Qed.
Example isoformat_min : datetime.isoformat datetime.min = "0001-01-01T00:00:00".
Proof. reflexivity. Qed.

(** ** Event fields: protection of system fields, shadowing by user fields *)

Lemma set_field_system (ev : Event.t) (name : string) (v : value) :
  is_Some (Event.sfields ev !! name) →
  Event.set_field name v ev =
    (Raise (RuntimeError ("Overwriting " +:+ name +:+ " system field not allowed")), ev).
Proof.
  intros [w Hw]. unfold Event.set_field, mbind, ST_bind, get. simpl.
  rewrite Hw. reflexivity.
Qed.

Lemma add_field_system (ev : Event.t) (name : string) (v : value) :
  is_Some (Event.sfields ev !! name) →
  Event.add_field name v ev =
    (Raise (RuntimeError ("Field " +:+ name +:+ " already exists")), ev).
Proof.
  intros [w Hw]. unfold Event.add_field, mbind, ST_bind, get. simpl.
  rewrite Hw. reflexivity.
Qed.

(** C8. For a name that is a key of the system-field map, [set_field] and
    [add_field] both raise, and the event they leave behind is the event
    they were called on: neither the system fields nor the user fields have
    changed. *)
Theorem system_fields_not_overwritten (ev : Event.t) (name : string) (v : value) :
  is_Some (Event.sfields ev !! name) →
  (∃ e, Event.set_field name v ev = (Raise e, ev)) ∧
  (∃ e, Event.add_field name v ev = (Raise e, ev)) ∧
  Event.sfields (snd (Event.set_field name v ev)) = Event.sfields ev ∧
  Event.ufields (snd (Event.set_field name v ev)) = Event.ufields ev ∧
  Event.sfields (snd (Event.add_field name v ev)) = Event.sfields ev ∧
  Event.ufields (snd (Event.add_field name v ev)) = Event.ufields ev.
Proof.
  intros H.
  rewrite (set_field_system ev name v H), (add_field_system ev name v H).
  simpl. eauto 10.
Qed.

Lemma system_fields_not_overwritten_witness :
  (∃ e, Event.set_field "_raw" (VStr "x") sample_event = (Raise e, sample_event)) ∧
  (∃ e, Event.add_field "_raw" (VStr "x") sample_event = (Raise e, sample_event)) ∧
  Event.sfields (snd (Event.set_field "_raw" (VStr "x") sample_event))
    = Event.sfields sample_event ∧
  Event.ufields (snd (Event.set_field "_raw" (VStr "x") sample_event))
    = Event.ufields sample_event ∧
  Event.sfields (snd (Event.add_field "_raw" (VStr "x") sample_event))
    = Event.sfields sample_event ∧
  Event.ufields (snd (Event.add_field "_raw" (VStr "x") sample_event))
    = Event.ufields sample_event.
Proof.
  apply (system_fields_not_overwritten sample_event "_raw" (VStr "x")).
  vm_compute. eauto.
Defined.

Lemma get_field_user (ev : Event.t) (name : string) (v : value) :
  Event.ufields ev !! name = Some v → Event.get_field name ev = Ok v.
Proof. intros H. unfold Event.get_field. rewrite H. reflexivity. Qed.

Lemma has_field_user (ev : Event.t) (name : string) (v : value) :
  Event.ufields ev !! name = Some v → Event.has_field name ev = true.
Proof.
  intros H. unfold Event.has_field. rewrite H.
  rewrite bool_decide_eq_true_2 by eauto.
  rewrite orb_true_r. reflexivity.
Qed.

Lemma parseText_ufields (ev : Event.t) (m : Match) :
  Event.parseText (Some m) ev =
    (Ok tt, Event.set_ufields (list_to_map (groupdict m)) ev).
Proof. reflexivity. Qed.

(** C10. A user field shadows a system or virtual field of the same name:
    whatever the system-field map holds, [get_field] returns the user value
    and [has_field] is true; and since [parseText] installs the named groups
    of the text match as the user-field map, a group called [_raw] or
    [_flat] is what every later read returns. *)
Theorem user_field_shadows (ev : Event.t) (m : Match) (name : string) (v : value) :
  (Event.ufields ev !! name = Some v →
     Event.get_field name ev = Ok v ∧ Event.has_field name ev = true) ∧
  ((list_to_map (groupdict m) : gmap string value) !! name = Some v →
     let ev' := snd (Event.parseText (Some m) ev) in
     Event.sfields ev' = Event.sfields ev ∧
     Event.get_field name ev' = Ok v ∧ Event.has_field name ev' = true).
Proof.
  split.
  - intros H. split; [exact (get_field_user ev name v H) | exact (has_field_user ev name v H)].
  - intros H ev'. subst ev'. rewrite parseText_ufields. simpl.
    split; [reflexivity|].
    split; [apply get_field_user | apply (has_field_user _ _ v)]; exact H.
Qed.

Example shadow_raw :
  let m := mkMatch (0%nat, 4%nat) [("_raw", VStr "fake"); ("_flat", VNone)] in
  let ev' := snd (Event.parseText (Some m) sample_event) in
  Event.get_field "_raw" sample_event = Ok (VStr "real text") ∧
  Event.get_field "_raw" ev' = Ok (VStr "fake") ∧
  Event.get_field "_flat" sample_event = Ok (VStr "real text") ∧
  Event.get_field "_flat" ev' = Ok VNone.
Proof. vm_compute. auto. Qed.

(** ** Timestamp derivation: month and year *)







(** ** Queries on the event set *)

Lemma result_bind_ok {A B} (r : result A) (f : A → result B) (b : B) :
  (r ≫= f) = Ok b → ∃ a, r = Ok a ∧ f a = Ok b.
Proof. destruct r as [a|e]; simpl; [eauto | discriminate]. Qed.

Lemma deref_ok (h : gmap nat Event.t) (a : nat) (ev : Event.t) :
  deref h a = Ok ev ↔ h !! a = Some ev.
Proof. unfold deref. destruct (h !! a); split; congruence. Qed.

Lemma scan_sound h name fields before limit candidates :
  ∀ num l,
  EventSet.scan h name fields before limit num candidates = Ok l →
  ∀ a, a ∈ l →
    a ∈ candidates ∧
    ∃ ev, h !! a = Some ev ∧ EventSet.is_matching h name fields before ev = Ok true.
Proof.
  induction candidates as [|c rest IH]; intros num l H a Ha; simpl in H.
  - inversion H; subst. inversion Ha.
  - apply result_bind_ok in H as (ev & Hev & H).
    apply result_bind_ok in H as (m & Hm & H).
    apply deref_ok in Hev.
    destruct m.
    + destruct (num + 1 =? limit).
      * inversion H; subst. apply list_elem_of_singleton in Ha as ->.
        split; [left | eauto].
      * apply result_bind_ok in H as (more & Hmore & H).
        inversion H; subst.
        apply elem_of_cons in Ha as [-> | Ha].
        -- split; [left | eauto].
        -- destruct (IH _ _ Hmore a Ha) as [Hin Hx]. split; [right; exact Hin | exact Hx].
    + destruct (IH _ _ H a Ha) as [Hin Hx]. split; [right; exact Hin | exact Hx].
Qed.

Lemma is_matching_total h name fields before ev :
  match before with
  | Some (EventSet.BeforeEvent b) => is_Some (h !! b)
  | _ => True
  end →
  ∃ m, EventSet.is_matching h name fields before ev = Ok m.
Proof.
  intros Hb. unfold EventSet.is_matching.
  destruct before as [[t|b]|]; [| |eauto].
  - match goal with |- context [if ?c then _ else _] => destruct c end; simpl; eauto.
  - destruct Hb as [bev Hbev].
    match goal with |- context [if ?c then _ else _] => destruct c end; [|eauto].
    unfold EventSet.excluded_by, deref. rewrite Hbev. simpl. eauto.
Qed.

Lemma scan_total h name fields before limit candidates :
  (∀ a, a ∈ candidates → is_Some (h !! a)) →
  match before with
  | Some (EventSet.BeforeEvent b) => is_Some (h !! b)
  | _ => True
  end →
  ∀ num, ∃ l, EventSet.scan h name fields before limit num candidates = Ok l.
Proof.
  intros Hc Hb.
  induction candidates as [|c rest IH]; intros num; simpl; [eauto|].
  destruct (Hc c) as [ev Hev]; [left|].
  unfold deref. rewrite Hev. simpl.
  destruct (is_matching_total h name fields before ev Hb) as [m ->]. simpl.
  assert (Hrest : ∀ a, a ∈ rest → is_Some (h !! a)) by (intros; apply Hc; right; done).
  destruct m.
  - destruct (num + 1 =? limit); [eauto|].
    destruct (IH Hrest (num + 1)) as [more ->]. simpl. eauto.
  - apply IH, Hrest.
Qed.

Lemma get_events_total st name fields before limit :
  closed st → known_name st name →
  match before with
  | Some (EventSet.BeforeEvent b) => is_Some (heap st !! b)
  | _ => True
  end →
  ∃ l, EventSet.get_events st name fields before limit = Ok l.
Proof.
  intros [Hseq Hlists] Hname Hb. unfold EventSet.get_events.
  destruct name as [n|]; simpl in *.
  - destruct Hname as [l Hl]. rewrite Hl. simpl.
    apply scan_total; [|exact Hb].
    intros a Ha. rewrite elem_of_reverse in Ha. eapply Hlists; eauto.
  - apply scan_total; [|exact Hb].
    intros a Ha. rewrite elem_of_reverse in Ha. auto.
Qed.

Lemma get_events_sound st name fields before limit l :
  EventSet.get_events st name fields before limit = Ok l →
  ∀ a, a ∈ l →
    ∃ ev, heap st !! a = Some ev ∧
          EventSet.is_matching (heap st) name fields before ev = Ok true.
Proof.
  intros H a Ha. unfold EventSet.get_events in H.
  apply result_bind_ok in H as (cands & _ & H).
  destruct (scan_sound _ _ _ _ _ _ _ _ H a Ha) as [_ Hx]. exact Hx.
Qed.

Lemma is_matching_before_event h name fields b ev bev :
  h !! b = Some bev →
  EventSet.is_matching h name fields (Some (EventSet.BeforeEvent b)) ev = Ok true →
  Event.seqnum ev < Event.seqnum bev ∧
  datetime.ltb (Event.timestamp bev) (Event.timestamp ev) = false.
Proof.
  intros Hb H. unfold EventSet.is_matching in H.
  match type of H with context [if ?c then _ else _] => destruct c end; [|discriminate].
  unfold EventSet.excluded_by, deref in H. rewrite Hb in H. simpl in H.
  inversion H as [H1]. apply negb_true_iff, orb_false_iff in H1 as [Ht Hs].
  apply Z.leb_gt in Hs. auto.
Qed.

Lemma is_matching_before_timestamp h name fields t ev :
  EventSet.is_matching h name fields (Some (EventSet.BeforeTimestamp t)) ev = Ok true →
  datetime.ltb t (Event.timestamp ev) = false.
Proof.
  intros H. unfold EventSet.is_matching in H.
  match type of H with context [if ?c then _ else _] => destruct c end; [|discriminate].
  simpl in H. inversion H as [H1]. apply negb_true_iff in H1. exact H1.
Qed.

(** C3. A query with [before] an event of the store returns; what
    [get_events] yields, and what [get_event] returns, is never that event
    and never an event whose sequence number is that of the reference or
    greater. *)
Theorem before_event_excludes_reference
    (st : Store) (name : option string) (fields : option (list (string * value)))
    (limit : Z) (A : nat) (evA : Event.t) :
  closed st → known_name st name → heap st !! A = Some evA →
  (∃ l, EventSet.get_events st name fields (Some (EventSet.BeforeEvent A)) limit = Ok l ∧
        ∀ a, a ∈ l →
          a ≠ A ∧ ∃ ev, heap st !! a = Some ev ∧ Event.seqnum ev < Event.seqnum evA) ∧
  (∃ r, EventSet.get_event st name fields (Some (EventSet.BeforeEvent A)) = Ok r ∧
        ∀ a, r = Some a →
          a ≠ A ∧ ∃ ev, heap st !! a = Some ev ∧ Event.seqnum ev < Event.seqnum evA).
Proof.
  intros Hc Hn HA.
  assert (Hgen : ∀ limit l,
    EventSet.get_events st name fields (Some (EventSet.BeforeEvent A)) limit = Ok l →
    ∀ a, a ∈ l →
      a ≠ A ∧ ∃ ev, heap st !! a = Some ev ∧ Event.seqnum ev < Event.seqnum evA).
  { intros lim l Hl a Ha.
    destruct (get_events_sound _ _ _ _ _ _ Hl a Ha) as (ev & Hev & Hm).
    destruct (is_matching_before_event _ _ _ _ _ _ HA Hm) as [Hlt _].
    split; [|eauto].
    intros ->. rewrite HA in Hev. inversion Hev; subst. lia. }
  split.
  - destruct (get_events_total st name fields (Some (EventSet.BeforeEvent A)) limit Hc Hn)
      as [l Hl]; [simpl; eauto|].
    exists l. split; [exact Hl | exact (Hgen limit l Hl)].
  - destruct (get_events_total st name fields (Some (EventSet.BeforeEvent A)) 1 Hc Hn)
      as [l Hl]; [simpl; eauto|].
    exists (head l). unfold EventSet.get_event. rewrite Hl. simpl.
    split; [reflexivity|].
    intros a Ha. apply (Hgen 1 l Hl).
    destruct l as [|x l']; simpl in Ha; [discriminate|]. inversion Ha; subst. left.
Qed.

Lemma seqnum_is_Some (h : gmap nat Event.t) (a : nat) (n : Z) :
  Event.seqnum <$> h !! a = Some n → is_Some (h !! a).
Proof. destruct (h !! a); [eauto | discriminate]. Qed.

Lemma two_event_store_closed : closed two_event_store.
Proof.
  assert (S0 : Event.seqnum <$> heap two_event_store !! 0%nat = Some 0)
    by (vm_compute; reflexivity).
  assert (S1 : Event.seqnum <$> heap two_event_store !! 1%nat = Some 1)
    by (vm_compute; reflexivity).
  assert (Es : events_sequence two_event_store = [0%nat; 1%nat])
    by (vm_compute; reflexivity).
  assert (El : events_lists two_event_store = {["LOGIN" := [0%nat; 1%nat]]})
    by (vm_compute; reflexivity).
  assert (H : ∀ a, a ∈ [0%nat; 1%nat] → is_Some (heap two_event_store !! a)).
  { intros a Ha.
    repeat (apply elem_of_cons in Ha as [->|Ha]; [eapply seqnum_is_Some; eassumption|]).
    inversion Ha. }
  split.
  - rewrite Es. exact H.
  - intros k l a Hk Ha. rewrite El in Hk.
    apply lookup_singleton_Some in Hk as [_ <-]. exact (H a Ha).
Qed.

Lemma before_event_excludes_reference_witness :
  (∃ l, EventSet.get_events two_event_store None None
          (Some (EventSet.BeforeEvent 1%nat)) 0 = Ok l ∧
        ∀ a, a ∈ l →
          a ≠ 1%nat ∧ ∃ ev, heap two_event_store !! a = Some ev ∧
                            Event.seqnum ev < Event.seqnum second_event) ∧
  (∃ r, EventSet.get_event two_event_store None None
          (Some (EventSet.BeforeEvent 1%nat)) = Ok r ∧
        ∀ a, r = Some a →
          a ≠ 1%nat ∧ ∃ ev, heap two_event_store !! a = Some ev ∧
                            Event.seqnum ev < Event.seqnum second_event).
Proof.
  apply (before_event_excludes_reference two_event_store None None 0 1%nat second_event).
  - exact two_event_store_closed.
  - exact I.
  - vm_compute. reflexivity.
Defined.

Example before_event_query :
  EventSet.get_events two_event_store None None (Some (EventSet.BeforeEvent 1%nat)) 0
    = Ok [0%nat] ∧
  EventSet.get_events two_event_store None None (Some (EventSet.BeforeEvent 0%nat)) 0
    = Ok [] ∧
  EventSet.get_events two_event_store None None None 0 = Ok [1%nat; 0%nat].
Proof. vm_compute. auto. Qed.

Lemma lex_compare_antisym (l1 l2 : list Z) :
  datetime.lex_compare l2 l1 = CompOpp (datetime.lex_compare l1 l2).
Proof.
  revert l2. induction l1 as [|x l1 IH]; intros [|y l2]; simpl; try reflexivity.
  rewrite (Z.compare_antisym x y).
  destruct (x ?= y); simpl; auto.
Qed.

Lemma ltb_false_not_later (t u : datetime.t) :
  datetime.ltb t u = false → datetime.compare u t ≠ Gt.
Proof.
  unfold datetime.ltb, datetime.compare.
  rewrite (lex_compare_antisym (datetime.fields t) (datetime.fields u)).
  destruct (datetime.lex_compare (datetime.fields t) (datetime.fields u)); simpl;
    congruence.
Qed.

(** C2, as the code has it.  A query with [before] a timestamp [t] returns,
    and every event it yields (or [get_event] returns) is not later than
    [t]: the test that drops an event is [t < ev.timestamp], so an event
    stamped exactly [t] is kept. *)
Theorem before_timestamp_not_later
    (st : Store) (name : option string) (fields : option (list (string * value)))
    (limit : Z) (t : datetime.t) :
  closed st → known_name st name →
  (∃ l, EventSet.get_events st name fields (Some (EventSet.BeforeTimestamp t)) limit = Ok l ∧
        ∀ a, a ∈ l →
          ∃ ev, heap st !! a = Some ev ∧
                datetime.ltb t (Event.timestamp ev) = false ∧
                datetime.compare (Event.timestamp ev) t ≠ Gt) ∧
  (∃ r, EventSet.get_event st name fields (Some (EventSet.BeforeTimestamp t)) = Ok r ∧
        ∀ a, r = Some a →
          ∃ ev, heap st !! a = Some ev ∧
                datetime.ltb t (Event.timestamp ev) = false ∧
                datetime.compare (Event.timestamp ev) t ≠ Gt).
Proof.
  intros Hc Hn.
  assert (Hgen : ∀ limit l,
    EventSet.get_events st name fields (Some (EventSet.BeforeTimestamp t)) limit = Ok l →
    ∀ a, a ∈ l →
      ∃ ev, heap st !! a = Some ev ∧
            datetime.ltb t (Event.timestamp ev) = false ∧
            datetime.compare (Event.timestamp ev) t ≠ Gt).
  { intros lim l Hl a Ha.
    destruct (get_events_sound _ _ _ _ _ _ Hl a Ha) as (ev & Hev & Hm).
    apply is_matching_before_timestamp in Hm.
    exists ev. split; [exact Hev|]. split; [exact Hm|].
    apply ltb_false_not_later, Hm. }
  split.
  - destruct (get_events_total st name fields (Some (EventSet.BeforeTimestamp t)) limit Hc Hn)
      as [l Hl]; [exact I|].
    exists l. split; [exact Hl | exact (Hgen limit l Hl)].
  - destruct (get_events_total st name fields (Some (EventSet.BeforeTimestamp t)) 1 Hc Hn)
      as [l Hl]; [exact I|].
    exists (head l). unfold EventSet.get_event. rewrite Hl. simpl.
    split; [reflexivity|].
    intros a Ha. apply (Hgen 1 l Hl).
    destruct l as [|x l']; simpl in Ha; [discriminate|]. inversion Ha; subst. left.
Qed.

Lemma before_timestamp_not_later_witness :
  (∃ l, EventSet.get_events two_event_store (Some "LOGIN") None
          (Some (EventSet.BeforeTimestamp stamp_2024)) 0 = Ok l ∧
        ∀ a, a ∈ l →
          ∃ ev, heap two_event_store !! a = Some ev ∧
                datetime.ltb stamp_2024 (Event.timestamp ev) = false ∧
                datetime.compare (Event.timestamp ev) stamp_2024 ≠ Gt) ∧
  (∃ r, EventSet.get_event two_event_store (Some "LOGIN") None
          (Some (EventSet.BeforeTimestamp stamp_2024)) = Ok r ∧
        ∀ a, r = Some a →
          ∃ ev, heap two_event_store !! a = Some ev ∧
                datetime.ltb stamp_2024 (Event.timestamp ev) = false ∧
                datetime.compare (Event.timestamp ev) stamp_2024 ≠ Gt).
Proof.
  apply (before_timestamp_not_later two_event_store (Some "LOGIN") None 0 stamp_2024).
  - exact two_event_store_closed.
  - vm_compute. eauto.
Defined.

(** C2 as stated fails: the one event of [one_event_store] is stamped
    [stamp_2024], it is not strictly earlier than [stamp_2024], and the query
    [before=stamp_2024] yields it, as does [get_event]. *)
Lemma before_timestamp_yields_equal :
  Event.timestamp <$> (heap one_event_store !! 0%nat) = Some stamp_2024 ∧
  datetime.ltb stamp_2024 stamp_2024 = false ∧
  EventSet.get_events one_event_store None None
    (Some (EventSet.BeforeTimestamp stamp_2024)) 0 = Ok [0%nat] ∧
  EventSet.get_event one_event_store None None
    (Some (EventSet.BeforeTimestamp stamp_2024)) = Ok (Some 0%nat).
Proof. vm_compute. auto. Qed.

(** ** The order on events *)

Lemma lex_compare_refl (l : list Z) : datetime.lex_compare l l = Eq.
Proof. induction l as [|x l IH]; simpl; [reflexivity|]. rewrite Z.compare_refl. exact IH. Qed.

Lemma lex_compare_eq (l1 l2 : list Z) : datetime.lex_compare l1 l2 = Eq → l1 = l2.
Proof.
  revert l2. induction l1 as [|x l1 IH]; intros [|y l2]; simpl; try discriminate; auto.
  destruct (x ?= y) eqn:E; try discriminate.
  apply Z.compare_eq in E. intros H. f_equal; auto.
Qed.

Lemma lex_compare_trans (l1 l2 l3 : list Z) :
  datetime.lex_compare l1 l2 = Lt → datetime.lex_compare l2 l3 = Lt →
  datetime.lex_compare l1 l3 = Lt.
Proof.
  revert l2 l3. induction l1 as [|x l1 IH]; intros [|y l2] [|z l3]; simpl;
    try discriminate; auto.
  destruct (x ?= y) eqn:Exy; try discriminate;
    destruct (y ?= z) eqn:Eyz; try discriminate; intros H1 H2.
  - apply Z.compare_eq in Exy, Eyz. subst. rewrite Z.compare_refl. eauto.
  - apply Z.compare_eq in Exy. subst. rewrite Eyz. reflexivity.
  - apply Z.compare_eq in Eyz. subst. rewrite Exy. reflexivity.
  - assert (x < z) as Hlt by (rewrite Z.compare_lt_iff in Exy, Eyz; lia).
    apply Z.compare_lt_iff in Hlt. rewrite Hlt. reflexivity.
Qed.

Lemma datetime_fields_inj (a b : datetime.t) : datetime.fields a = datetime.fields b → a = b.
Proof. destruct a, b. unfold datetime.fields. simpl. intros H. inversion H. reflexivity. Qed.

Lemma datetime_compare_eq (a b : datetime.t) : datetime.compare a b = Eq ↔ a = b.
Proof.
  split.
  - intros H. apply datetime_fields_inj, lex_compare_eq, H.
  - intros ->. apply lex_compare_refl.
Qed.

Lemma datetime_compare_gt (a b : datetime.t) :
  datetime.compare a b = Gt ↔ datetime.compare b a = Lt.
Proof.
  unfold datetime.compare.
  rewrite (lex_compare_antisym (datetime.fields a) (datetime.fields b)).
  destruct (datetime.lex_compare (datetime.fields a) (datetime.fields b)); simpl;
    split; congruence.
Qed.

Lemma key_lt_trans (e1 e2 e3 : Event.t) : key_lt e1 e2 → key_lt e2 e3 → key_lt e1 e3.
Proof.
  intros [H1|[H1 H1']] [H2|[H2 H2']].
  - left. eapply lex_compare_trans; eauto.
  - left. rewrite <- H2. exact H1.
  - left. rewrite H1. exact H2.
  - right. split; [congruence | lia].
Qed.

Lemma key_lt_irrefl (e : Event.t) : ¬ key_lt e e.
Proof.
  intros [H|[_ H]]; [|lia].
  unfold datetime.compare in H. rewrite lex_compare_refl in H. discriminate.
Qed.

(** What [__cmp__] answers, in terms of the order. *)
Lemma cmp_cases (e1 e2 : Event.t) :
  (EventSet.cmp e1 e2 = Some (-1) ∧ key_lt e1 e2) ∨
  (EventSet.cmp e1 e2 = Some 1 ∧ key_lt e2 e1) ∨
  (EventSet.cmp e1 e2 = None ∧ Event.timestamp e1 = Event.timestamp e2 ∧
   Event.seqnum e1 = Event.seqnum e2).
Proof.
  unfold EventSet.cmp, datetime.eqb, datetime.ltb, key_lt.
  destruct (datetime.compare (Event.timestamp e1) (Event.timestamp e2)) eqn:E; simpl.
  - apply datetime_compare_eq in E.
    destruct (Event.seqnum e1 =? Event.seqnum e2) eqn:Es; simpl.
    + apply Z.eqb_eq in Es. auto.
    + apply Z.eqb_neq in Es.
      destruct (Event.seqnum e1 <? Event.seqnum e2) eqn:El.
      * apply Z.ltb_lt in El. auto.
      * apply Z.ltb_ge in El. right; left. split; [reflexivity|]. right. split; [auto|lia].
  - auto.
  - right; left. split; [reflexivity|]. left. apply datetime_compare_gt, E.
Qed.

Lemma lt_events_cases (h : gmap nat Event.t) (x y : nat) (ex ey : Event.t) :
  h !! x = Some ex → h !! y = Some ey → Event.seqnum ex ≠ Event.seqnum ey →
  (EventSet.lt_events h x y = Ok true ∧ precedes h x y) ∨
  (EventSet.lt_events h x y = Ok false ∧ precedes h y x).
Proof.
  intros Hx Hy Hne. unfold EventSet.lt_events, deref. rewrite Hx, Hy. simpl.
  destruct (cmp_cases ex ey) as [[-> Hk]|[[-> Hk]|[_ [_ Heq]]]].
  - left. split; [reflexivity|]. exists ex, ey. auto.
  - right. split; [reflexivity|]. exists ey, ex. auto.
  - contradiction.
Qed.

Lemma precedes_trans (h : gmap nat Event.t) : Transitive (precedes h).
Proof.
  intros x y z (ex & ey & Hx & Hy & H1) (ey' & ez & Hy' & Hz & H2).
  rewrite Hy in Hy'. inversion Hy'; subst.
  exists ex, ez. split; [exact Hx|]. split; [exact Hz|]. eapply key_lt_trans; eauto.
Qed.

(** ** The sort *)

Section sorting.
Context {A : Type} (lt : A → A → result bool) (R : A → A → Prop).
Context (R_trans : Transitive R).

Lemma sort_insert_ok (x : A) (l : list A) :
  (∀ y, y ∈ l →
     (lt y x = Ok true ∧ R y x) ∨ (lt y x = Ok false ∧ R x y)) → StronglySorted R l →
  ∃ s, EventSet.sort_insert lt x l = Ok s ∧ s ≡ₚ x :: l ∧ StronglySorted R s.
Proof.
  induction l as [|y l IH]; intros Hd Hs; simpl.
  - exists [x]. split; [reflexivity|]. split; [reflexivity|].
    repeat constructor.
  - apply StronglySorted_inv in Hs as [Hs Hy].
    destruct (Hd y) as [[-> Hyx]|[-> Hxy]]; [left| |]; simpl.
    + destruct IH as (s & -> & Hp & Hss); [intros; apply Hd; right; done | exact Hs |].
      simpl. exists (y :: s). split; [reflexivity|].
      split; [rewrite Hp; apply perm_swap|].
      constructor; [exact Hss|].
      rewrite Hp. constructor; [exact Hyx | exact Hy].
    + exists (x :: y :: l). split; [reflexivity|]. split; [reflexivity|].
      constructor; [constructor; assumption|].
      constructor; [exact Hxy|].
      eapply Forall_impl; [exact Hy|]. intros z Hz. etransitivity; eauto.
Qed.

Lemma list_sort_ok (l : list A) :
  NoDup l →
  (∀ x y, x ∈ l → y ∈ l → x ≠ y →
     (lt x y = Ok true ∧ R x y) ∨ (lt x y = Ok false ∧ R y x)) →
  ∃ s, EventSet.list_sort lt l = Ok s ∧ s ≡ₚ l ∧ StronglySorted R s.
Proof.
  induction l as [|x l IH]; intros Hnd Hd; simpl.
  - exists []. split; [reflexivity|]. split; [reflexivity | constructor].
  - apply NoDup_cons in Hnd as [Hx Hnd].
    destruct IH as (s & -> & Hp & Hs);
      [exact Hnd | intros; apply Hd; try right; done |].
    simpl.
    destruct (sort_insert_ok x s) as (s' & -> & Hp' & Hs').
    + intros y Hy. rewrite Hp in Hy. apply Hd; [right; exact Hy | left |].
      intros ->. contradiction.
    + exact Hs.
    + exists s'. split; [reflexivity|]. split; [|exact Hs'].
      rewrite Hp'. constructor. exact Hp.
Qed.
End sorting.

(** ** Insertion and chronological sort *)

Lemma setSeqnum_result (n : Z) (ev : Event.t) :
  Event.setSeqnum n ev =
    (Ok tt, Event.sfield_store "_sequence_number" (VStr (Str.of_Z n)) (Event.set_seqnum n ev)).
Proof. reflexivity. Qed.

Lemma on_event_setSeqnum (a : nat) (n : Z) (st : Store) (ev : Event.t) :
  heap st !! a = Some ev →
  on_event a (Event.setSeqnum n) st =
    (Ok tt, set_heap (<[a := Event.sfield_store "_sequence_number" (VStr (Str.of_Z n))
                              (Event.set_seqnum n ev)]> (heap st)) st).
Proof. intros H. unfold on_event. rewrite H. reflexivity. Qed.

Lemma add_event_result (a : nat) (st : Store) (ev : Event.t) (l : list nat) :
  heap st !! a = Some ev →
  events_lists st !! EventType.name (Event.eventType ev) = Some l →
  EventSet.add_event a st =
    (Ok tt,
     mkStore
       (<[a := Event.sfield_store "_sequence_number" (VStr (Str.of_Z (events_curSeqnum st)))
                 (Event.set_seqnum (events_curSeqnum st) ev)]> (heap st))
       (<[EventType.name (Event.eventType ev) := l ++ [a]]> (events_lists st))
       (events_sequence st ++ [a])
       (events_curSeqnum st + 1)).
Proof.
  intros Ha Hl. unfold EventSet.add_event.
  unfold mbind, ST_bind, get at 1. simpl.
  rewrite (on_event_setSeqnum a _ st ev Ha). simpl.
  unfold lift_result, deref. rewrite Ha. simpl.
  rewrite Hl. reflexivity.
Qed.

Lemma sort_lists_step (k : string) (l sorted : list nat) rest (st : Store) :
  EventSet.list_sort (EventSet.lt_events (heap st)) l = Ok sorted →
  EventSet.sort_lists ((k, l) :: rest) st =
    EventSet.sort_lists rest
      (mkStore (heap st) (<[k := sorted]> (events_lists st))
               (events_sequence st ++ sorted) (events_curSeqnum st)).
Proof.
  intros H. simpl. unfold mbind, ST_bind, get, lift_result. simpl.
  rewrite H. reflexivity.
Qed.

(** The comparison of [list.sort] answers on any two distinct events of a
    list whose events exist and have distinct sequence numbers. *)
Lemma lt_events_decides (h : gmap nat Event.t) (l : list nat) :
  (∀ a, a ∈ l → is_Some (h !! a)) →
  (∀ a b ea eb, a ∈ l → b ∈ l → a ≠ b → h !! a = Some ea → h !! b = Some eb →
     Event.seqnum ea ≠ Event.seqnum eb) →
  ∀ x y, x ∈ l → y ∈ l → x ≠ y →
    (EventSet.lt_events h x y = Ok true ∧ precedes h x y) ∨
    (EventSet.lt_events h x y = Ok false ∧ precedes h y x).
Proof.
  intros Hin Hd x y Hx Hy Hne.
  destruct (Hin x Hx) as [ex Hex]. destruct (Hin y Hy) as [ey Hey].
  apply (lt_events_cases h x y ex ey Hex Hey).
  exact (Hd x y ex ey Hx Hy Hne Hex Hey).
Qed.

Lemma sort_lists_ok (todo : list (string * list nat)) :
  ∀ st,
  NoDup (todo.*1) →
  NoDup (concat (todo.*2)) →
  (∀ a, a ∈ concat (todo.*2) → is_Some (heap st !! a)) →
  (∀ a b ea eb, a ∈ concat (todo.*2) → b ∈ concat (todo.*2) → a ≠ b →
     heap st !! a = Some ea → heap st !! b = Some eb →
     Event.seqnum ea ≠ Event.seqnum eb) →
  ∃ st', EventSet.sort_lists todo st = (Ok tt, st') ∧
    heap st' = heap st ∧ events_curSeqnum st' = events_curSeqnum st ∧
    events_sequence st' ≡ₚ events_sequence st ++ concat (todo.*2) ∧
    (∀ k, k ∉ todo.*1 → events_lists st' !! k = events_lists st !! k) ∧
    (∀ k l, (k, l) ∈ todo →
       ∃ l', events_lists st' !! k = Some l' ∧ l' ≡ₚ l ∧
             StronglySorted (precedes (heap st)) l').
Proof.
  induction todo as [|[k l] rest IH]; intros st Hk Hnd Hin Hd.
  - exists st. simpl. rewrite app_nil_r.
    repeat split; auto. intros k l H. inversion H.
  - simpl in Hk, Hnd, Hin, Hd.
    apply NoDup_cons in Hk as [Hk1 Hk2].
    apply NoDup_app in Hnd as (Hnl & Hdisj & Hnrest).
    destruct (list_sort_ok (EventSet.lt_events (heap st)) (precedes (heap st))
                (precedes_trans (heap st)) l Hnl) as (sorted & Hsort & Hperm & Hss).
    { apply lt_events_decides.
      - intros a Ha. apply Hin, elem_of_app. left; exact Ha.
      - intros a b ea eb Ha Hb. apply Hd; apply elem_of_app; left; assumption. }
    rewrite (sort_lists_step k l sorted rest st Hsort).
    set (st1 := mkStore (heap st) (<[k := sorted]> (events_lists st))
                        (events_sequence st ++ sorted) (events_curSeqnum st)).
    destruct (IH st1 Hk2 Hnrest) as (st' & Hrun & Hh & Hc & Hseq & Hother & Hmine).
    { intros a Ha. apply Hin, elem_of_app. right; exact Ha. }
    { intros a b ea eb Ha Hb. apply Hd; apply elem_of_app; right; assumption. }
    exists st'. split; [exact Hrun|]. split; [exact Hh|]. split; [exact Hc|].
    split.
    { rewrite Hseq. simpl. rewrite Hperm, app_assoc. reflexivity. }
    split.
    { intros k' Hk'. apply not_elem_of_cons in Hk' as [Hne Hk'].
      rewrite (Hother k' Hk'). simpl. apply lookup_insert_ne.
      intros E. apply Hne. symmetry. exact E. }
    intros k' l' Hkl. apply elem_of_cons in Hkl as [Heq | Hkl].
    + inversion Heq; subst k' l'.
      exists sorted. split; [|split; [exact Hperm | exact Hss]].
      rewrite (Hother k Hk1). simpl. apply lookup_insert_eq.
    + destruct (Hmine k' l' Hkl) as (l'' & H1 & H2 & H3).
      exists l''. split; [exact H1|]. split; [exact H2 | exact H3].
Qed.

Lemma renumber_ok (l : list nat) :
  ∀ i st, NoDup l → (∀ a, a ∈ l → is_Some (heap st !! a)) →
  ∃ st', EventSet.renumber i l st = (Ok tt, st') ∧
    events_lists st' = events_lists st ∧
    events_sequence st' = events_sequence st ∧
    events_curSeqnum st' = events_curSeqnum st ∧
    (∀ a, a ∉ l → heap st' !! a = heap st !! a) ∧
    (∀ (j : nat) a, l !! j = Some a →
       ∃ ev, heap st !! a = Some ev ∧
             heap st' !! a =
               Some (Event.sfield_store "_sequence_number" (VStr (Str.of_Z (i + Z.of_nat j)))
                       (Event.set_seqnum (i + Z.of_nat j) ev))).
Proof.
  induction l as [|a l IH]; intros i st Hnd Hin.
  - exists st. simpl. repeat split; auto. intros j a H. inversion H.
  - apply NoDup_cons in Hnd as [Ha Hnd].
    destruct (Hin a) as [ev Hev]; [left|].
    simpl. unfold mbind, ST_bind. rewrite (on_event_setSeqnum a i st ev Hev).
    set (ev1 := Event.sfield_store "_sequence_number" (VStr (Str.of_Z i))
                  (Event.set_seqnum i ev)).
    set (st1 := set_heap (<[a := ev1]> (heap st)) st).
    destruct (IH (i + 1) st1 Hnd) as (st' & Hrun & Hl & Hs & Hc & Hout & Hidx).
    { intros b Hb. simpl. destruct (decide (a = b)) as [->|Hne].
      - rewrite lookup_insert_eq. eauto.
      - rewrite lookup_insert_ne by exact Hne. apply Hin. right; exact Hb. }
    exists st'. split; [exact Hrun|].
    split; [rewrite Hl; reflexivity|]. split; [rewrite Hs; reflexivity|].
    split; [rewrite Hc; reflexivity|].
    split.
    { intros b Hb. apply not_elem_of_cons in Hb as [Hne Hb].
      rewrite (Hout b Hb). simpl. apply lookup_insert_ne.
      intros E. apply Hne. symmetry. exact E. }
    intros j b Hj. destruct j as [|j]; simpl in Hj.
    + inversion Hj; subst b. exists ev. split; [exact Hev|].
      rewrite (Hout a Ha). simpl. rewrite lookup_insert_eq.
      replace (i + Z.of_nat 0) with i by lia. reflexivity.
    + destruct (Hidx j b Hj) as (ev' & H1 & H2).
      assert (a ≠ b) as Hne.
      { intros ->. apply Ha. eapply list_elem_of_lookup_2; eauto. }
      simpl in H1. rewrite lookup_insert_ne in H1 by exact Hne.
      exists ev'. split; [exact H1|].
      rewrite H2. replace (i + 1 + Z.of_nat j) with (i + Z.of_nat (S j)) by lia.
      reflexivity.
Qed.

Lemma StronglySorted_lookup_lt {A} (R : A → A → Prop) (l : list A) :
  StronglySorted R l →
  ∀ (i j : nat) x y, l !! i = Some x → l !! j = Some y → (i < j)%nat → R x y.
Proof.
  induction 1 as [|z l Hs IH Hz]; intros i j x y Hi Hj Hlt.
  - inversion Hi.
  - destruct j as [|j]; [lia|]. simpl in Hj.
    destruct i as [|i]; simpl in Hi.
    + inversion Hi; subst. rewrite Forall_forall in Hz.
      apply Hz. eapply list_elem_of_lookup_2; eauto.
    + eapply IH; eauto. lia.
Qed.

Lemma elem_of_concat {A} (x : A) (ls : list (list A)) :
  x ∈ concat ls ↔ ∃ l, x ∈ l ∧ l ∈ ls.
Proof.
  induction ls as [|l0 ls IH]; simpl.
  - split; [intros H; inversion H | intros (l & _ & H); inversion H].
  - rewrite elem_of_app, IH. split.
    + intros [H|(l & H1 & H2)]; [exists l0; split; [exact H | left] |
                                  exists l; split; [exact H1 | right; exact H2]].
    + intros (l & H1 & H2). apply elem_of_cons in H2 as [->|H2]; [left; exact H1|].
      right. exists l. auto.
Qed.

Lemma all_events_lookup (st : Store) (k : string) (l : list nat) (a : nat) :
  events_lists st !! k = Some l → a ∈ l → a ∈ all_events st.
Proof.
  intros Hk Ha. unfold all_events. apply elem_of_concat.
  exists l. split; [exact Ha|].
  apply list_elem_of_fmap. exists (k, l). split; [reflexivity|].
  apply elem_of_map_to_list. exact Hk.
Qed.

Lemma sortEvents_ok (st : Store) :
  sortable st →
  ∃ sorted st',
    EventSet.sortEvents st = (Ok sorted, st') ∧
    events_sequence st' = sorted ∧
    events_curSeqnum st' = events_curSeqnum st ∧
    sorted ≡ₚ all_events st ∧
    StronglySorted (precedes (heap st)) sorted ∧
    (∀ (j : nat) a, sorted !! j = Some a →
       ∃ ev, heap st !! a = Some ev ∧
             heap st' !! a =
               Some (Event.sfield_store "_sequence_number" (VStr (Str.of_Z (Z.of_nat j)))
                       (Event.set_seqnum (Z.of_nat j) ev))) ∧
    (∀ a, a ∉ sorted → heap st' !! a = heap st !! a) ∧
    (∀ k l, events_lists st !! k = Some l →
       ∃ l', events_lists st' !! k = Some l' ∧ l' ≡ₚ l ∧
             StronglySorted (precedes (heap st)) l').
Proof.
  intros (Hnd & Hin & Hd). unfold all_events in *.
  destruct (sort_lists_ok (map_to_list (events_lists st)) (set_sequence [] st))
    as (st1 & Hrun1 & Hh1 & Hc1 & Hseq1 & _ & Hlists1).
  { apply NoDup_fst_map_to_list. }
  { exact Hnd. }
  { exact Hin. }
  { exact Hd. }
  simpl in Hh1, Hc1, Hseq1, Hlists1.
  assert (Hnd1 : NoDup (events_sequence st1)) by (rewrite Hseq1; exact Hnd).
  destruct (list_sort_ok (EventSet.lt_events (heap st1)) (precedes (heap st1))
              (precedes_trans (heap st1)) (events_sequence st1) Hnd1)
    as (sorted & Hsort & Hperm & Hss).
  { apply lt_events_decides; rewrite Hh1.
    - intros a Ha. rewrite Hseq1 in Ha. auto.
    - intros a b ea eb Ha Hb. rewrite Hseq1 in Ha, Hb. exact (Hd a b ea eb Ha Hb). }
  destruct (renumber_ok sorted 0 (set_sequence sorted st1)) as
    (st3 & Hrun3 & Hl3 & Hs3 & Hc3 & Hout3 & Hidx3).
  { rewrite Hperm. exact Hnd1. }
  { intros a Ha. simpl. rewrite Hh1. apply Hin.
    rewrite Hperm, Hseq1 in Ha. exact Ha. }
  exists sorted, st3.
  split.
  { unfold EventSet.sortEvents, mbind, ST_bind, modify, get, lift_result. simpl.
    change (mkStore (heap st) (events_lists st) [] (events_curSeqnum st))
      with (set_sequence [] st).
    rewrite Hrun1, Hsort.
    change (mkStore (heap st1) (events_lists st1) sorted (events_curSeqnum st1))
      with (set_sequence sorted st1).
    rewrite Hrun3. reflexivity. }
  split; [rewrite Hs3; reflexivity|].
  split; [rewrite Hc3; simpl; exact Hc1|].
  split; [rewrite Hperm, Hseq1; reflexivity|].
  split; [rewrite <- Hh1; exact Hss|].
  split.
  { intros j a Hj. destruct (Hidx3 j a Hj) as (ev & H1 & H2).
    simpl in H1. rewrite Hh1 in H1. exists ev. split; [exact H1|].
    rewrite H2. replace (0 + Z.of_nat j) with (Z.of_nat j) by lia. reflexivity. }
  split.
  { intros a Ha. rewrite (Hout3 a Ha). simpl. rewrite Hh1. reflexivity. }
  intros k l Hk.
  destruct (Hlists1 k l) as (l' & H1 & H2 & H3); [apply elem_of_map_to_list; exact Hk|].
  exists l'. rewrite Hl3. simpl. auto.
Qed.

(** C4. Two insertions in a row give the two events the sequence numbers
    [curSeqnum] and [curSeqnum + 1], and append them to the flat list.
    [sortEvents], on a store whose listed events are distinct objects with
    distinct sequence numbers, returns the events ordered by timestamp and
    then by their former sequence number; the event at position [j] of the
    result gets sequence number [j] (so the numbers are 0..N-1) and keeps
    its timestamp and its other fields; two events with equal timestamps
    stay in their former order; every per-type list is sorted the same
    way. *)
Theorem sequence_numbers_insert_and_sort :
  (∀ (st : Store) (a b : nat) (eva evb : Event.t) (la lb : list nat),
     heap st !! a = Some eva → heap st !! b = Some evb → a ≠ b →
     events_lists st !! EventType.name (Event.eventType eva) = Some la →
     events_lists st !! EventType.name (Event.eventType evb) = Some lb →
     ∃ st1 st2 eva' evb',
       EventSet.add_event a st = (Ok tt, st1) ∧
       EventSet.add_event b st1 = (Ok tt, st2) ∧
       heap st2 !! a = Some eva' ∧ heap st2 !! b = Some evb' ∧
       Event.seqnum eva' = events_curSeqnum st ∧
       Event.seqnum evb' = Event.seqnum eva' + 1 ∧
       events_curSeqnum st1 = events_curSeqnum st + 1 ∧
       events_curSeqnum st2 = events_curSeqnum st1 + 1 ∧
       events_sequence st2 = events_sequence st ++ [a; b]) ∧
  (∀ st : Store, sortable st →
     ∃ sorted st',
       EventSet.sortEvents st = (Ok sorted, st') ∧
       events_sequence st' = sorted ∧
       sorted ≡ₚ all_events st ∧
       (∀ (i j : nat) x y, sorted !! i = Some x → sorted !! j = Some y → (i < j)%nat →
          precedes (heap st) x y) ∧
       (∀ (j : nat) x, sorted !! j = Some x →
          ∃ ev ev', heap st !! x = Some ev ∧ heap st' !! x = Some ev' ∧
            Event.seqnum ev' = Z.of_nat j ∧
            Event.sfields ev' !! "_sequence_number" = Some (VStr (Str.of_Z (Z.of_nat j))) ∧
            Event.timestamp ev' = Event.timestamp ev ∧
            Event.ufields ev' = Event.ufields ev) ∧
       (∀ x y ex ey ex' ey',
          x ∈ sorted → y ∈ sorted →
          heap st !! x = Some ex → heap st !! y = Some ey →
          heap st' !! x = Some ex' → heap st' !! y = Some ey' →
          Event.timestamp ex = Event.timestamp ey →
          Event.seqnum ex < Event.seqnum ey →
          Event.seqnum ex' < Event.seqnum ey') ∧
       (∀ k l, events_lists st !! k = Some l →
          ∃ l', events_lists st' !! k = Some l' ∧ l' ≡ₚ l ∧
                StronglySorted (precedes (heap st)) l')).
Proof.
  split.
  - intros st a b eva evb la lb Ha Hb Hne Hla Hlb.
    pose proof (add_event_result a st eva la Ha Hla) as R1.
    set (eva' := Event.sfield_store "_sequence_number"
                   (VStr (Str.of_Z (events_curSeqnum st)))
                   (Event.set_seqnum (events_curSeqnum st) eva)) in *.
    set (st1 := mkStore (<[a := eva']> (heap st))
                  (<[EventType.name (Event.eventType eva) := la ++ [a]]> (events_lists st))
                  (events_sequence st ++ [a]) (events_curSeqnum st + 1)) in *.
    assert (Hb1 : heap st1 !! b = Some evb).
    { simpl. rewrite lookup_insert_ne by exact Hne. exact Hb. }
    assert (∃ lb1, events_lists st1 !! EventType.name (Event.eventType evb) = Some lb1)
      as [lb1 Hlb1].
    { simpl. destruct (decide (EventType.name (Event.eventType eva)
                               = EventType.name (Event.eventType evb))) as [E|E].
      - rewrite E, lookup_insert_eq. eauto.
      - rewrite lookup_insert_ne by exact E. eauto. }
    pose proof (add_event_result b st1 evb lb1 Hb1 Hlb1) as R2.
    eexists st1, _, eva', _.
    split; [exact R1|]. split; [exact R2|].
    split.
    { simpl. rewrite lookup_insert_ne by (intros E; apply Hne; symmetry; exact E).
      apply lookup_insert_eq. }
    split; [simpl; apply lookup_insert_eq|].
    simpl. repeat split; try reflexivity. rewrite <- app_assoc. reflexivity.
  - intros st Hst.
    destruct (sortEvents_ok st Hst) as
      (sorted & st' & Hrun & Hseq & Hcur & Hperm & Hss & Hidx & Hout & Hlists).
    exists sorted, st'.
    split; [exact Hrun|]. split; [exact Hseq|]. split; [exact Hperm|].
    split; [exact (StronglySorted_lookup_lt _ sorted Hss)|].
    split.
    { intros j x Hj. destruct (Hidx j x Hj) as (ev & H1 & H2).
      exists ev, (Event.sfield_store "_sequence_number" (VStr (Str.of_Z (Z.of_nat j)))
                    (Event.set_seqnum (Z.of_nat j) ev)).
      split; [exact H1|]. split; [exact H2|]. simpl.
      split; [reflexivity|]. split; [apply lookup_insert_eq|]. split; reflexivity. }
    split; [|exact Hlists].
    intros x y ex ey ex' ey' Hx Hy Hex Hey Hex' Hey' Hts Hlt.
    apply list_elem_of_lookup_1 in Hx as [i Hi].
    apply list_elem_of_lookup_1 in Hy as [j Hj].
    destruct (Hidx i x Hi) as (ex0 & Hx0 & Hx1).
    destruct (Hidx j y Hj) as (ey0 & Hy0 & Hy1).
    rewrite Hex in Hx0. inversion Hx0; subst ex0.
    rewrite Hey in Hy0. inversion Hy0; subst ey0.
    rewrite Hex' in Hx1. inversion Hx1; subst ex'.
    rewrite Hey' in Hy1. inversion Hy1; subst ey'.
    simpl.
    destruct (Nat.lt_trichotomy i j) as [Hij|[Hij|Hij]]; [lia | |].
    + subst j. rewrite Hi in Hj. inversion Hj; subst y.
      rewrite Hex in Hey. inversion Hey; subst ey. lia.
    + pose proof (StronglySorted_lookup_lt _ sorted Hss j i y x Hj Hi Hij) as Hp.
      destruct Hp as (ey0 & ex0 & Hy0' & Hx0' & Hk).
      rewrite Hey in Hy0'. inversion Hy0'; subst ey0.
      rewrite Hex in Hx0'. inversion Hx0'; subst ex0.
      destruct Hk as [Hk|[_ Hk]]; [|lia].
      rewrite Hts in Hk. unfold datetime.compare in Hk.
      rewrite lex_compare_refl in Hk. discriminate.
Qed.

Lemma unsorted_store_sortable : sortable unsorted_store.
Proof.
  assert (E : all_events unsorted_store = [0%nat; 1%nat; 2%nat])
    by (vm_compute; reflexivity).
  assert (S0 : Event.seqnum <$> heap unsorted_store !! 0%nat = Some 0)
    by (vm_compute; reflexivity).
  assert (S1 : Event.seqnum <$> heap unsorted_store !! 1%nat = Some 1)
    by (vm_compute; reflexivity).
  assert (S2 : Event.seqnum <$> heap unsorted_store !! 2%nat = Some 2)
    by (vm_compute; reflexivity).
  unfold sortable. rewrite E. clear E.
  split; [|split].
  - repeat (apply NoDup_cons; split;
            [intros H; repeat (apply elem_of_cons in H as [H|H]; [discriminate H|]);
             inversion H |]).
    apply NoDup_nil_2.
  - intros a Ha.
    repeat (apply elem_of_cons in Ha as [->|Ha]; [eapply seqnum_is_Some; eassumption|]).
    inversion Ha.
  - intros a b ea eb Ha Hb Hne Hea Heb Heq.
    assert (Hsa : Event.seqnum <$> heap unsorted_store !! a = Some (Event.seqnum ea))
      by (rewrite Hea; reflexivity).
    assert (Hsb : Event.seqnum <$> heap unsorted_store !! b = Some (Event.seqnum eb))
      by (rewrite Heb; reflexivity).
    rewrite Heq in Hsa. clear Hea Heb Heq.
    repeat (apply elem_of_cons in Ha as [->|Ha];
            [repeat (apply elem_of_cons in Hb as [->|Hb];
                     [first [ congruence | rewrite Hsa in *; congruence ] |]);
             inversion Hb |]).
    inversion Ha.
Qed.

Lemma sequence_numbers_insert_and_sort_witness :
  (∃ st1 st2 eva' evb',
     EventSet.add_event 0%nat fresh_store = (Ok tt, st1) ∧
     EventSet.add_event 1%nat st1 = (Ok tt, st2) ∧
     heap st2 !! 0%nat = Some eva' ∧ heap st2 !! 1%nat = Some evb' ∧
     Event.seqnum eva' = 0 ∧ Event.seqnum evb' = Event.seqnum eva' + 1) ∧
  sortable unsorted_store ∧
  (∃ sorted st',
     EventSet.sortEvents unsorted_store = (Ok sorted, st') ∧
     events_sequence st' = sorted ∧ sorted ≡ₚ all_events unsorted_store).
Proof.
  destruct sequence_numbers_insert_and_sort as [Hins Hsort].
  split; [|split; [exact unsorted_store_sortable|]].
  - destruct (Hins fresh_store 0%nat 1%nat (login_at stamp_2024) (login_at stamp_2023) [] [])
      as (st1 & st2 & eva' & evb' & H1 & H2 & H3 & H4 & H5 & H6 & _);
      [reflexivity | reflexivity | lia | reflexivity | reflexivity |].
    exists st1, st2, eva', evb'. auto 10.
  - destruct (Hsort unsorted_store unsorted_store_sortable)
      as (sorted & st' & H1 & H2 & H3 & _).
    exists sorted, st'. auto.
Defined.

Example sortEvents_unsorted :
  let '(r, st') := EventSet.sortEvents unsorted_store in
  r = Ok [1%nat; 0%nat; 2%nat] ∧
  events_sequence unsorted_store = [0%nat; 1%nat; 2%nat] ∧
  events_sequence st' = [1%nat; 0%nat; 2%nat] ∧
  events_lists st' !! "LOGIN" = Some [1%nat; 0%nat; 2%nat] ∧
  (Event.seqnum <$> heap st' !! 1%nat) = Some 0 ∧
  (Event.seqnum <$> heap st' !! 0%nat) = Some 1 ∧
  (Event.seqnum <$> heap st' !! 2%nat) = Some 2 ∧
  (Event.get_field "_sequence_number" <$> heap st' !! 0%nat) = Some (Ok (VStr "1")) ∧
  events_curSeqnum st' = 3.
Proof. vm_compute. auto 10. Qed.

Lemma user_field_shadows_witness :
  let m := mkMatch (0%nat, 4%nat) [("_raw", VStr "fake")] in
  let ev := Event.ufield_store "_flat" (VStr "mine") sample_event in
  (Event.get_field "_flat" ev = Ok (VStr "mine") ∧ Event.has_field "_flat" ev = true) ∧
  (Event.sfields (snd (Event.parseText (Some m) sample_event)) = Event.sfields sample_event ∧
   Event.get_field "_raw" (snd (Event.parseText (Some m) sample_event)) = Ok (VStr "fake") ∧
   Event.has_field "_raw" (snd (Event.parseText (Some m) sample_event)) = true).
Proof.
  intros m ev. split.
  - destruct (user_field_shadows ev m "_flat" (VStr "mine")) as [H _].
    apply H. vm_compute. reflexivity.
  - destruct (user_field_shadows sample_event m "_raw" (VStr "fake")) as [_ H].
    apply H. vm_compute. reflexivity.
Defined.

(** ** Field templating *)

Lemma partition_at (sep : ascii) (a b : string) :
  lacks sep a = true →
  Str.partition sep (a +:+ String sep b) = (a, String sep EmptyString, b).
Proof.
  induction a as [|c a IH]; simpl; intros H.
  - rewrite Ascii.eqb_refl. reflexivity.
  - apply andb_true_iff in H as [Hc Ha]. apply negb_true_iff in Hc.
    rewrite Hc, (IH Ha). reflexivity.
Qed.

Lemma append_assoc (a b c : string) : (a +:+ b) +:+ c = a +:+ (b +:+ c).
Proof.
  induction a as [|x a IH]; [reflexivity|].
  change (String x ((a +:+ b) +:+ c) = String x (a +:+ (b +:+ c))).
  f_equal. exact IH.
Qed.

Lemma substring_prefix (s t : string) :
  String.substring 0 (String.length s) (s +:+ t) = s.
Proof. induction s as [|c s IH]; simpl; [destruct t; reflexivity | rewrite IH; reflexivity]. Qed.

Lemma strip_braces_of (src : string) : strip_braces ("{" +:+ src +:+ "}") = src.
Proof.
  assert (E : String.length (src +:+ "}") = S (String.length src)).
  { induction src as [|c s IH]; simpl; [reflexivity | rewrite IH; reflexivity]. }
  change ("{" +:+ src +:+ "}") with (String "{" (src +:+ "}")).
  unfold strip_braces. cbn [String.length String.substring]. rewrite E.
  replace (S (S (String.length src)) - 2)%nat with (String.length src) by lia.
  apply substring_prefix.
Qed.

(** What the code does for a lookup placeholder whose comparison field is
    missing on the current event: the diagnostic names [field], the field
    that was to be read from the other event. *)
Lemma missing_comparison_field (st : Store) (self : nat) (me : Event.t)
    (field type reffield condfield : string) (l : list nat) :
  heap st !! self = Some me →
  events_lists st !! type = Some l →
  Event.has_field condfield me = false →
  lacks "@" field = true → lacks ":" type = true → lacks "=" reffield = true →
  Str.strip (field +:+ "@" +:+ type +:+ ":" +:+ reffield +:+ "=" +:+ condfield)
    = field +:+ "@" +:+ type +:+ ":" +:+ reffield +:+ "=" +:+ condfield →
  resolve_field st self (lookup_placeholder field type reffield condfield)
    = Ok (VStr ("COMPARISON FIELD '" +:+ field +:+ "' NOT FOUND")).
Proof.
  intros Hme Hty Hno Hf Ht Hr Hstrip.
  unfold resolve_field, lookup_placeholder, deref. rewrite Hme. simpl.
  change (String "{" (field +:+ "@" +:+ type +:+ ":" +:+ reffield +:+ "=" +:+ condfield +:+ "}"))
    with ("{" +:+ (field +:+ "@" +:+ type +:+ ":" +:+ reffield +:+ "=" +:+ condfield +:+ "}")).
  replace (field +:+ "@" +:+ type +:+ ":" +:+ reffield +:+ "=" +:+ condfield +:+ "}")
    with ((field +:+ "@" +:+ type +:+ ":" +:+ reffield +:+ "=" +:+ condfield) +:+ "}").
  2:{ rewrite !append_assoc. reflexivity. }
  rewrite strip_braces_of, Hstrip.
  change (field +:+ "@" +:+ type +:+ ":" +:+ reffield +:+ "=" +:+ condfield)
    with (field +:+ String "@" (type +:+ String ":" (reffield +:+ String "=" condfield))).
  rewrite (partition_at "@" field _ Hf). simpl.
  rewrite (partition_at ":" type _ Ht). rewrite Hty. simpl.
  rewrite (partition_at "=" reffield _ Hr). simpl.
  rewrite Hno. reflexivity.
Qed.

Lemma missing_comparison_field_witness :
  resolve_field two_event_store 1%nat (lookup_placeholder "code" "LOGIN" "user" "account")
    = Ok (VStr "COMPARISON FIELD 'code' NOT FOUND").
Proof.
  apply (missing_comparison_field two_event_store 1%nat second_event
           "code" "LOGIN" "user" "account" [0%nat; 1%nat]);
    vm_compute; reflexivity.
Defined.

(** C6 on the code.  The template ["{code@LOGIN:user=account}"] rendered for
    an event without a field [account], in a store that knows the type
    [LOGIN]: rendering returns, and the diagnostic it substitutes names
    [code], not the comparison field [account]. *)
Theorem comparison_field_diagnostic :
  Event.has_field "account" second_event = false ∧
  heap two_event_store !! 1%nat = Some second_event ∧
  replaceFields two_event_store 1%nat "user: {code@LOGIN:user=account}."
    = Ok "user: COMPARISON FIELD 'code' NOT FOUND." ∧
  replaceFields two_event_store 1%nat "user: {code@LOGIN:user=account}."
    ≠ Ok "user: COMPARISON FIELD 'account' NOT FOUND.".
Proof.
  split; [vm_compute; reflexivity|].
  split; [vm_compute; reflexivity|].
  assert (E : replaceFields two_event_store 1%nat "user: {code@LOGIN:user=account}."
              = Ok "user: COMPARISON FIELD 'code' NOT FOUND.") by (vm_compute; reflexivity).
  split; [exact E|]. rewrite E. discriminate.
Qed.

Example replaceFields_cases :
  replaceFields two_event_store 1%nat "{_name} {nope} {_sequence_number@LOGIN} {x@NOPE}"
    = Ok "LOGIN FIELD 'nope' NOT FOUND 0 EVENT TYPE 'NOPE' NOT FOUND" ∧
  replaceFields two_event_store 0%nat "[{_name@LOGIN}] [{a@LOGIN:b}] [{_display_on_match}]"
    = Ok "[NO MATCHING EVENT] [LOOKUP CONDITION 'b' NOT VALID] [N/A]" ∧
  replaceFields two_event_store 1%nat "{_sequence_number@LOGIN:_name=_name} {zz@LOGIN:_name=_name}"
    = Ok "0 FIELD 'zz' NOT IN FOUND EVENT" ∧
  split_fields "{a{b}c{}d" "" None = ["{a"; "{b}"; "c{}d"].
Proof. vm_compute. auto. Qed.

(** ** The path filter is anchored at the start *)

Lemma length_append (a b : string) :
  String.length (a +:+ b) = (String.length a + String.length b)%nat.
Proof.
  induction a as [|c a IH]; [reflexivity|].
  change (S (String.length (a +:+ b)) = S (String.length a + String.length b)).
  f_equal. exact IH.
Qed.

Section matcher.
Context {R : Type}.
Implicit Types (k : string → gmap string string → option R).

Lemma star_loop_sound (r : regex)
    (body : string → gmap string string →
            (string → gmap string string → option R) → option R) k :
  (∀ s g k' x, body s g k' = Some x →
     ∃ p s' g', s = p +:+ s' ∧ matches r p ∧ k' s' g' = Some x) →
  ∀ n last s g x, star_loop body k n last s g = Some x →
    ∃ p s' g', s = p +:+ s' ∧ matches (Star r) p ∧ k s' g' = Some x.
Proof.
  intros Hbody.
  assert (Hstop : ∀ s g x, k s g = Some x →
            ∃ p s' g', s = p +:+ s' ∧ matches (Star r) p ∧ k s' g' = Some x).
  { intros s g x H. exists EmptyString, s, g.
    split; [reflexivity|]. split; [constructor | exact H]. }
  induction n as [|n IH]; intros last s g x H; cbn [star_loop] in H; [exact (Hstop _ _ _ H)|].
  destruct (bool_decide (last = Some (String.length s))); [exact (Hstop _ _ _ H)|].
  destruct (body s g _) as [y|] eqn:E; [|exact (Hstop _ _ _ H)].
  inversion H; subst y.
  apply Hbody in E as (p1 & s1 & g1 & -> & Hp1 & Hk).
  apply IH in Hk as (p2 & s2 & g2 & -> & Hp2 & Hk).
  exists (p1 +:+ p2), s2, g2.
  split; [symmetry; apply append_assoc|]. split; [constructor; assumption | exact Hk].
Qed.

Lemma rmatch_sound (r : regex) :
  ∀ s g k x, rmatch r s g k = Some x →
    ∃ p s' g', s = p +:+ s' ∧ matches r p ∧ k s' g' = Some x.
Proof.
  induction r as [|p|r1 IH1 r2 IH2|r1 IH1 r2 IH2|r IH|name r IH]; intros s g k x H; simpl in H.
  - exists EmptyString, s, g. split; [reflexivity|]. split; [constructor | exact H].
  - destruct s as [|c s]; [discriminate|].
    destruct (p c) eqn:E; [|discriminate].
    exists (String c EmptyString), s, g.
    split; [reflexivity|]. split; [constructor; exact E | exact H].
  - apply IH1 in H as (p1 & s1 & g1 & -> & Hp1 & H).
    apply IH2 in H as (p2 & s2 & g2 & -> & Hp2 & H).
    exists (p1 +:+ p2), s2, g2.
    split; [symmetry; apply append_assoc|]. split; [constructor; assumption | exact H].
  - destruct (rmatch r1 s g k) as [y|] eqn:E.
    + inversion H; subst y.
      apply IH1 in E as (p1 & s1 & g1 & -> & Hp1 & Hk).
      exists p1, s1, g1. split; [reflexivity|]. split; [apply MAltL; exact Hp1 | exact Hk].
    + apply IH2 in H as (p2 & s2 & g2 & -> & Hp2 & Hk).
      exists p2, s2, g2. split; [reflexivity|]. split; [apply MAltR; exact Hp2 | exact Hk].
  - exact (star_loop_sound r (rmatch r) k (λ s0 g0 k' x0, IH s0 g0 k' x0)
             (S (String.length s)) None s g x H).
  - apply IH in H as (p1 & s1 & g1 & -> & Hp1 & Hk).
    eexists p1, s1, _. split; [reflexivity|]. split; [constructor; exact Hp1 | exact Hk].
Qed.

Lemma star_loop_complete (r : regex)
    (body : string → gmap string string →
            (string → gmap string string → option R) → option R) k :
  (∀ p, matches r p → ∀ s' g k', (∀ g', is_Some (k' s' g')) →
     is_Some (body (p +:+ s') g k')) →
  ∀ p, matches (Star r) p →
  ∀ n last s' g, (String.length (p +:+ s') < n)%nat →
    (p ≠ EmptyString → last ≠ Some (String.length (p +:+ s'))) →
    (∀ g', is_Some (k s' g')) →
    is_Some (star_loop body k n last (p +:+ s') g).
Proof.
  intros Hbody p H. remember (Star r) as rr eqn:Hrr.
  induction H as [| | | | |r0|r0 s1 s2 H1 _ H2 IH2|]; try discriminate;
    inversion Hrr; subst r0; intros n last s' g Hn Hlast Hk.
  - destruct n as [|n]; cbn [star_loop]; [apply Hk|].
    destruct (bool_decide _); [apply Hk|].
    match goal with |- is_Some (match ?b with _ => _ end) => destruct b end;
      [eauto | apply Hk].
  - destruct s1 as [|c s1].
    + apply (IH2 eq_refl); assumption.
    + rewrite append_assoc in Hn, Hlast |- *.
      remember (s2 +:+ s') as t eqn:Ht.
      change (String c s1 +:+ t) with (String c (s1 +:+ t)) in Hn, Hlast |- *.
      destruct n as [|n]; [simpl in Hn; lia|].
      cbn [star_loop].
      rewrite bool_decide_eq_false_2 by (apply Hlast; discriminate).
      match goal with |- is_Some (match ?b with _ => _ end) => destruct b as [y|] eqn:E end;
        [eauto|].
      exfalso.
      match type of E with
      | body _ _ ?k' = None =>
          destruct (Hbody (String c s1) H1 t g k') as [y Hy]
      end.
      { intros g'. subst t. apply (IH2 eq_refl); [| |exact Hk].
        - simpl in Hn. rewrite length_append in Hn. lia.
        - intros _ Heq. injection Heq as Heq. simpl in Heq. rewrite length_append in Heq. lia. }
      pose proof (eq_trans (eq_sym Hy) E) as X. discriminate X.
Qed.

Lemma rmatch_complete (r : regex) :
  ∀ p, matches r p → ∀ s' g k, (∀ g', is_Some (k s' g')) →
    is_Some (rmatch r (p +:+ s') g k).
Proof.
  induction r as [|q|r1 IH1 r2 IH2|r1 IH1 r2 IH2|r IH|name r IH];
    intros p H s' g k Hk; inversion H; subst; simpl.
  - apply Hk.
  - match goal with E : q _ = true |- _ => rewrite E end. apply Hk.
  - rewrite append_assoc. apply IH1; [assumption|].
    intros g'. apply IH2; assumption.
  - destruct (rmatch r1 (p +:+ s') g k) eqn:E; [eauto|].
    destruct (IH1 p ltac:(assumption) s' g k Hk) as [y Hy]. congruence.
  - destruct (rmatch r1 (p +:+ s') g k) eqn:E; [eauto|].
    apply IH2; assumption.
  - match goal with |- is_Some (match ?b with _ => _ end) => destruct b end;
      [eauto | apply Hk].
  - change (is_Some (star_loop (rmatch r) k (S (String.length ((s1 +:+ s2) +:+ s'))) None
                       ((s1 +:+ s2) +:+ s') g)).
    apply (star_loop_complete r (rmatch r) k); [exact IH | exact H | lia | discriminate | exact Hk].
  - apply IH; [assumption|]. intros g'. apply Hk.
Qed.
End matcher.

Lemma fst_groupdict_of (r : regex) (g : gmap string string) :
  (groupdict_of r g).*1 = group_names r.
Proof.
  unfold groupdict_of. induction (group_names r) as [|n l IH]; [reflexivity|].
  simpl. f_equal. exact IH.
Qed.

Lemma re_match_sound (r : regex) (s : string) (m : Match) :
  re_match r s = Some m →
  (groupdict m).*1 = group_names r ∧
  ∃ p rest, s = p +:+ rest ∧ matches r p ∧ span m = (0%nat, String.length p).
Proof.
  intros H. unfold re_match in H.
  apply rmatch_sound in H as (p & s' & g' & -> & Hp & Hk).
  inversion Hk; subst m. simpl. split; [apply fst_groupdict_of|].
  exists p, s'. split; [reflexivity|]. split; [exact Hp|].
  rewrite length_append. f_equal. lia.
Qed.

Lemma re_match_complete (r : regex) (p rest : string) :
  matches r p → is_Some (re_match r (p +:+ rest)).
Proof.
  intros H. unfold re_match. apply rmatch_complete; [exact H|]. intros g'. eauto.
Qed.

(** The compiled form of a syntax tree matches as the tree does. *)
Lemma pattern_match_compile (r : regex) (s : string) :
  pattern_match (compile r) s = re_match r s.
Proof.
  unfold pattern_match, compile. cbn [match_at Str.drop Nat.leb fmap option_fmap option_map].
  destruct (re_match r s) as [m|] eqn:E; [|reflexivity].
  destruct (re_match_sound r s m E) as (_ & p & rest & _ & _ & Hspan).
  destruct m as [[a b] g]. cbn in *. injection Hspan as -> ->. reflexivity.
Qed.

Lemma search_offsets_found (p : Pattern) (s : string) (m : Match) :
  ∀ todo pos, search_offsets p s pos todo = Some m →
    ∃ q r, (pos ≤ q)%nat ∧ match_at p s q = Some r ∧ m = match_object q r.
Proof.
  induction todo as [|todo IH]; intros pos H; cbn [search_offsets] in H;
    destruct (match_at p s pos) as [r|] eqn:E.
  - injection H as <-. exists pos, r. auto.
  - discriminate.
  - injection H as <-. exists pos, r. auto.
  - apply IH in H as (q & r & Hq & Hr & ->). exists q, r. split; [lia | auto].
Qed.

Lemma checkPathFilter_at (rex : Pattern) (path : string) :
  LogSet.checkPathFilter rex path
  = snd <$> match_at rex (Str.replace "\" "/" path) 0.
Proof.
  unfold LogSet.checkPathFilter, pattern_match.
  destruct (match_at rex _ 0) as [[stop fields]|]; reflexivity.
Qed.

(** C7.  Whatever the path filter, [checkPathFilter] tries it at offset 0
    of the path with its backslashes turned into slashes, and nowhere
    else.  It returns the named groups of the match that starts there (an
    empty map when the filter has no group), and nothing when the filter
    does not match there, also when it matches further on in the path,
    where a search finds it.  So the filter [a/b] does not match [xa/b],
    in which a search finds it at offset 1. *)
Theorem path_filter_anchored (rexPathFilter : Pattern) (path : string) :
  let text := Str.replace "\" "/" path in
  (∀ fields, LogSet.checkPathFilter rexPathFilter path = Some fields ↔
     ∃ stop, match_at rexPathFilter text 0 = Some (stop, fields)) ∧
  (LogSet.checkPathFilter rexPathFilter path = None ↔
     match_at rexPathFilter text 0 = None) ∧
  (∀ m, LogSet.checkPathFilter rexPathFilter path = None →
     pattern_search rexPathFilter text = Some m → (0 < (span m).1)%nat) ∧
  LogSet.checkPathFilter (compile ab_filter) "xa/b" = None ∧
  span <$> pattern_search (compile ab_filter) "xa/b" = Some (1%nat, 4%nat) ∧
  LogSet.checkPathFilter (compile ab_filter) "a/b" = Some [] ∧
  LogSet.checkPathFilter (compile ab_filter) "A\B.log" = Some [].
Proof.
  intros text. rewrite checkPathFilter_at. fold text.
  split; [|split; [|split]].
  - intros fields. destruct (match_at rexPathFilter text 0) as [[stop f]|]; cbn.
    + split.
      * intros H. injection H as <-. eauto.
      * intros [stop' H]. injection H as _ <-. reflexivity.
    + split; [discriminate | intros [stop' H]; discriminate].
  - destruct (match_at rexPathFilter text 0) as [[stop f]|]; cbn;
      split; first [discriminate | reflexivity].
  - intros m Hnone Hsearch.
    apply search_offsets_found in Hsearch as (q & r & _ & Hr & ->).
    destruct q as [|q]; [|cbn; lia].
    rewrite Hr in Hnone. discriminate.
  - vm_compute. auto.
Qed.

Lemma path_filter_anchored_witness :
  (∃ stop, match_at (compile dir_filter) "logs/app.log.1" 0
           = Some (stop, [("dir", VStr "logs")])) ∧
  (∀ m, pattern_search (compile ab_filter) "xa/b" = Some m → (0 < (span m).1)%nat).
Proof.
  split.
  - destruct (path_filter_anchored (compile dir_filter) "logs\app.log.1") as (H & _).
    apply H. vm_compute. reflexivity.
  - destruct (path_filter_anchored (compile ab_filter) "xa/b") as (_ & _ & H & _).
    intros m. apply H. vm_compute. reflexivity.
Defined.

Example checkPathFilter_groups :
  LogSet.checkPathFilter (compile dir_filter) "logs\app.log.1" = Some [("dir", VStr "logs")] ∧
  LogSet.checkPathFilter (compile dir_filter) "x/logs/app.log" = None ∧
  LogSet.checkPathFilter
    (compile (Alt (Group "a" (literal "zip")) (Group "b" (literal "tar")))) "TAR.gz"
    = Some [("a", VNone); ("b", VStr "TAR")] ∧
  LogSet.checkPathFilter (compile (Star (Group "a" (Alt (lit_ci "b") Eps)))) "b"
    = Some [("a", VStr "")].
Proof. vm_compute. auto. Qed.

(** X28.  For a path filter built from character classes, sequence,
    alternation, repetition and named groups, [checkPathFilter] accepts a
    path exactly when some prefix of the path, its backslashes turned into
    slashes, is in the language of the filter; what it returns has one
    entry per named group of the filter, in the order of the groups. *)
Theorem syntax_filter_language (r : regex) (path : string) :
  (is_Some (LogSet.checkPathFilter (compile r) path) ↔
     ∃ p rest, Str.replace "\" "/" path = p +:+ rest ∧ matches r p) ∧
  (∀ fields, LogSet.checkPathFilter (compile r) path = Some fields →
     fields.*1 = group_names r).
Proof.
  unfold LogSet.checkPathFilter. rewrite pattern_match_compile. split; [split|].
  - intros [fields H].
    destruct (re_match r (Str.replace "\" "/" path)) as [m|] eqn:E; [|discriminate].
    destruct (re_match_sound _ _ _ E) as (_ & p & rest & Hs & Hp & _).
    exists p, rest. auto.
  - intros (p & rest & Hs & Hp). rewrite Hs.
    destruct (re_match_complete r p rest Hp) as [m ->]. eauto.
  - intros fields H.
    destruct (re_match r (Str.replace "\" "/" path)) as [m|] eqn:E; [|discriminate].
    injection H as <-. apply (re_match_sound _ _ _ E).
Qed.

(** ** The multiline match state machine *)

Lemma bind_ok {S A B} (m : ST S A) (f : A → ST S B) (s s' : S) (a : A) :
  m s = (Ok a, s') → (m ≫= f) s = f a s'.
Proof. intros H. unfold mbind, ST_bind. rewrite H. reflexivity. Qed.

Lemma bind_raise {S A B} (m : ST S A) (f : A → ST S B) (s s' : S) (e : exn) :
  m s = (Raise e, s') → (m ≫= f) s = (Raise e, s').
Proof. intros H. unfold mbind, ST_bind. rewrite H. reflexivity. Qed.

Lemma on_ev_run {A} (a : nat) (m : ST Event.t A) (c : EventSearchContext.t)
    (e e' : Event.t) (r : result A) :
  heap (EventSearchContext.store c) !! a = Some e → m e = (r, e') →
  EventSearchContext.on_ev a m c
    = (r, with_heap (<[a := e']> (heap (EventSearchContext.store c))) c).
Proof.
  intros H Hm. unfold EventSearchContext.on_ev, EventSearchContext.on_store, on_event.
  rewrite H, Hm. reflexivity.
Qed.

Lemma keeps_type_ret {A} (x : A) : keeps_type (mret x).
Proof. intros e. reflexivity. Qed.

Lemma keeps_type_raise {A} (x : exn) : keeps_type (@raise Event.t A x).
Proof. intros e. reflexivity. Qed.

Lemma keeps_type_get : keeps_type get.
Proof. intros e. reflexivity. Qed.

Lemma keeps_type_lift {A} (r : result A) : keeps_type (lift_result r).
Proof. intros e. reflexivity. Qed.

Lemma keeps_type_modify (f : Event.t → Event.t) :
  (∀ e, Event.eventType (f e) = Event.eventType e) → keeps_type (modify f).
Proof. intros H e. apply H. Qed.

Lemma keeps_type_bind {A B} (m : ST Event.t A) (f : A → ST Event.t B) :
  keeps_type m → (∀ a, keeps_type (f a)) → keeps_type (m ≫= f).
Proof.
  intros Hm Hf e. unfold mbind, ST_bind. specialize (Hm e).
  destruct (m e) as [[a|x] e1]; simpl in *; [|exact Hm].
  rewrite (Hf a e1). exact Hm.
Qed.

Lemma keeps_type_add_field (k : string) (v : value) : keeps_type (Event.add_field k v).
Proof.
  apply keeps_type_bind; [apply keeps_type_get|]. intros e.
  destruct (Event.sfields e !! k); [apply keeps_type_raise|].
  destruct (Event.ufields e !! k); [apply keeps_type_raise|].
  apply keeps_type_modify. reflexivity.
Qed.

Lemma keeps_type_add_extra_fields (tsfields : list (string * value)) :
  keeps_type (Event.add_extra_fields tsfields).
Proof.
  induction tsfields as [|[k v] rest IH]; simpl; [apply keeps_type_ret|].
  destruct v as [|s|n]; [exact IH| |];
    (destruct k as [|c0 k]; [apply keeps_type_raise|];
     destruct (Ascii.eqb c0 "_"); [exact IH|];
     apply keeps_type_bind; [apply keeps_type_add_field | intros _; exact IH]).
Qed.

Lemma keeps_type_setTimestamp (ts : option datetime.t) : keeps_type (Event.setTimestamp ts).
Proof.
  unfold Event.setTimestamp.
  repeat (apply keeps_type_bind; [apply keeps_type_modify; reflexivity | intros _]).
  apply keeps_type_modify. reflexivity.
Qed.

Lemma keeps_type_parseTimestamp (now : datetime.t) (alt : option string)
    (st : option datetime.t) : keeps_type (Event.parseTimestamp now alt st).
Proof.
  unfold Event.parseTimestamp.
  apply keeps_type_bind.
  { unfold Event.timestamp_text. apply keeps_type_bind; [apply keeps_type_get|]. intros e.
    destruct alt as [[|c s]|]; try apply keeps_type_ret;
      destruct (Event.sfields e !! "_raw") as [[|raw|n]|];
      first [apply keeps_type_ret | apply keeps_type_raise]. }
  intros text. apply keeps_type_bind; [apply keeps_type_get|]. intros e.
  destruct (EventType.searchTimestamp (Event.eventType e) text) as [ts|];
    [|apply keeps_type_raise].
  unfold Event.apply_timestamp.
  apply keeps_type_bind; [apply keeps_type_lift | intros stamp].
  apply keeps_type_bind; [apply keeps_type_setTimestamp | intros _].
  apply keeps_type_bind; [apply keeps_type_modify; reflexivity | intros _].
  apply keeps_type_add_extra_fields.
Qed.

Lemma parseTimestamp_no_match (now : datetime.t) (c0 : ascii) (s : string)
    (st : option datetime.t) (e : Event.t) :
  EventType.searchTimestamp (Event.eventType e) (String c0 s) = None →
  Event.parseTimestamp now (Some (String c0 s)) st e
    = (Raise (AssertionError "Timestamp regex does not match"), e).
Proof.
  intros H. unfold Event.parseTimestamp, mbind, ST_bind, get. simpl.
  rewrite H. reflexivity.
Qed.

Import EventSearchContext.

Lemma closed_insert (h : gmap nat Event.t) (k : nat) (e : Event.t) (l : list nat) :
  (∀ a, a ∈ l → is_Some (h !! a)) → ∀ a, a ∈ l → is_Some (<[k := e]> h !! a).
Proof.
  intros H a Ha. apply lookup_insert_is_Some.
  destruct (decide (k = a)); [left | right]; auto.
Qed.

Lemma second_last_snoc (l : list nat) (ev : nat) :
  second_last (l ++ [ev]) = head (reverse l).
Proof.
  unfold second_last. rewrite reverse_app. simpl.
  destruct (reverse l); reflexivity.
Qed.

Lemma head_reverse_elem (l : list nat) (p : nat) : head (reverse l) = Some p → p ∈ l.
Proof.
  intros H. apply elem_of_reverse. destruct (reverse l) as [|x r]; [discriminate|].
  inversion H; subst. left.
Qed.

Lemma cmp_seqnum (e1 e2 : Event.t) :
  Event.seqnum e1 ≠ Event.seqnum e2 → is_Some (EventSet.cmp e1 e2).
Proof.
  intros H. unfold EventSet.cmp.
  destruct (negb _); [eauto|].
  destruct (Z.eqb_spec (Event.seqnum e1) (Event.seqnum e2)); [contradiction|].
  cbn. eauto.
Qed.

Lemma contains_snoc (h : gmap nat Event.t) (x : nat) (ex : Event.t) (l : list nat) :
  h !! x = Some ex →
  (∀ a, a ∈ l → a ≠ x → ∃ ea, h !! a = Some ea ∧ Event.seqnum ex ≠ Event.seqnum ea) →
  EventSet.contains h x (l ++ [x]) = Ok true.
Proof.
  intros Hx. induction l as [|y l IH]; intros H; cbn [app EventSet.contains].
  - rewrite Nat.eqb_refl. reflexivity.
  - destruct (Nat.eqb_spec x y) as [|Hne]; [reflexivity|].
    destruct (H y) as (ey & Hy & Hs); [left | congruence |].
    unfold deref. rewrite Hx, Hy. cbn.
    destruct (cmp_seqnum ex ey Hs) as [c ->].
    apply IH. intros a Ha. apply H. right. exact Ha.
Qed.

Lemma on_store_run {A} (m : ST Store A) (c : EventSearchContext.t) (r : result A)
    (st' : Store) :
  m (store c) = (r, st') → on_store m c = (r, set_store st' c).
Proof. intros H. unfold on_store. rewrite H. reflexivity. Qed.

Ltac norm :=
  cbn [with_heap set_store set_heap set_lists set_sequence set_curSeqnum
       set_numProcessedLines set_numFoundEvents set_searchFilePath set_searchFileTime
       set_searchEventTypes set_lines set_unfinishedEvents set_linenum set_eventLinesCount
       store verbosity eventTypes chronological numProcessedLines numFoundEvents
       searchFilePath searchFileTime searchEventTypes lines unfinishedEvents linenum
       eventLinesCount heap events_lists events_sequence events_curSeqnum].

Ltac sfield_solve :=
  cbn [Event.sfields Event.sfield_store Event.set_sfields Event.set_seqnum Event.ufields];
  repeat (rewrite lookup_insert_ne by discriminate);
  rewrite lookup_insert_eq; reflexivity.

Lemma append_nil_r (s : string) : s +:+ "" = s.
Proof.
  induction s as [|a s IH]; [reflexivity|].
  change (String a (s +:+ "") = String a s). f_equal. exact IH.
Qed.

Lemma getMultiline_one (c : EventSearchContext.t) (a : string) (rest : list string) :
  lines c = a :: rest → getMultiline 1 c = a.
Proof.
  intros H. unfold getMultiline. rewrite H.
  change (Z.to_nat 1) with 1%nat. cbn [take getMultiline_from].
  change (EmptyString +:+ EmptyString) with EmptyString. apply append_nil_r.
Qed.

Lemma getMultiline_two (c : EventSearchContext.t) (a b : string) (rest : list string) :
  lines c = a :: b :: rest → getMultiline 2 c = window_of b a.
Proof.
  intros H. unfold getMultiline. rewrite H.
  change (Z.to_nat 2) with 2%nat. cbn [take getMultiline_from].
  change (EmptyString +:+ EmptyString) with EmptyString. rewrite append_nil_r. reflexivity.
Qed.

Lemma numbered_below_insert (st : Store) (l : list nat) (k : nat) (e : Event.t) :
  heap st !! k = None → numbered_below st l →
  numbered_below (set_heap (<[k := e]> (heap st)) st) l.
Proof.
  intros Hk H a Ha. destruct (H a Ha) as (ea & Hea & Hlt).
  exists ea. cbn [set_heap heap events_curSeqnum].
  rewrite lookup_insert_ne by congruence. auto.
Qed.

Section machine.
Variable exec_hook : string → nat → ST Store unit.
Variable now : datetime.t.

Lemma execute_no_hook (ev : nat) (st : Store) (e : Event.t) :
  heap st !! ev = Some e → EventType.execOnMatch (Event.eventType e) = None →
  execute exec_hook ev st = (Ok tt, st).
Proof.
  intros H Hh. unfold execute.
  erewrite bind_ok by reflexivity.
  erewrite bind_ok by (unfold lift_result, deref; rewrite H; reflexivity).
  rewrite Hh. reflexivity.
Qed.

Lemma parseDisplay_run (ev : nat) (prev : option nat) (st : Store) (e : Event.t) :
  heap st !! ev = Some e → EventType.displayOnMatch (Event.eventType e) = None →
  (∀ p, prev = Some p → is_Some (heap st !! p)) →
  ∃ v, parseDisplay ev prev st
       = (Ok tt, set_heap (<[ev := Event.sfield_store "_changed_fields" v e]> (heap st)) st).
Proof.
  intros H Hd Hp. unfold parseDisplay.
  erewrite bind_ok by reflexivity.
  erewrite bind_ok by (unfold lift_result, deref; rewrite H; reflexivity).
  assert (∃ res, (match prev with
                  | None => mret EmptyString
                  | Some p => prev0 ← lift_result (deref (heap st) p);
                              mret (changed_fields e prev0)
                  end : ST Store string) st = (Ok res, st)) as [res Hres].
  { destruct prev as [p|]; [|eexists; reflexivity].
    destruct (Hp p eq_refl) as [pe Hpe].
    eexists. erewrite bind_ok by (unfold lift_result, deref; rewrite Hpe; reflexivity).
    reflexivity. }
  erewrite bind_ok by exact Hres.
  eexists.
  erewrite bind_ok by (unfold on_event; rewrite H; reflexivity).
  rewrite Hd. reflexivity.
Qed.

Lemma storeNewEvent_run (ev : nat) (n : Z) (c : EventSearchContext.t) (e : Event.t)
    (l : list nat) :
  heap (store c) !! ev = Some e →
  EventType.execOnMatch (Event.eventType e) = None →
  EventType.displayOnMatch (Event.eventType e) = None →
  events_lists (store c) !! EventType.name (Event.eventType e) = Some l →
  numbered_below (store c) l →
  ∃ e',
    storeNewEvent exec_hook ev n c =
      (Ok tt,
       set_numFoundEvents (numFoundEvents c + 1)
         (set_store
            (mkStore (<[ev := e']> (heap (store c)))
               (<[EventType.name (Event.eventType e) := l ++ [ev]]> (events_lists (store c)))
               (events_sequence (store c) ++ [ev])
               (events_curSeqnum (store c) + 1)) c)) ∧
    Event.eventType e' = Event.eventType e ∧
    Event.seqnum e' = events_curSeqnum (store c) ∧
    Event.sfields e' !! "_raw" = Some (VStr (getMultiline n c)) ∧
    Event.sfields e' !! "_line_number" = Some (VStr (Str.of_Z (linenum c - (n + 1)))).
Proof.
  intros Hev Hhook Hdisp Hl Hbelow.
  unfold storeNewEvent.
  erewrite bind_ok by reflexivity.
  erewrite bind_ok by (eapply on_ev_run; [exact Hev | reflexivity]).
  set (e1 := Event.sfield_store "_raw" (VStr (getMultiline n c)) e).
  erewrite bind_ok by (eapply on_ev_run; [apply lookup_insert_eq | reflexivity]).
  set (e2 := Event.sfield_store "_line_number" (VStr (Str.of_Z (linenum c - (n + 1)))) e1).
  norm. rewrite insert_insert_eq.
  assert (Hty2 : Event.eventType e2 = Event.eventType e) by reflexivity.
  erewrite bind_ok.
  2:{ eapply on_store_run. norm.
      eapply (add_event_result ev _ e2 l); norm; [apply lookup_insert_eq | rewrite Hty2; exact Hl]. }
  norm. rewrite insert_insert_eq.
  set (e3 := Event.sfield_store "_sequence_number" _ _).
  erewrite bind_ok by reflexivity.
  erewrite bind_ok by reflexivity.
  norm.
  erewrite bind_ok by (unfold lift_result, deref; norm; rewrite lookup_insert_eq; reflexivity).
  norm.
  destruct (EventType.immediate (Event.eventType e3) || negb (chronological c)).
  - erewrite bind_ok.
    2:{ eapply on_store_run. norm.
        eapply (execute_no_hook ev _ e3); norm; [apply lookup_insert_eq | exact Hhook]. }
    erewrite bind_ok by reflexivity.
    norm. change (Event.eventType e3) with (Event.eventType e).
    change (Event.eventType e2) with (Event.eventType e).
    rewrite lookup_insert_eq.
    erewrite bind_ok.
    2:{ unfold lift_result. norm.
        rewrite (contains_snoc _ ev e3 l); [reflexivity | apply lookup_insert_eq |].
        intros a Ha Hne. destruct (Hbelow a Ha) as (ea & Hea & Hlt).
        exists ea. rewrite lookup_insert_ne by congruence.
        split; [exact Hea|]. unfold e3. cbn. lia. }
    rewrite second_last_snoc.
    match goal with
    | |- context [on_store (parseDisplay ev _) ?c'] =>
        destruct (parseDisplay_run ev (head (reverse l)) (store c') e3) as [v Hv];
          [norm; apply lookup_insert_eq | exact Hdisp | |]
    end.
    { intros p Hp. norm. apply head_reverse_elem in Hp.
      destruct (decide (ev = p)) as [->|Hne];
        [rewrite lookup_insert_eq; eauto | rewrite lookup_insert_ne by exact Hne].
      destruct (Hbelow p Hp) as (ep & Hep & _). eauto. }
    exists (Event.sfield_store "_changed_fields" v e3).
    split.
    { erewrite on_store_run by (norm; exact Hv). norm. rewrite insert_insert_eq. reflexivity. }
    split; [reflexivity|]. split; [reflexivity|]. unfold e3, e2, e1. split; sfield_solve.
  - exists e3. split; [reflexivity|]. split; [reflexivity|]. split; [reflexivity|].
    unfold e3, e2, e1. split; sfield_solve.
Qed.


Lemma parseTimestamp_result (line : string) (time : option datetime.t) (e : Event.t) :
  line ≠ EmptyString →
  ∃ r e', Event.parseTimestamp now (Some line) time e = (r, e') ∧
          Event.eventType e' = Event.eventType e ∧
          (r = Ok tt → is_Some (EventType.searchTimestamp (Event.eventType e) line)) ∧
          (EventType.searchTimestamp (Event.eventType e) line = None → ∃ x, r = Raise x ∧ e' = e).
Proof.
  intros Hne. destruct line as [|c0 s]; [contradiction|].
  destruct (Event.parseTimestamp now (Some (String c0 s)) time e) as [r e'] eqn:E.
  exists r, e'. split; [reflexivity|].
  split; [pose proof (keeps_type_parseTimestamp now (Some (String c0 s)) time e) as K;
          rewrite E in K; exact K|].
  destruct (EventType.searchTimestamp (Event.eventType e) (String c0 s)) as [ts|] eqn:Es.
  - split; [eauto | discriminate].
  - rewrite (parseTimestamp_no_match now c0 s time e Es) in E. inversion E; subst.
    split; [discriminate | eauto].
Qed.

Lemma find_timestamp_fail (ev : nat) (ls : list string) :
  ∀ (c : EventSearchContext.t) (e : Event.t) (k : Z),
  Forall (λ x, x ≠ EmptyString ∧ EventType.searchTimestamp (Event.eventType e) x = None) ls →
  heap (store c) !! ev = Some e → eventLinesCount c = Some k →
  find_timestamp now ev ls c
    = (Ok false, set_eventLinesCount (Some 1) (with_heap (<[ev := e]> (heap (store c))) c)).
Proof.
  induction ls as [|x rest IH]; intros c e k Hall Hev Hk.
  - simpl. erewrite bind_ok by reflexivity. norm.
    rewrite (insert_id _ _ _ Hev). destruct c as [[] ]; reflexivity.
  - apply Forall_cons in Hall as [[Hx Hxs] Hall].
    destruct x as [|c0 s]; [contradiction|].
    simpl. erewrite bind_ok by reflexivity.
    unfold try_except.
    erewrite bind_raise
      by (eapply on_ev_run; [exact Hev | apply parseTimestamp_no_match; exact Hxs]).
    unfold read_eventLinesCount.
    erewrite bind_ok.
    2:{ erewrite bind_ok by reflexivity. norm. rewrite Hk. reflexivity. }
    erewrite bind_ok by reflexivity.
    erewrite (IH _ e (k + 1) Hall); norm;
      [rewrite insert_insert_eq; reflexivity | apply lookup_insert_eq | reflexivity].
Qed.


Lemma find_timestamp_head (ev : nat) (line : string) (rest : list string)
    (c : EventSearchContext.t) (e : Event.t) :
  line ≠ EmptyString →
  Forall (λ x, x ≠ EmptyString ∧ EventType.searchTimestamp (Event.eventType e) x = None) rest →
  heap (store c) !! ev = Some e →
  ∃ found e',
    find_timestamp now ev (line :: rest) (set_eventLinesCount (Some 1) c)
      = (Ok found, prepared ev e' c) ∧
    Event.eventType e' = Event.eventType e ∧
    (found = true → is_Some (EventType.searchTimestamp (Event.eventType e) line)).
Proof.
  intros Hne Hrest Hev.
  destruct (parseTimestamp_result line (searchFileTime c) e Hne)
    as (r & e' & Hp & Hty & Hok & _).
  cbn [find_timestamp]. erewrite bind_ok by reflexivity. unfold try_except.
  destruct r as [[]|x].
  - exists true, e'.
    erewrite bind_ok by (eapply on_ev_run; [norm; exact Hev | norm; exact Hp]).
    split; [reflexivity|]. split; [exact Hty | intros _; apply Hok; reflexivity].
  - exists false, e'.
    erewrite bind_raise by (eapply on_ev_run; [norm; exact Hev | norm; exact Hp]).
    unfold read_eventLinesCount.
    erewrite bind_ok by (erewrite bind_ok by reflexivity; reflexivity).
    erewrite bind_ok by reflexivity.
    erewrite (find_timestamp_fail ev rest _ e' 2); norm;
      [ | rewrite Hty; exact Hrest | apply lookup_insert_eq | reflexivity].
    split; [|split; [exact Hty | discriminate]].
    unfold prepared. norm. rewrite insert_insert_eq. reflexivity.
Qed.

Lemma try_parse_run (ev : nat) (text : string) (time : option datetime.t)
    (c : EventSearchContext.t) (e : Event.t) :
  heap (store c) !! ev = Some e →
  ∃ e', try_except (on_ev ev (Event.parseTimestamp now (Some text) time)) (λ _, mret tt) c
          = (Ok tt, with_heap (<[ev := e']> (heap (store c))) c) ∧
        Event.eventType e' = Event.eventType e.
Proof.
  intros Hev.
  destruct (Event.parseTimestamp now (Some text) time e) as [r e'] eqn:E.
  exists e'. split.
  - unfold try_except. rewrite (on_ev_run ev _ c e e' r Hev E).
    destruct r as [[]|x]; reflexivity.
  - pose proof (keeps_type_parseTimestamp now (Some text) time e) as K.
    rewrite E in K. exact K.
Qed.


Variable evt : EventType.t.
Hypothesis Hwin : EventType.multilineCount evt = 2.
Hypothesis Hhook : EventType.execOnMatch evt = None.
Hypothesis Hdisp : EventType.displayOnMatch evt = None.

Lemma fresh_not_in_heap (h : gmap nat Event.t) : h !! fresh (dom h) = None.
Proof. apply not_elem_of_dom. apply is_fresh. Qed.

Lemma match_type_run (line : string) (rest : list string) (c : EventSearchContext.t)
    (l : list nat) :
  unfinishedEvents c !! EventType.name evt = None →
  lines c = line :: rest → line ≠ EmptyString →
  Forall (λ x, x ≠ EmptyString ∧ EventType.searchTimestamp evt x = None) rest →
  events_lists (store c) !! EventType.name evt = Some l →
  numbered_below (store c) l →
  let ev := fresh (dom (heap (store c))) in
  let accepted :=
    match EventType.searchText evt (getMultiline 2 c) with
    | Some m => Str.len (getMultiline 2 c) - Z.of_nat (snd (span m)) <? Str.len line
    | None => false
    end in
  (accepted = false ∧ match_type exec_hook now line true evt c = (Ok [], c)) ∨
  (accepted = true ∧
   ∃ e3 e', Event.eventType e3 = evt ∧ Event.eventType e' = evt ∧
     match_type exec_hook now line true evt c
       = (Ok [ev], stored ev e' (EventType.name evt) l (prepared ev e3 c)) ∧
     Event.seqnum e' = events_curSeqnum (store c) ∧
     Event.sfields e' !! "_raw" = Some (VStr (getMultiline 1 c)) ∧
     Event.sfields e' !! "_line_number" = Some (VStr (Str.of_Z (linenum c - (1 + 1))))) ∨
  (accepted = true ∧ is_Some (EventType.searchTimestamp evt line) ∧
   ∃ e3, Event.eventType e3 = evt ∧
     match_type exec_hook now line true evt c
       = (Ok [], set_unfinishedEvents (<[EventType.name evt := ev]> (unfinishedEvents c))
                   (prepared ev e3 c))).
Proof.
  intros Hunf Hlines Hne Hrest Hl Hbelow ev accepted.
  unfold match_type. erewrite bind_ok by reflexivity.
  rewrite Hunf, Hwin. change (2 =? 1) with false. cbv iota.
  subst accepted.
  destruct (EventType.searchText evt (getMultiline 2 c)) as [m|] eqn:Em;
    [|left; split; reflexivity].
  destruct (Str.len (getMultiline 2 c) - Z.of_nat (snd (span m)) <? Str.len line) eqn:Ea;
    [|left; split; reflexivity].
  right.
  unfold alloc. fold ev.
  erewrite bind_ok by reflexivity.
  erewrite bind_ok
    by (eapply on_ev_run; [norm; apply lookup_insert_eq | apply parseText_ufields]).
  erewrite bind_ok by reflexivity.
  set (e1 := Event.set_ufields _ _).
  rewrite Hlines.
  assert (Hty1 : Event.eventType e1 = evt) by reflexivity.
  match goal with
  | |- context [set_eventLinesCount (Some 1) ?c1] =>
      destruct (find_timestamp_head ev line rest c1 e1 Hne) as (found & e2 & Hf & Hty2 & Hfound);
        [rewrite Hty1; exact Hrest | norm; apply lookup_insert_eq |]
  end.
  rewrite Hty1 in Hty2, Hfound.
  erewrite !bind_ok by exact Hf.
  match goal with
  | |- context [prepared ev e2 ?cc] =>
      replace (prepared ev e2 cc) with (prepared ev e2 c)
        by (unfold prepared; norm; rewrite !insert_insert_eq; reflexivity)
  end.
  destruct found.
  - right. split; [reflexivity|]. split; [apply Hfound; reflexivity|].
    exists e2. split; [exact Hty2|].
    cbn [negb andb orb]. erewrite bind_ok by reflexivity.
    erewrite bind_ok by reflexivity. reflexivity.
  - left. split; [reflexivity|].
    cbn [negb andb orb].
    assert (∃ e3, Event.eventType e3 = evt ∧
              (if 2 <=? verbosity c
               then try_except
                      (on_ev ev (Event.parseTimestamp now (Some (getMultiline 2 c))
                                   (searchFileTime c)))
                      (λ _ : exn, mret ())
               else mret ())
                (prepared ev e2 c) = (Ok tt, prepared ev e3 c)) as (e3 & Hty3 & Hv).
    { destruct (2 <=? verbosity c).
      - destruct (try_parse_run ev (getMultiline 2 c) (searchFileTime c) (prepared ev e2 c) e2)
          as (e3 & H3 & Hty3); [unfold prepared; norm; apply lookup_insert_eq|].
        exists e3. split; [congruence|]. rewrite H3. f_equal.
        unfold prepared. norm. rewrite !insert_insert_eq. reflexivity.
      - exists e2. split; [exact Hty2 | reflexivity]. }
    exists e3.
    destruct (storeNewEvent_run ev 1 (prepared ev e3 c) e3 l)
      as (e' & Hs & Hty' & Hseq & Hraw & Hnum).
    { unfold prepared. norm. apply lookup_insert_eq. }
    { rewrite Hty3. exact Hhook. }
    { rewrite Hty3. exact Hdisp. }
    { rewrite Hty3. exact Hl. }
    { apply (numbered_below_insert (store c) l ev e3); [apply fresh_not_in_heap | exact Hbelow]. }
    exists e'. split; [exact Hty3|]. split; [congruence|].
    rewrite Hty3 in Hs.
    split; [|split; [exact Hseq | split; [exact Hraw | exact Hnum]]].
    erewrite bind_ok by exact Hv.
    erewrite bind_ok
      by (unfold read_eventLinesCount; erewrite bind_ok by reflexivity; reflexivity).
    erewrite bind_ok by exact Hs. reflexivity.
Qed.


Lemma checkLine_line (l : string) (c c2 : EventSearchContext.t) (evs : list nat) :
  unfinishedEvents c = ∅ → searchEventTypes c = [evt] →
  match_type exec_hook now l true evt
    (set_linenum (linenum c + 1) (set_lines (appendleft l (lines c)) c)) = (Ok evs, c2) →
  checkLine exec_hook now (Some l) true c
    = (Ok evs, set_numProcessedLines (numProcessedLines c2 + 1) c2).
Proof.
  intros Hunf Hty Hm. unfold checkLine.
  erewrite bind_ok by reflexivity.
  rewrite Hunf. rewrite bool_decide_eq_true_2 by reflexivity.
  erewrite bind_ok by reflexivity.
  erewrite bind_ok by reflexivity.
  erewrite bind_ok by reflexivity.
  erewrite bind_ok by reflexivity.
  norm. rewrite Hty. cbn [match_types].
  erewrite bind_ok.
  2:{ erewrite bind_ok by exact Hm. erewrite bind_ok by reflexivity. reflexivity. }
  erewrite bind_ok by reflexivity.
  rewrite app_nil_r. reflexivity.
Qed.

Lemma checkLine_end_idle (c : EventSearchContext.t) :
  unfinishedEvents c = ∅ → checkLine exec_hook now None true c = (Ok [], c).
Proof.
  intros Hunf. unfold checkLine.
  erewrite bind_ok by reflexivity.
  rewrite Hunf. rewrite bool_decide_eq_true_2 by reflexivity.
  erewrite bind_ok by reflexivity. reflexivity.
Qed.

Lemma checkLine_end_finish (c : EventSearchContext.t) (ev : nat) (e : Event.t)
    (l : list nat) (n : Z) :
  unfinishedEvents c = <[EventType.name evt := ev]> ∅ →
  eventLinesCount c = Some n →
  heap (store c) !! ev = Some e → Event.eventType e = evt →
  events_lists (store c) !! EventType.name evt = Some l →
  numbered_below (store c) l →
  ∃ e' c',
    checkLine exec_hook now None true c = (Ok [ev], c') ∧
    heap (store c') = <[ev := e']> (heap (store c)) ∧
    unfinishedEvents c' = ∅ ∧
    events_sequence (store c') = events_sequence (store c) ++ [ev] ∧
    Event.sfields e' !! "_raw" = Some (VStr (getMultiline n c)) ∧
    Event.sfields e' !! "_line_number" = Some (VStr (Str.of_Z (linenum c - (n + 1)))).
Proof.
  intros Hunf Hk Hev Hty Hl Hclosed.
  destruct (storeNewEvent_run ev n c e l Hev) as (e' & Hs & Hty' & _ & Hraw & Hnum);
    [rewrite Hty; exact Hhook | rewrite Hty; exact Hdisp | rewrite Hty; exact Hl
    | exact Hclosed |].
  exists e'. eexists.
  split; [|split; [|split; [|split; [|split; [exact Hraw | exact Hnum]]]]].
  - unfold checkLine.
    erewrite bind_ok by reflexivity.
    rewrite Hunf.
    rewrite bool_decide_eq_false_2 by (apply insert_non_empty).
    rewrite insert_empty, map_to_list_singleton.
    erewrite bind_ok.
    2:{ erewrite bind_ok.
        2:{ cbn [finish_events]. erewrite bind_ok by reflexivity.
            erewrite bind_ok by (unfold lift_result, deref; rewrite Hev; reflexivity).
            erewrite bind_ok
              by (unfold read_eventLinesCount; erewrite bind_ok by reflexivity;
                  rewrite Hk; reflexivity).
            erewrite bind_ok by exact Hs.
            erewrite bind_ok by reflexivity.
            erewrite bind_ok by reflexivity. reflexivity. }
        erewrite bind_ok
          by (unfold read_eventLinesCount; erewrite bind_ok by reflexivity;
              norm; rewrite Hk; reflexivity).
        erewrite bind_ok by reflexivity. reflexivity. }
    reflexivity.
  - reflexivity.
  - norm. rewrite Hunf, Hty. rewrite delete_insert_eq. apply delete_empty.
  - reflexivity.
Qed.


Variables line1 line2 : string.
Hypothesis Hne1 : line1 ≠ EmptyString.
Hypothesis Hne2 : line2 ≠ EmptyString.
Hypothesis Hts1 : EventType.searchTimestamp evt line1 = None.

Lemma scan_tail (c : EventSearchContext.t) (l1 : list nat) :
  unfinishedEvents c = ∅ → searchEventTypes c = [evt] →
  lines c = [line1] → linenum c = 1 →
  events_lists (store c) !! EventType.name evt = Some l1 →
  numbered_below (store c) l1 →
  let ev := fresh (dom (heap (store c))) in
  ∃ evs c',
    scan_lines exec_hook now [line2] c = (Ok evs, c') ∧
    (∀ a, a ≠ ev → heap (store c') !! a = heap (store c) !! a) ∧
    (if accepted_on line1 line2 evt
     then evs = [ev] ∧ event_is (heap (store c')) ev line2 "0"
     else evs = []).
Proof.
  intros Hunf Hty Hlines Hnum Hl Hbelow ev.
  set (c2 := set_linenum (linenum c + 1) (set_lines (appendleft line2 (lines c)) c)).
  assert (Hlines2 : lines c2 = [line2; line1]) by (subst c2; norm; rewrite Hlines; reflexivity).
  assert (Hw : getMultiline 2 c2 = window_of line1 line2)
    by (apply (getMultiline_two c2 line2 line1 []); exact Hlines2).
  assert (Hraw2 : getMultiline 1 c2 = line2)
    by (apply (getMultiline_one c2 line2 [line1]); exact Hlines2).
  assert (Hnum2 : Str.of_Z (linenum c2 - (1 + 1)) = "0")
    by (subst c2; norm; rewrite Hnum; reflexivity).
  destruct (match_type_run line2 [line1] c2 l1)
    as [[Hacc Hm]|[(Hacc & e3 & e' & Hty3 & Hty' & Hm & _ & Hraw & Hn)|(Hacc & _ & e3 & Hty3 & Hm)]].
  { subst c2. norm. rewrite Hunf. apply lookup_empty. }
  { exact Hlines2. }
  { exact Hne2. }
  { constructor; [split; [exact Hne1 | exact Hts1] | constructor]. }
  { exact Hl. }
  { exact Hbelow. }
  - rewrite Hw in Hacc. fold (accepted_on line1 line2 evt) in Hacc. rewrite Hacc.
    exists [], (set_numProcessedLines (numProcessedLines c2 + 1) c2).
    split; [|split; [|reflexivity]].
    + cbn [scan_lines].
      pose proof (checkLine_line line2 c c2 [] Hunf Hty Hm) as H1.
      assert (H2 : checkLine exec_hook now None true
                     (set_numProcessedLines (numProcessedLines c2 + 1) c2)
                   = (Ok [], set_numProcessedLines (numProcessedLines c2 + 1) c2)).
      { apply checkLine_end_idle. exact Hunf. }
      rewrite (bind_ok _ _ _ _ _ H1).
      rewrite (bind_ok _ _ _ _ _ H2).
      reflexivity.
    + intros a _. reflexivity.
  - rewrite Hw in Hacc. fold (accepted_on line1 line2 evt) in Hacc. rewrite Hacc.
    match type of Hm with
    | _ = (_, ?c3) => exists [ev], (set_numProcessedLines (numProcessedLines c3 + 1) c3)
    end.
    split; [|split].
    + cbn [scan_lines].
      pose proof (checkLine_line line2 c _ [ev] Hunf Hty Hm) as H1.
      match type of H1 with
      | _ = (_, ?c4) =>
          assert (H2 : checkLine exec_hook now None true c4 = (Ok [], c4))
            by (apply checkLine_end_idle; exact Hunf)
      end.
      rewrite (bind_ok _ _ _ _ _ H1).
      rewrite (bind_ok _ _ _ _ _ H2).
      reflexivity.
    + intros a Ha. unfold stored, prepared. subst c2. norm.
      rewrite !lookup_insert_ne by (intros E; apply Ha; symmetry; exact E). reflexivity.
    + split; [reflexivity|].
      unfold event_is, sfield_at, stored, prepared. subst c2. norm.
      change (fresh (dom (heap (store c)))) with ev.
      rewrite lookup_insert_eq. cbn [fmap option_fmap option_map mbind option_bind].
      rewrite Hraw, Hn, Hraw2, Hnum2. split; reflexivity.
  - rewrite Hw in Hacc. fold (accepted_on line1 line2 evt) in Hacc. rewrite Hacc.
    match type of Hm with
    | _ = (_, ?c3) =>
        destruct (checkLine_end_finish (set_numProcessedLines (numProcessedLines c3 + 1) c3)
                    ev e3 l1 1)
          as (e' & c' & Hend & Hheap & _ & _ & Hraw & Hn)
    end.
    { unfold prepared. subst c2. norm. rewrite Hunf. reflexivity. }
    { reflexivity. }
    { unfold prepared. subst c2. norm. apply lookup_insert_eq. }
    { exact Hty3. }
    { exact Hl. }
    { unfold prepared. subst c2. norm.
      apply (numbered_below_insert (store c) l1 ev e3); [apply fresh_not_in_heap | exact Hbelow]. }
    exists [ev], c'. split; [|split].
    + cbn [scan_lines].
      pose proof (checkLine_line line2 c _ [] Hunf Hty Hm) as H1.
      rewrite (bind_ok _ _ _ _ _ H1).
      rewrite (bind_ok _ _ _ _ _ Hend).
      reflexivity.
    + intros a Ha. rewrite Hheap. unfold prepared. subst c2. norm.
      rewrite !lookup_insert_ne by (intros E; apply Ha; symmetry; exact E). reflexivity.
    + split; [reflexivity|].
      unfold event_is, sfield_at. rewrite Hheap.
      rewrite lookup_insert_eq. cbn [fmap option_fmap option_map mbind option_bind].
      rewrite Hraw, Hn. split.
      * f_equal. f_equal. unfold prepared. norm.
        change (getMultiline 1 (set_numProcessedLines (numProcessedLines c2 + 1) c2))
          with (getMultiline 1 c2). exact Hraw2.
      * unfold prepared. subst c2. norm. rewrite Hnum. reflexivity.
Qed.

Lemma checkSource_match (verbosity : Z) (chronological : bool) (path : string)
    (time : option datetime.t) :
  is_Some (EventType.searchFilename evt path) →
  checkSource path time (init verbosity [evt] chronological)
    = (Ok true,
       set_linenum 0 (set_unfinishedEvents ∅ (set_lines []
         (set_searchEventTypes [evt] (set_searchFileTime time
            (set_searchFilePath path (init verbosity [evt] chronological))))))).
Proof.
  intros Hf. unfold checkSource.
  erewrite bind_ok by reflexivity.
  erewrite bind_ok by reflexivity.
  erewrite bind_ok by reflexivity.
  norm. cbn [init eventTypes].
  rewrite filter_cons_True by exact Hf. rewrite filter_nil.
  erewrite bind_ok by reflexivity.
  erewrite bind_ok by reflexivity.
  erewrite bind_ok by reflexivity.
  erewrite bind_ok by reflexivity.
  reflexivity.
Qed.

Lemma two_line_scan (verbosity : Z) (chronological : bool) (path : string)
    (time : option datetime.t) :
  is_Some (EventType.searchFilename evt path) →
  ∃ c1 evs c',
    checkSource path time (init verbosity [evt] chronological) = (Ok true, c1) ∧
    scan_lines exec_hook now [line1; line2] c1 = (Ok evs, c') ∧
    Forall (λ a, event_is (heap (store c')) a line1 "-1" ∨
                 event_is (heap (store c')) a line2 "0") evs ∧
    (accepted_on line1 line2 evt = true →
       ∃ a, last evs = Some a ∧ event_is (heap (store c')) a line2 "0") ∧
    (accepted_on line1 line2 evt = false →
       Forall (λ a, event_is (heap (store c')) a line1 "-1") evs).
Proof.
  intros Hf. eexists.
  set (c1 := set_linenum 0 (set_unfinishedEvents ∅ (set_lines []
         (set_searchEventTypes [evt] (set_searchFileTime time
            (set_searchFilePath path (init verbosity [evt] chronological))))))).
  set (c1' := set_linenum (linenum c1 + 1) (set_lines (appendleft line1 (lines c1)) c1)).
  assert (Hl0 : events_lists (store c1') !! EventType.name evt = Some []).
  { subst c1' c1. norm. cbn [init store events_lists EventSet.init fmap list_fmap list_to_map foldr].
    apply lookup_insert_eq. }
  assert (Hraw1 : getMultiline 1 c1' = line1).
  { apply (getMultiline_one c1' line1 []). reflexivity. }
  destruct (match_type_run line1 [] c1' [])
    as [[Hacc Hm]|[(Hacc & e3 & e' & Hty3 & Hty' & Hm & Hseq & Hraw & Hn)|(_ & Hsome & _)]].
  { subst c1' c1. norm. apply lookup_empty. }
  { reflexivity. }
  { exact Hne1. }
  { constructor. }
  { exact Hl0. }
  { intros a Ha. inversion Ha. }
  - (* nothing is found on the first line *)
    pose proof (checkLine_line line1 c1 c1' [] eq_refl eq_refl Hm) as H1.
    match type of H1 with
    | _ = (_, ?cA) =>
        destruct (scan_tail cA []) as (evs2 & c' & Hrun & _ & Hres);
          [reflexivity | reflexivity | reflexivity | reflexivity | exact Hl0
          | intros a Ha; inversion Ha |]
    end.
    exists evs2, c'. split; [apply checkSource_match; exact Hf|].
    split.
    { fold c1. cbn [scan_lines]. rewrite (bind_ok _ _ _ _ _ H1).
      change (scan_lines exec_hook now [line2]) with
        (evs ← checkLine exec_hook now (Some line2) true;
         more ← checkLine exec_hook now None true; mret (evs ++ more)) in Hrun.
      rewrite (bind_ok _ _ _ _ _ Hrun). reflexivity. }
    destruct (accepted_on line1 line2 evt).
    + destruct Hres as [-> Hev]. split; [|split; [|discriminate]].
      * constructor; [right; exact Hev | constructor].
      * intros _. eexists. split; [reflexivity | exact Hev].
    + subst evs2. split; [constructor|]. split; [discriminate | constructor].
  - (* an event is stored on the first line *)
    set (ev0 := fresh (dom (heap (store c1')))) in *.
    pose proof (checkLine_line line1 c1 _ [ev0] eq_refl eq_refl Hm) as H1.
    match type of H1 with
    | _ = (_, ?cB) =>
        destruct (scan_tail cB [ev0]) as (evs2 & c' & Hrun & Hframe & Hres);
          [reflexivity | reflexivity | reflexivity | reflexivity
          | unfold stored, prepared; norm; apply lookup_insert_eq
          | intros a Ha; apply list_elem_of_singleton in Ha as ->;
            exists e'; unfold stored, prepared; norm; rewrite lookup_insert_eq;
            split; [reflexivity | rewrite Hseq; lia] |];
        assert (Hev0 : event_is (heap (store c')) ev0 line1 "-1")
    end.
    { unfold event_is, sfield_at. rewrite Hframe.
      - unfold stored, prepared. norm. rewrite lookup_insert_eq.
        cbn [fmap option_fmap option_map mbind option_bind].
        rewrite Hraw, Hn, Hraw1. split; reflexivity.
      - unfold stored, prepared. norm.
        intros E. pose proof (is_fresh (dom (<[ev0:=e']> (<[ev0:=e3]> (heap (store c1')))))) as Hfr.
        rewrite <- E in Hfr. apply Hfr. rewrite dom_insert. set_solver. }
    exists ([ev0] ++ evs2), c'. split; [apply checkSource_match; exact Hf|].
    split.
    { fold c1. cbn [scan_lines]. rewrite (bind_ok _ _ _ _ _ H1).
      change (scan_lines exec_hook now [line2]) with
        (evs ← checkLine exec_hook now (Some line2) true;
         more ← checkLine exec_hook now None true; mret (evs ++ more)) in Hrun.
      rewrite (bind_ok _ _ _ _ _ Hrun). reflexivity. }
    destruct (accepted_on line1 line2 evt).
    + destruct Hres as [-> Hev]. split; [|split; [|discriminate]].
      * constructor; [left; exact Hev0|]. constructor; [right; exact Hev | constructor].
      * intros _. eexists. split; [reflexivity | exact Hev].
    + subst evs2. split; [|split; [discriminate|]].
      * constructor; [left; exact Hev0 | constructor].
      * intros _. constructor; [exact Hev0 | constructor].
  - rewrite Hts1 in Hsome. destruct Hsome as [x Hx]. discriminate.
Qed.
End machine.

(** ** Event fields: reading back what was written *)

Lemma set_field_run (ev : Event.t) (name : string) (v : value) :
  Event.sfields ev !! name = None →
  Event.set_field name v ev = (Ok tt, Event.ufield_store name v ev).
Proof.
  intros H. unfold Event.set_field. erewrite bind_ok by reflexivity.
  rewrite H. reflexivity.
Qed.

Lemma get_field_frame (ev ev' : Event.t) (k : string) :
  Event.ufields ev' !! k = Event.ufields ev !! k →
  Event.sfields ev' = Event.sfields ev →
  Event.timestampSpan ev' = Event.timestampSpan ev →
  k ≠ "_user_fields" →
  Event.get_field k ev' = Event.get_field k ev.
Proof.
  intros Hu Hs Ht Hk. unfold Event.get_field, Event.raw_of, Event.core_of.
  rewrite Hu, Hs, Ht.
  destruct (Event.ufields ev !! k); [reflexivity|].
  destruct (Event.sfields ev !! k); [reflexivity|].
  apply String.eqb_neq in Hk. rewrite Hk. reflexivity.
Qed.

(** X1.  A value written with [set_field] under a name that is no system
    field is read back by [get_field], the event then has the field, the
    system fields are untouched, and every other field reads as before
    (the virtual field [_user_fields], which prints all user fields,
    apart). *)
Theorem set_field_get_field (ev : Event.t) (name : string) (v : value) :
  Event.sfields ev !! name = None →
  ∃ ev', Event.set_field name v ev = (Ok tt, ev') ∧
    Event.get_field name ev' = Ok v ∧
    Event.has_field name ev' = true ∧
    Event.sfields ev' = Event.sfields ev ∧
    ∀ k, k ≠ name → k ≠ "_user_fields" → Event.get_field k ev' = Event.get_field k ev.
Proof.
  intros H. exists (Event.ufield_store name v ev).
  split; [apply set_field_run; exact H|].
  assert (Hu : Event.ufields (Event.ufield_store name v ev) !! name = Some v)
    by apply lookup_insert_eq.
  split; [apply get_field_user; exact Hu|].
  split; [apply (has_field_user _ _ v); exact Hu|].
  split; [reflexivity|].
  intros k Hk Hv. apply get_field_frame; [|reflexivity|reflexivity|exact Hv].
  apply lookup_insert_ne. congruence.
Qed.

Lemma set_field_get_field_witness :
  ∃ ev', Event.set_field "user" (VStr "bob") sample_event = (Ok tt, ev') ∧
    Event.get_field "user" ev' = Ok (VStr "bob") ∧
    Event.has_field "user" ev' = true ∧
    Event.sfields ev' = Event.sfields sample_event ∧
    ∀ k, k ≠ "user" → k ≠ "_user_fields" →
         Event.get_field k ev' = Event.get_field k sample_event.
Proof.
  apply (set_field_get_field sample_event "user" (VStr "bob")).
  vm_compute. reflexivity.
Defined.

Lemma try_set_field (ev : Event.t) (name : string) (v : value) :
  try_except (Event.set_field name v) (λ _, mret tt) ev
  = (Ok tt, match Event.sfields ev !! name with
            | Some _ => ev
            | None => Event.ufield_store name v ev
            end).
Proof.
  unfold try_except, Event.set_field. unfold mbind at 1, ST_bind. cbn [get].
  destruct (Event.sfields ev !! name); reflexivity.
Qed.

Lemma try_add_field (ev : Event.t) (name : string) (v : value) :
  try_except (Event.add_field name v) (λ _, mret tt) ev
  = (Ok tt, match Event.sfields ev !! name, Event.ufields ev !! name with
            | None, None => Event.ufield_store name v ev
            | _, _ => ev
            end).
Proof.
  unfold try_except, Event.add_field. unfold mbind at 1, ST_bind. cbn [get].
  destruct (Event.sfields ev !! name), (Event.ufields ev !! name); reflexivity.
Qed.

(** X2.  [set_fields] never raises and never touches a system field; with
    distinct keys, every entry whose key is no system field is read back by
    [get_field], and the user fields under any other name are as before. *)
Theorem set_fields_result (d : list (string * value)) (ev : Event.t) :
  NoDup d.*1 →
  ∃ ev', Event.set_fields d ev = (Ok tt, ev') ∧
    Event.sfields ev' = Event.sfields ev ∧
    (∀ k v, (k, v) ∈ d → Event.sfields ev !! k = None → Event.get_field k ev' = Ok v) ∧
    (∀ k, k ∉ d.*1 ∨ is_Some (Event.sfields ev !! k) →
          Event.ufields ev' !! k = Event.ufields ev !! k).
Proof.
  revert ev. induction d as [|[k0 v0] d IH]; intros ev Hd.
  - exists ev. split; [reflexivity|]. split; [reflexivity|].
    split; [intros k v Hin; inversion Hin | reflexivity].
  - apply NoDup_cons in Hd as [Hk0 Hd]. cbn [fmap list_fmap fst] in Hk0.
    set (ev1 := match Event.sfields ev !! k0 with
                | Some _ => ev
                | None => Event.ufield_store k0 v0 ev
                end).
    assert (Hs1 : Event.sfields ev1 = Event.sfields ev)
      by (unfold ev1; destruct (Event.sfields ev !! k0); reflexivity).
    destruct (IH ev1 Hd) as (ev' & Hrun & Hs & Hget & Hkeep).
    exists ev'. split; [|split; [congruence|split]].
    + unfold Event.set_fields. cbn [for_each].
      erewrite bind_ok by apply try_set_field. exact Hrun.
    + intros k v Hin Hnone. apply elem_of_cons in Hin as [Heq|Hin].
      * assert (k = k0 ∧ v = v0) as [-> ->] by (split; congruence). apply get_field_user.
        rewrite Hkeep by (left; exact Hk0).
        unfold ev1. rewrite Hnone. apply lookup_insert_eq.
      * apply Hget; [exact Hin | rewrite Hs1; exact Hnone].
    + intros k Hk. rewrite Hkeep.
      * unfold ev1. destruct (Event.sfields ev !! k0) eqn:E0; [reflexivity|].
        apply lookup_insert_ne. intros ->.
        destruct Hk as [Hk|[s Hk]]; [apply Hk; left | congruence].
      * rewrite Hs1. destruct Hk as [Hk|Hk]; [left | right; exact Hk].
        intros Hin. apply Hk. right. exact Hin.
Qed.

Lemma set_fields_result_witness :
  ∃ ev', Event.set_fields [("user", VStr "bob"); ("_name", VStr "x")] sample_event
           = (Ok tt, ev') ∧
    Event.sfields ev' = Event.sfields sample_event ∧
    (∀ k v, (k, v) ∈ [("user", VStr "bob"); ("_name", VStr "x")] →
            Event.sfields sample_event !! k = None → Event.get_field k ev' = Ok v) ∧
    (∀ k, k ∉ [("user", VStr "bob"); ("_name", VStr "x")].*1 ∨
          is_Some (Event.sfields sample_event !! k) →
          Event.ufields ev' !! k = Event.ufields sample_event !! k).
Proof.
  apply (set_fields_result [("user", VStr "bob"); ("_name", VStr "x")] sample_event).
  cbn [fmap list_fmap fst]. apply NoDup_cons. split; [|apply NoDup_singleton].
  intros H. apply list_elem_of_singleton in H. discriminate.
Defined.

(** X3.  [add_fields] never raises, never touches a system field and never
    changes a user field that exists; afterwards every key of the
    dictionary is a field of the event. *)
Theorem add_fields_result (d : list (string * value)) (ev : Event.t) :
  ∃ ev', Event.add_fields d ev = (Ok tt, ev') ∧
    Event.sfields ev' = Event.sfields ev ∧
    (∀ k v, Event.ufields ev !! k = Some v → Event.ufields ev' !! k = Some v) ∧
    (∀ k v, (k, v) ∈ d → Event.has_field k ev' = true).
Proof.
  revert ev. induction d as [|[k0 v0] d IH]; intros ev.
  - exists ev. split; [reflexivity|]. split; [reflexivity|].
    split; [auto | intros k v Hin; inversion Hin].
  - set (ev1 := match Event.sfields ev !! k0, Event.ufields ev !! k0 with
                | None, None => Event.ufield_store k0 v0 ev
                | _, _ => ev
                end).
    assert (Hs1 : Event.sfields ev1 = Event.sfields ev)
      by (unfold ev1; destruct (Event.sfields ev !! k0), (Event.ufields ev !! k0); reflexivity).
    assert (Hu1 : ∀ k v, Event.ufields ev !! k = Some v → Event.ufields ev1 !! k = Some v).
    { intros k v Hk. unfold ev1.
      destruct (Event.sfields ev !! k0), (Event.ufields ev !! k0) eqn:E0; try exact Hk.
      cbn. rewrite lookup_insert_ne; [exact Hk | congruence]. }
    assert (H01 : is_Some (Event.ufields ev1 !! k0) ∨ is_Some (Event.sfields ev1 !! k0)).
    { unfold ev1.
      destruct (Event.sfields ev !! k0) eqn:Es, (Event.ufields ev !! k0) eqn:Eu.
      - left. eauto.
      - right. eauto.
      - left. eauto.
      - left. cbn. rewrite lookup_insert_eq. eauto. }
    destruct (IH ev1) as (ev' & Hrun & Hs & Hold & Hnew).
    exists ev'. split; [|split; [congruence|split]].
    + unfold Event.add_fields. cbn [for_each].
      erewrite bind_ok by apply try_add_field. exact Hrun.
    + intros k v Hk. apply Hold, Hu1, Hk.
    + intros k v Hin. apply elem_of_cons in Hin as [Heq|Hin]; [|eapply Hnew; exact Hin].
      assert (k = k0) as -> by congruence.
      unfold Event.has_field. rewrite Hs.
      destruct H01 as [[u Hu]|H01].
      * rewrite (Hold _ _ Hu). rewrite (bool_decide_eq_true_2 (is_Some (Some u))) by eauto.
        rewrite orb_true_r. reflexivity.
      * rewrite (bool_decide_eq_true_2 _ H01). apply orb_true_r.
Qed.

Lemma get_field_cases (ev : Event.t) (name raw : string) :
  Event.sfields ev !! "_raw" = Some (VStr raw) →
  (Event.has_field name ev = true → ∃ v, Event.get_field name ev = Ok v) ∧
  (Event.has_field name ev = false →
     Event.get_field name ev = Raise (RuntimeError ("Field " +:+ name +:+ " not found"))).
Proof.
  intros Hraw. unfold Event.has_field, Event.get_field, Event.raw_of. rewrite Hraw.
  destruct (Event.ufields ev !! name) as [u|] eqn:Eu.
  { rewrite (bool_decide_eq_true_2 (is_Some (Some u))) by eauto.
    rewrite orb_true_r. split; [eauto | discriminate]. }
  destruct (Event.sfields ev !! name) as [s|] eqn:Es.
  { rewrite (bool_decide_eq_true_2 (is_Some (Some s))) by eauto.
    rewrite orb_true_r. split; [eauto | discriminate]. }
  rewrite !(bool_decide_eq_false_2 (is_Some None)) by (intros [? ?]; discriminate).
  rewrite !orb_false_r. cbn [existsb Event.virtual_names].
  destruct (String.eqb name "_user_fields"); [split; [eauto | discriminate]|].
  destruct (String.eqb name "_system_fields"); [split; [eauto | discriminate]|].
  destruct (String.eqb name "_flat"); [split; [cbn; eauto | discriminate]|].
  destruct (String.eqb name "_core"); [split; [cbn; eauto | discriminate]|].
  destruct (String.eqb name "_flat_core"); [split; [cbn; eauto | discriminate]|].
  split; [discriminate | reflexivity].
Qed.

(** X4.  On an event whose raw text is set, [get_field] returns a value for
    exactly the names [has_field] accepts; for any other name it raises the
    [RuntimeError] that says the field was not found. *)
Theorem has_field_get_field (ev : Event.t) (name raw : string) :
  Event.sfields ev !! "_raw" = Some (VStr raw) →
  (Event.has_field name ev = true → ∃ v, Event.get_field name ev = Ok v) ∧
  (Event.has_field name ev = false →
     Event.get_field name ev = Raise (RuntimeError ("Field " +:+ name +:+ " not found"))).
Proof. apply get_field_cases. Qed.

Lemma has_field_get_field_witness :
  (Event.has_field "_flat" sample_event = true →
     ∃ v, Event.get_field "_flat" sample_event = Ok v) ∧
  (Event.has_field "_flat" sample_event = false →
     Event.get_field "_flat" sample_event
     = Raise (RuntimeError ("Field " +:+ "_flat" +:+ " not found"))).
Proof.
  apply (has_field_get_field sample_event "_flat" "real text").
  vm_compute. reflexivity.
Defined.

(** ** Invariants of the methods of Event *)

Lemma keeps_ret {A} (P : Event.t → Prop) (x : A) : keeps P (mret x).
Proof. intros e H. exact H. Qed.

Lemma keeps_raise {A} (P : Event.t → Prop) (x : exn) : keeps P (@raise Event.t A x).
Proof. intros e H. exact H. Qed.

Lemma keeps_get (P : Event.t → Prop) : keeps P get.
Proof. intros e H. exact H. Qed.

Lemma keeps_lift {A} (P : Event.t → Prop) (r : result A) : keeps P (lift_result r).
Proof. intros e H. exact H. Qed.

Lemma keeps_modify (P : Event.t → Prop) (f : Event.t → Event.t) :
  (∀ e, P e → P (f e)) → keeps P (modify f).
Proof. intros H e He. apply H, He. Qed.

Lemma keeps_bind {A B} (P : Event.t → Prop) (m : ST Event.t A) (f : A → ST Event.t B) :
  keeps P m → (∀ a, keeps P (f a)) → keeps P (m ≫= f).
Proof.
  intros Hm Hf e He. unfold mbind, ST_bind. specialize (Hm e He).
  destruct (m e) as [[a|x] e1]; cbn [snd] in *; [|exact Hm].
  apply Hf, Hm.
Qed.

Lemma keeps_try {A} (P : Event.t → Prop) (body : ST Event.t A)
    (handler : exn → ST Event.t A) :
  keeps P body → (∀ x, keeps P (handler x)) → keeps P (try_except body handler).
Proof.
  intros Hb Hh e He. unfold try_except. specialize (Hb e He).
  destruct (body e) as [[a|x] e1]; cbn [snd] in *; [exact Hb|].
  apply Hh, Hb.
Qed.

Lemma keeps_for_each {A} (P : Event.t → Prop) (l : list A) (body : A → ST Event.t unit) :
  (∀ x, keeps P (body x)) → keeps P (for_each l body).
Proof.
  intros H. induction l as [|x l IH]; cbn [for_each]; [apply keeps_ret|].
  apply keeps_bind; [apply H | intros _; exact IH].
Qed.

Lemma keeps_set_field (P : Event.t → Prop) (k : string) (v : value) :
  (∀ e, P e → P (Event.ufield_store k v e)) → keeps P (Event.set_field k v).
Proof.
  intros H. apply keeps_bind; [apply keeps_get|]. intros e.
  destruct (Event.sfields e !! k); [apply keeps_raise | apply keeps_modify, H].
Qed.

Lemma keeps_add_field (P : Event.t → Prop) (k : string) (v : value) :
  (∀ e, P e → P (Event.ufield_store k v e)) → keeps P (Event.add_field k v).
Proof.
  intros H. apply keeps_bind; [apply keeps_get|]. intros e.
  destruct (Event.sfields e !! k); [apply keeps_raise|].
  destruct (Event.ufields e !! k); [apply keeps_raise | apply keeps_modify, H].
Qed.

Lemma keeps_add_extra_fields (P : Event.t → Prop) (tsfields : list (string * value)) :
  (∀ k v e, P e → P (Event.ufield_store k v e)) →
  keeps P (Event.add_extra_fields tsfields).
Proof.
  intros H. induction tsfields as [|[k v] rest IH]; cbn [Event.add_extra_fields];
    [apply keeps_ret|].
  destruct v as [|s|n]; [exact IH| |];
    (destruct k as [|c0 k]; [apply keeps_raise|];
     destruct (Ascii.eqb c0 "_"); [exact IH|];
     apply keeps_bind; [apply keeps_add_field, H | intros _; exact IH]).
Qed.

Lemma keeps_timestamp_text (P : Event.t → Prop) (alt : option string) :
  keeps P (Event.timestamp_text alt).
Proof.
  unfold Event.timestamp_text. apply keeps_bind; [apply keeps_get|]. intros e.
  destruct alt as [[|c s]|]; try apply keeps_ret;
    destruct (Event.sfields e !! "_raw") as [[|raw|n]|];
    first [apply keeps_ret | apply keeps_raise].
Qed.

Ltac described_solve :=
  cbv [described Event.setSeqnum Event.setTimestamp mbind ST_bind modify snd
       Event.sfield_store Event.ufield_store Event.set_sfields Event.set_ufields
       Event.set_seqnum Event.set_timestamp Event.set_timestampSpan
       Event.sfields Event.timestamp Event.seqnum];
  repeat split;
  repeat (rewrite lookup_insert_ne by discriminate);
  first [assumption | rewrite lookup_insert_eq; reflexivity].

Lemma described_ufield (k : string) (v : value) (e : Event.t) :
  described e → described (Event.ufield_store k v e).
Proof. intros H. exact H. Qed.

Lemma described_sfield (k : string) (v : value) (e : Event.t) :
  k ∉ ["_timestamp"; "_date"; "_time"; "_sequence_number"] →
  described e → described (Event.sfield_store k v e).
Proof.
  intros Hk (H1 & H2 & H3 & H4).
  cbv [described Event.sfield_store Event.set_sfields Event.sfields Event.timestamp Event.seqnum].
  rewrite !lookup_insert_ne by (intros ->; apply Hk; set_solver).
  auto.
Qed.

Lemma described_setSeqnum (n : Z) : keeps described (Event.setSeqnum n).
Proof. intros e (H1 & H2 & H3 & H4). described_solve. Qed.

Lemma described_setTimestamp (ts : option datetime.t) :
  keeps described (Event.setTimestamp ts).
Proof. intros e (H1 & H2 & H3 & H4). described_solve. Qed.

Lemma described_init (evt : EventType.t) (path : string) : described (Event.init evt path).
Proof. unfold Event.init. described_solve. Qed.

Lemma described_parseTimestamp (now : datetime.t) (alt : option string)
    (src : option datetime.t) : keeps described (Event.parseTimestamp now alt src).
Proof.
  unfold Event.parseTimestamp.
  apply keeps_bind; [apply keeps_timestamp_text|]. intros text.
  apply keeps_bind; [apply keeps_get|]. intros e.
  destruct (EventType.searchTimestamp _ _) as [ts|]; [|apply keeps_raise].
  unfold Event.apply_timestamp.
  apply keeps_bind; [apply keeps_lift|]. intros stamp.
  apply keeps_bind; [apply described_setTimestamp|]. intros _.
  apply keeps_bind; [apply keeps_modify; intros e1 H1; exact H1|]. intros _.
  apply keeps_add_extra_fields. intros k v e1 H1. exact H1.
Qed.

Lemma described_run_call (c : call) : keeps described (run_call c).
Proof.
  destruct c; cbn [run_call].
  - apply keeps_set_field. intros e H. exact H.
  - apply keeps_add_field. intros e H. exact H.
  - apply keeps_for_each. intros [k v].
    apply keeps_try; [apply keeps_set_field; intros e H; exact H | intros _; apply keeps_ret].
  - apply keeps_for_each. intros [k v].
    apply keeps_try; [apply keeps_add_field; intros e H; exact H | intros _; apply keeps_ret].
  - apply keeps_modify. intros e. apply described_sfield.
    intros H. repeat (apply elem_of_cons in H as [H|H]; [discriminate|]). inversion H.
  - apply keeps_modify. intros e. apply described_sfield.
    intros H. repeat (apply elem_of_cons in H as [H|H]; [discriminate|]). inversion H.
  - apply described_setSeqnum.
  - apply described_setTimestamp.
  - unfold Event.parseText.
    apply keeps_bind; [apply keeps_get|]. intros e.
    apply keeps_bind.
    { destruct textRexResult; [apply keeps_ret|].
      destruct (Event.sfields e !! "_raw") as [[|raw|n]|];
        first [apply keeps_ret | apply keeps_raise]. }
    intros [m|]; [|apply keeps_raise].
    apply keeps_modify. intros e1 H1. exact H1.
  - apply described_parseTimestamp.
Qed.

(** X5.  Whatever methods are called on an event after its creation, and
    whether they raise or not, the system fields [_timestamp], [_date],
    [_time] and [_sequence_number] are what the attributes [timestamp] and
    [seqnum] print as. *)
Theorem system_fields_describe_attributes (evt : EventType.t) (path : string)
    (calls : list call) :
  described (after_calls calls (Event.init evt path)).
Proof.
  unfold after_calls.
  generalize (described_init evt path). generalize (Event.init evt path).
  induction calls as [|c calls IH]; intros e He; cbn [foldl]; [exact He|].
  apply IH. apply described_run_call. exact He.
Qed.

(** ** Timestamps without a year or without seconds *)

Lemma make_ok (y m d h mi s : Z) (t : datetime.t) :
  datetime.make y m d h mi s = Ok t → t = datetime.mk y m d h mi s 0.
Proof.
  unfold datetime.make. intros H.
  repeat match type of H with
         | (if ?c then _ else _) = _ => destruct c; [discriminate|]
         end.
  congruence.
Qed.

Lemma timestamp_of_defaults (tsfields : list (string * value))
    (src : option datetime.t) (now : datetime.t) (names : gmap ascii string)
    (t : datetime.t) :
  Event.collect_names tsfields ∅ = Ok names →
  Event.timestamp_of tsfields src now = Ok t →
  (names !! "Y"%char = None → datetime.year t = datetime.year (default now src)) ∧
  (names !! "s"%char = None → datetime.second t = 0).
Proof.
  intros Hn H. unfold Event.timestamp_of in H. rewrite Hn in H. cbn [mbind result_bind] in H.
  destruct (negb _); [discriminate|].
  apply result_bind_ok in H as (year & Hy & H).
  apply result_bind_ok in H as (m & _ & H).
  apply result_bind_ok in H as (month & _ & H).
  apply result_bind_ok in H as (second & Hs & H).
  apply result_bind_ok in H as (day & _ & H).
  apply result_bind_ok in H as (hour & _ & H).
  apply result_bind_ok in H as (minute & _ & H).
  apply make_ok in H. subst t. cbn [datetime.year datetime.second].
  split; intros E; rewrite E in *.
  - unfold Event.resolve_year in Hy. destruct src; cbn in *; congruence.
  - congruence.
Qed.

Lemma parseTimestamp_stamp (now : datetime.t) (text : string) (src : option datetime.t)
    (ev ev' : Event.t) (ts : Match) :
  text ≠ EmptyString →
  EventType.searchTimestamp (Event.eventType ev) text = Some ts →
  Event.parseTimestamp now (Some text) src ev = (Ok tt, ev') →
  Event.timestamp_of (groupdict ts) src now = Ok (Event.timestamp ev') ∧
  Event.timestampSpan ev' = span ts.
Proof.
  intros Hne Hts H. unfold Event.parseTimestamp in H.
  assert (Ht : Event.timestamp_text (Some text) ev = (Ok text, ev)).
  { unfold Event.timestamp_text. erewrite bind_ok by reflexivity.
    destruct text; [contradiction | reflexivity]. }
  rewrite (bind_ok _ _ _ _ _ Ht) in H.
  erewrite bind_ok in H by reflexivity. rewrite Hts in H.
  unfold Event.apply_timestamp in H.
  destruct (Event.timestamp_of (groupdict ts) src now) as [stamp|x] eqn:Es;
    [|unfold lift_result in H; cbn in H; discriminate].
  erewrite bind_ok in H by reflexivity.
  erewrite bind_ok in H by reflexivity.
  erewrite bind_ok in H by reflexivity.
  pose proof (keeps_add_extra_fields
    (λ e, Event.timestamp e = stamp ∧ Event.timestampSpan e = span ts) (groupdict ts)) as Hk.
  match type of H with
  | Event.add_extra_fields _ ?e1 = _ =>
      specialize (Hk (λ k v e H, H) e1 (conj eq_refl eq_refl))
  end.
  rewrite H in Hk. cbn [snd] in Hk. destruct Hk as [-> ->]. split; reflexivity.
Qed.

(** X6.  When [parseTimestamp] succeeds on a text whose timestamp match has
    no year component, the year of the event is that of the source file's
    time if one is given and that of the clock otherwise; when the match has
    no seconds component, the seconds are 0. *)
Theorem parseTimestamp_defaults (now : datetime.t) (text : string)
    (src : option datetime.t) (ev ev' : Event.t) (ts : Match)
    (names : gmap ascii string) :
  text ≠ EmptyString →
  EventType.searchTimestamp (Event.eventType ev) text = Some ts →
  Event.collect_names (groupdict ts) ∅ = Ok names →
  Event.parseTimestamp now (Some text) src ev = (Ok tt, ev') →
  (names !! "Y"%char = None →
     datetime.year (Event.timestamp ev') = datetime.year (default now src)) ∧
  (names !! "s"%char = None → datetime.second (Event.timestamp ev') = 0).
Proof.
  intros Hne Hts Hn H.
  destruct (parseTimestamp_stamp now text src ev ev' ts Hne Hts H) as [Hst _].
  exact (timestamp_of_defaults _ _ _ _ _ Hn Hst).
Qed.

Lemma parseTimestamp_defaults_witness :
  let ev := Event.init yearless_type "a.log" in
  let names : gmap ascii string :=
    <["M"%char := "_M"]> (<["D"%char := "_D"]> (<["h"%char := "_h"]>
      (<["m"%char := "_m"]> ∅))) in
  let ev' := snd (Event.parseTimestamp datetime.min (Some "Feb 03 10:20") (Some stamp_2024) ev) in
  (names !! "Y"%char = None →
     datetime.year (Event.timestamp ev') = datetime.year (default datetime.min (Some stamp_2024))) ∧
  (names !! "s"%char = None → datetime.second (Event.timestamp ev') = 0).
Proof.
  intros ev names ev'.
  apply (parseTimestamp_defaults datetime.min "Feb 03 10:20" (Some stamp_2024) ev ev'
           (mkMatch (0%nat, 12%nat)
              [("_M", VStr "Feb"); ("_D", VStr "03"); ("_h", VStr "10"); ("_m", VStr "20")])
           names).
  - discriminate.
  - reflexivity.
  - vm_compute. reflexivity.
  - vm_compute. reflexivity.
Defined.

(** ** Queries: field filters, limits, order of the results *)

Lemma is_matching_fields (h : gmap nat Event.t) (name : option string)
    (fs : list (string * value)) (before : option EventSet.before_arg) (ev : Event.t) :
  EventSet.is_matching h name (Some fs) before ev = Ok true →
  ∀ kf v, (kf, v) ∈ fs → Event.get_field kf ev = Ok v.
Proof.
  intros H kf v Hin. unfold EventSet.is_matching in H.
  assert (Hall : forallb (λ '(kf, v), negb (EventSet.field_mismatch ev kf v)) fs = true).
  { destruct before as [b|].
    - match type of H with
      | (if ?c && ?d then _ else _) = _ => destruct c; [|discriminate]; destruct d; [|discriminate]
      end. reflexivity.
    - injection H as H. apply andb_true_iff in H as [_ H]. exact H. }
  rewrite forallb_forall in Hall. specialize (Hall (kf, v)).
  cbn beta iota in Hall. rewrite <- list_elem_of_In in Hall. specialize (Hall Hin).
  apply negb_true_iff in Hall. unfold EventSet.field_mismatch in Hall.
  apply orb_false_iff in Hall as [Hall Hs]. apply orb_false_iff in Hall as [Hnone Hu].
  unfold Event.get_field.
  destruct (Event.ufields ev !! kf) as [u|].
  - apply negb_false_iff, bool_decide_eq_true in Hu. congruence.
  - destruct (Event.sfields ev !! kf) as [s|].
    + apply negb_false_iff, bool_decide_eq_true in Hs. congruence.
    + cbn in Hnone. discriminate.
Qed.

(** X7.  Every event returned by a query with a [fields] filter has each
    of the requested fields, with the requested value, as [get_field] reads
    it. *)
Theorem get_events_fields_hold (st : Store) (name : option string)
    (fs : list (string * value)) (before : option EventSet.before_arg) (limit : Z)
    (l : list nat) :
  EventSet.get_events st name (Some fs) before limit = Ok l →
  ∀ a, a ∈ l →
    ∃ ev, heap st !! a = Some ev ∧ ∀ kf v, (kf, v) ∈ fs → Event.get_field kf ev = Ok v.
Proof.
  intros H a Ha.
  destruct (get_events_sound _ _ _ _ _ _ H a Ha) as (ev & Hev & Hm).
  exists ev. split; [exact Hev|]. exact (is_matching_fields _ _ _ _ _ Hm).
Qed.

Lemma get_events_fields_hold_witness :
  ∃ ev, heap two_event_store !! 1%nat = Some ev ∧
    ∀ kf v, (kf, v) ∈ [("_name", VStr "LOGIN")] → Event.get_field kf ev = Ok v.
Proof.
  apply (get_events_fields_hold two_event_store None [("_name", VStr "LOGIN")] None 0
           [1%nat; 0%nat]).
  - vm_compute. reflexivity.
  - left.
Defined.

Lemma scan_limit (h : gmap nat Event.t) (name : option string)
    (fields : option (list (string * value))) (before : option EventSet.before_arg)
    (limit : Z) (candidates : list nat) :
  ∀ num num0 l0, 0 ≤ num0 → 0 ≤ num < limit →
  EventSet.scan h name fields before 0 num0 candidates = Ok l0 →
  EventSet.scan h name fields before limit num candidates
  = Ok (take (Z.to_nat (limit - num)) l0).
Proof.
  induction candidates as [|c rest IH]; intros num num0 l0 H0 Hn H; cbn [EventSet.scan] in *.
  - injection H as <-. rewrite take_nil. reflexivity.
  - destruct (deref h c) as [ev|x]; cbn [mbind result_bind] in *; [|discriminate].
    destruct (EventSet.is_matching h name fields before ev) as [[|]|x];
      cbn [mbind result_bind] in *; [| |discriminate].
    + destruct (Z.eqb_spec (num0 + 1) 0) as [E|_]; [lia|].
      apply result_bind_ok in H as (more0 & Hmore & H). injection H as <-.
      destruct (Z.eqb_spec (num + 1) limit) as [E|E].
      * replace (Z.to_nat (limit - num)) with 1%nat by lia. reflexivity.
      * rewrite (IH (num + 1) (num0 + 1) more0) by (lia || exact Hmore).
        cbn [mbind result_bind].
        replace (Z.to_nat (limit - num)) with (S (Z.to_nat (limit - (num + 1)))) by lia.
        reflexivity.
    + apply (IH num num0 l0); assumption.
Qed.

(** X8.  A query with a positive [limit] returns the first [limit] events
    of what the same query returns without a limit. *)
Theorem get_events_limit (st : Store) (name : option string)
    (fields : option (list (string * value))) (before : option EventSet.before_arg)
    (limit : Z) (l0 : list nat) :
  0 < limit →
  EventSet.get_events st name fields before 0 = Ok l0 →
  EventSet.get_events st name fields before limit = Ok (take (Z.to_nat limit) l0).
Proof.
  intros Hl H. unfold EventSet.get_events in *.
  apply result_bind_ok in H as (cands & Hc & H). rewrite Hc. cbn [mbind result_bind].
  rewrite (scan_limit _ _ _ _ limit _ 0 0 l0) by (lia || exact H).
  rewrite Z.sub_0_r. reflexivity.
Qed.

Lemma get_events_limit_witness :
  EventSet.get_events two_event_store (Some "LOGIN") None None 1
  = Ok (take (Z.to_nat 1) [1%nat; 0%nat]).
Proof.
  apply (get_events_limit two_event_store (Some "LOGIN") None None 1 [1%nat; 0%nat]).
  - lia.
  - vm_compute. reflexivity.
Defined.

Lemma scan_sublist (h : gmap nat Event.t) (name : option string)
    (fields : option (list (string * value))) (before : option EventSet.before_arg)
    (limit : Z) (candidates : list nat) :
  ∀ num l, EventSet.scan h name fields before limit num candidates = Ok l →
  l `sublist_of` candidates.
Proof.
  induction candidates as [|c rest IH]; intros num l H; cbn [EventSet.scan] in H.
  - injection H as <-. constructor.
  - apply result_bind_ok in H as (ev & _ & H).
    apply result_bind_ok in H as (m & _ & H).
    destruct m.
    + destruct (num + 1 =? limit).
      * injection H as <-. apply sublist_skip, sublist_nil_l.
      * apply result_bind_ok in H as (more & Hmore & H). injection H as <-.
        apply sublist_skip. eapply IH. exact Hmore.
    + apply sublist_cons. eapply IH. exact H.
Qed.

Lemma get_events_sublist (st : Store) (name : option string)
    (fields : option (list (string * value))) (before : option EventSet.before_arg)
    (limit : Z) (l : list nat) :
  EventSet.get_events st name fields before limit = Ok l →
  l `sublist_of` reverse (candidates_of st name).
Proof.
  intros H. unfold EventSet.get_events in H.
  apply result_bind_ok in H as (cands & Hc & H).
  apply scan_sublist in H.
  replace (candidates_of st name) with cands; [exact H|].
  unfold candidates_of. destruct name as [n|]; [|congruence].
  destruct (events_lists st !! n); cbn; [congruence | discriminate].
Qed.

(** X9.  The events a query returns come in the order of the list it walks,
    newest first: the result is a sublist of the reversed flat list, or of
    the reversed list of the type asked for. *)
Theorem get_events_newest_first (st : Store) (name : option string)
    (fields : option (list (string * value))) (before : option EventSet.before_arg)
    (limit : Z) (l : list nat) :
  EventSet.get_events st name fields before limit = Ok l →
  l `sublist_of` reverse (candidates_of st name).
Proof. apply get_events_sublist. Qed.

Lemma get_events_newest_first_witness :
  [1%nat; 0%nat] `sublist_of` reverse (candidates_of two_event_store None).
Proof.
  apply (get_events_newest_first two_event_store None None None 0).
  vm_compute. reflexivity.
Defined.

(** X10.  An event that [add_event] has just inserted is the one
    [get_event] returns, asked by the name of its type or without a name. *)
Theorem add_event_then_get_event (st st' : Store) (a : nat) (ev : Event.t) :
  heap st !! a = Some ev →
  EventSet.add_event a st = (Ok tt, st') →
  EventSet.get_event st' (Some (EventType.name (Event.eventType ev))) None None
    = Ok (Some a) ∧
  EventSet.get_event st' None None None = Ok (Some a).
Proof.
  intros Ha H.
  destruct (events_lists st !! EventType.name (Event.eventType ev)) as [l|] eqn:El.
  - rewrite (add_event_result a st ev l Ha El) in H. injection H as <-.
    unfold EventSet.get_event, EventSet.get_events.
    cbn [events_lists events_sequence heap].
    rewrite lookup_insert_eq. cbn [mbind result_bind].
    rewrite !reverse_app. cbn [reverse rev_append app EventSet.scan].
    unfold deref. rewrite lookup_insert_eq. cbn [mbind result_bind].
    unfold EventSet.is_matching.
    cbn [Event.eventType Event.sfield_store Event.set_sfields Event.set_seqnum].
    rewrite String.eqb_refl. cbn. split; reflexivity.
  - exfalso. unfold EventSet.add_event in H.
    unfold mbind, ST_bind, get at 1 in H. cbn in H.
    rewrite (on_event_setSeqnum a _ st ev Ha) in H. cbn in H.
    unfold lift_result, deref in H. rewrite Ha in H. cbn in H.
    rewrite El in H. discriminate.
Qed.

Lemma add_event_then_get_event_witness :
  EventSet.get_event one_event_store (Some "LOGIN") None None = Ok (Some 0%nat) ∧
  EventSet.get_event one_event_store None None None = Ok (Some 0%nat).
Proof.
  apply (add_event_then_get_event
           (EventSet.init {[0%nat := snd (Event.setTimestamp (Some stamp_2024) sample_event)]}
              ["LOGIN"])
           one_event_store 0%nat
           (snd (Event.setTimestamp (Some stamp_2024) sample_event))).
  - reflexivity.
  - vm_compute. reflexivity.
Defined.

(** ** The state of the event set: insertion and deletion *)

Lemma contains_found (h : gmap nat Event.t) (x : nat) (ex : Event.t) (l : list nat) :
  h !! x = Some ex → x ∈ l →
  (∀ a, a ∈ l → a ≠ x → ∃ ea, h !! a = Some ea ∧ Event.seqnum ex ≠ Event.seqnum ea) →
  EventSet.contains h x l = Ok true.
Proof.
  intros Hx. induction l as [|y l IH]; intros Hin H; [inversion Hin|].
  cbn [EventSet.contains].
  destruct (Nat.eqb_spec x y) as [|Hne]; [reflexivity|].
  destruct (H y) as (ey & Hy & Hs); [left | congruence |].
  unfold deref. rewrite Hx, Hy. cbn.
  destruct (cmp_seqnum ex ey Hs) as [c ->].
  apply IH.
  - apply elem_of_cons in Hin as [->|Hin]; [contradiction | exact Hin].
  - intros a Ha. apply H. right. exact Ha.
Qed.

Lemma contains_absent (h : gmap nat Event.t) (x : nat) (ex : Event.t) (l : list nat) :
  h !! x = Some ex → x ∉ l →
  (∀ a, a ∈ l → ∃ ea, h !! a = Some ea ∧ Event.seqnum ex ≠ Event.seqnum ea) →
  EventSet.contains h x l = Ok false.
Proof.
  intros Hx. induction l as [|y l IH]; intros Hin H; [reflexivity|].
  cbn [EventSet.contains].
  destruct (Nat.eqb_spec x y) as [->|Hne]; [exfalso; apply Hin; left|].
  destruct (H y) as (ey & Hy & Hs); [left|].
  unfold deref. rewrite Hx, Hy. cbn.
  destruct (cmp_seqnum ex ey Hs) as [c ->].
  apply IH.
  - intros Hx'. apply Hin. right. exact Hx'.
  - intros a Ha. apply H. right. exact Ha.
Qed.

Lemma remove_first_elem (x : nat) (l : list nat) (a : nat) :
  NoDup l → a ∈ EventSet.remove_first x l ↔ a ∈ l ∧ a ≠ x.
Proof.
  induction l as [|y l IH]; intros Hd; cbn [EventSet.remove_first].
  - split; [intros H; inversion H | intros [H _]; inversion H].
  - apply NoDup_cons in Hd as [Hy Hd].
    destruct (Nat.eqb_spec x y) as [->|Hne].
    + split.
      * intros Ha. split; [right; exact Ha | intros ->; contradiction].
      * intros [Ha Hn]. apply elem_of_cons in Ha as [->|Ha]; [contradiction | exact Ha].
    + rewrite !elem_of_cons, (IH Hd). split.
      * intros [->|[Ha Hn]]; [split; [left; reflexivity | congruence] | split; [right|]; assumption].
      * intros [[->|Ha] Hn]; [left; reflexivity | right; split; assumption].
Qed.

Lemma remove_first_NoDup (x : nat) (l : list nat) :
  NoDup l → NoDup (EventSet.remove_first x l).
Proof.
  induction l as [|y l IH]; intros Hd; cbn [EventSet.remove_first]; [exact Hd|].
  pose proof Hd as Hd0. apply NoDup_cons in Hd as [Hy Hd].
  destruct (Nat.eqb_spec x y); [exact Hd|].
  apply NoDup_cons. split; [|apply IH, Hd].
  intros Hin. apply (remove_first_elem x l y Hd) in Hin as [Hin _]. contradiction.
Qed.

Lemma remove_first_absent (x : nat) (l : list nat) :
  x ∉ l → EventSet.remove_first x l = l.
Proof.
  induction l as [|y l IH]; intros Hx; cbn [EventSet.remove_first]; [reflexivity|].
  destruct (Nat.eqb_spec x y) as [->|Hne]; [exfalso; apply Hx; left|].
  f_equal. apply IH. intros H. apply Hx. right. exact H.
Qed.

Lemma delete_event_listed (st : Store) (a : nat) (e : Event.t) (l : list nat) :
  well_formed st → a ∈ events_sequence st → heap st !! a = Some e →
  events_lists st !! EventType.name (Event.eventType e) = Some l →
  EventSet.delete_event a st
  = (Ok tt, mkStore (heap st)
              (<[EventType.name (Event.eventType e) := EventSet.remove_first a l]>
                 (events_lists st))
              (EventSet.remove_first a (events_sequence st)) (events_curSeqnum st)).
Proof.
  intros (Hnd & Hbelow & Hdist & Hin & Hlists) Ha He Hl.
  destruct (Hin a e Ha He) as (l' & Hl' & Hal). rewrite Hl in Hl'. injection Hl' as <-.
  destruct (Hlists _ _ Hl) as [Hndl Hl_in].
  unfold EventSet.delete_event.
  erewrite bind_ok by reflexivity.
  erewrite bind_ok.
  2:{ unfold lift_result. rewrite (contains_found _ a e); [reflexivity | exact He | exact Ha |].
      intros b Hb Hne. destruct (Hbelow b Hb) as (eb & Heb & _).
      exists eb. split; [exact Heb|]. exact (Hdist a b e eb Ha Hb (not_eq_sym Hne) He Heb). }
  erewrite bind_ok by reflexivity.
  erewrite bind_ok by (unfold lift_result, deref; rewrite He; reflexivity).
  rewrite Hl.
  erewrite bind_ok.
  2:{ unfold lift_result. rewrite (contains_found _ a e); [reflexivity | exact He | exact Hal |].
      intros b Hb Hne. destruct (Hl_in b Hb) as (Hbs & eb & Heb & _).
      exists eb. split; [exact Heb|]. exact (Hdist a b e eb Ha Hbs (not_eq_sym Hne) He Heb). }
  reflexivity.
Qed.

Lemma delete_event_unlisted (st : Store) (a : nat) (e : Event.t) :
  well_formed st → unlisted st a → heap st !! a = Some e →
  is_Some (events_lists st !! EventType.name (Event.eventType e)) →
  (∀ b eb, b ∈ events_sequence st → heap st !! b = Some eb →
     Event.seqnum e ≠ Event.seqnum eb) →
  EventSet.delete_event a st = (Ok tt, st).
Proof.
  intros (Hnd & Hbelow & Hdist & Hin & Hlists) [Hseq Hun] He [l Hl] Hother.
  destruct (Hlists _ _ Hl) as [Hndl Hl_in].
  unfold EventSet.delete_event.
  erewrite bind_ok by reflexivity.
  erewrite bind_ok.
  2:{ unfold lift_result. rewrite (contains_absent _ a e); [reflexivity | exact He | exact Hseq |].
      intros b Hb. destruct (Hbelow b Hb) as (eb & Heb & _).
      exists eb. split; [exact Heb|]. exact (Hother b eb Hb Heb). }
  erewrite bind_ok by reflexivity.
  erewrite bind_ok by (unfold lift_result, deref; rewrite He; reflexivity).
  rewrite Hl.
  erewrite bind_ok.
  2:{ unfold lift_result.
      rewrite (contains_absent _ a e); [reflexivity | exact He | exact (Hun _ _ Hl) |].
      intros b Hb. destruct (Hl_in b Hb) as (Hbs & eb & Heb & _).
      exists eb. split; [exact Heb|]. exact (Hother b eb Hbs Heb). }
  destruct st. reflexivity.
Qed.

Lemma well_formed_delete (st : Store) (a : nat) (e : Event.t) (l : list nat) :
  well_formed st → a ∈ events_sequence st → heap st !! a = Some e →
  events_lists st !! EventType.name (Event.eventType e) = Some l →
  let st' := mkStore (heap st)
               (<[EventType.name (Event.eventType e) := EventSet.remove_first a l]>
                  (events_lists st))
               (EventSet.remove_first a (events_sequence st)) (events_curSeqnum st) in
  well_formed st' ∧ unlisted st' a.
Proof.
  intros (Hnd & Hbelow & Hdist & Hin & Hlists) Ha He Hl st'.
  destruct (Hlists _ _ Hl) as [Hndl Hl_in].
  assert (Hsub : ∀ b, b ∈ events_sequence st' → b ∈ events_sequence st ∧ b ≠ a)
    by (intros b Hb; apply (remove_first_elem a _ b Hnd); exact Hb).
  split.
  - unfold well_formed. split; [apply remove_first_NoDup, Hnd|].
    split; [intros b Hb; apply Hbelow, Hsub, Hb|].
    split.
    { intros b c eb ec Hb Hc. apply Hdist; apply Hsub; assumption. }
    split.
    { intros b eb Hb Heb. destruct (Hsub b Hb) as [Hbs Hbne].
      destruct (Hin b eb Hbs Heb) as (lb & Hlb & Hbl).
      cbn [st' events_lists heap] in *.
      destruct (decide (EventType.name (Event.eventType e)
                        = EventType.name (Event.eventType eb))) as [E|E].
      - rewrite <- E, lookup_insert_eq. eexists. split; [reflexivity|].
        rewrite <- E, Hl in Hlb. injection Hlb as <-.
        apply (remove_first_elem a l b Hndl). split; assumption.
      - rewrite lookup_insert_ne by exact E. eauto. }
    intros k lk Hk. cbn [st' events_lists heap events_sequence] in *.
    destruct (decide (EventType.name (Event.eventType e) = k)) as [<-|E].
    + rewrite lookup_insert_eq in Hk. injection Hk as <-.
      split; [apply remove_first_NoDup, Hndl|].
      intros b Hb. apply (remove_first_elem a l b Hndl) in Hb as [Hb Hbne].
      destruct (Hl_in b Hb) as [Hbs Hbe]. split; [|exact Hbe].
      apply (remove_first_elem a _ b Hnd). split; assumption.
    + rewrite lookup_insert_ne in Hk by exact E.
      destruct (Hlists _ _ Hk) as [Hndk Hk_in]. split; [exact Hndk|].
      intros b Hb. destruct (Hk_in b Hb) as (Hbs & eb & Heb & Hname). split; [|eauto].
      apply (remove_first_elem a _ b Hnd). split; [exact Hbs|].
      intros ->. rewrite He in Heb. injection Heb as <-. contradiction.
  - split.
    + intros H. apply Hsub in H as [_ H]. contradiction.
    + intros k lk Hk H. cbn [st' events_lists] in Hk.
      destruct (decide (EventType.name (Event.eventType e) = k)) as [<-|E].
      * rewrite lookup_insert_eq in Hk. injection Hk as <-.
        apply (remove_first_elem a l a Hndl) in H as [_ H]. contradiction.
      * rewrite lookup_insert_ne in Hk by exact E.
        destruct (Hlists _ _ Hk) as [_ Hk_in].
        destruct (Hk_in a H) as (_ & ea & Hea & Hname).
        rewrite He in Hea. injection Hea as <-. contradiction.
Qed.

Lemma get_events_from (st : Store) (name : option string)
    (fields : option (list (string * value))) (before : option EventSet.before_arg)
    (limit : Z) (l : list nat) (a : nat) :
  EventSet.get_events st name fields before limit = Ok l → a ∈ l →
  a ∈ candidates_of st name.
Proof.
  intros H Ha. apply get_events_sublist in H.
  apply elem_of_reverse. eapply elem_of_sublist; eassumption.
Qed.

(** X11.  In a well-formed set, deleting a listed event succeeds, leaves a
    well-formed set in which the event is in no list, keeps every other
    event of the flat list and the objects themselves, and no later query
    returns the deleted event. *)
Theorem delete_event_removes (st : Store) (a : nat) :
  well_formed st → a ∈ events_sequence st →
  ∃ st', EventSet.delete_event a st = (Ok tt, st') ∧
    well_formed st' ∧ unlisted st' a ∧ heap st' = heap st ∧
    (∀ b, b ≠ a → b ∈ events_sequence st → b ∈ events_sequence st') ∧
    ∀ name fields before limit l,
      EventSet.get_events st' name fields before limit = Ok l → a ∉ l.
Proof.
  intros Hwf Ha.
  pose proof Hwf as (Hnd & Hbelow & _ & Hin & _).
  destruct (Hbelow a Ha) as (e & He & _).
  destruct (Hin a e Ha He) as (l & Hl & _).
  destruct (well_formed_delete st a e l Hwf Ha He Hl) as [Hwf' Hun].
  eexists. split; [apply (delete_event_listed st a e l Hwf Ha He Hl)|].
  split; [exact Hwf'|]. split; [exact Hun|]. split; [reflexivity|]. split.
  - intros b Hne Hb. cbn [events_sequence].
    apply (remove_first_elem a _ b Hnd). split; assumption.
  - intros name fields before limit l0 Hq Hal.
    apply (get_events_from _ _ _ _ _ _ a Hq) in Hal.
    destruct Hun as [Hseq Hlists]. unfold candidates_of in Hal.
    destruct name as [n|]; [|contradiction].
    match type of Hal with
    | a ∈ default [] ?o => destruct o as [ln|] eqn:En; cbn in Hal
    end; [exact (Hlists n ln En Hal) | inversion Hal].
Qed.

Lemma two_event_store_well_formed : well_formed two_event_store.
Proof.
  assert (H0 : Event.seqnum <$> heap two_event_store !! 0%nat = Some 0)
    by (vm_compute; reflexivity).
  assert (H1 : Event.seqnum <$> heap two_event_store !! 1%nat = Some 1)
    by (vm_compute; reflexivity).
  assert (N0 : (λ e, EventType.name (Event.eventType e)) <$> heap two_event_store !! 0%nat
               = Some "LOGIN") by (vm_compute; reflexivity).
  assert (N1 : (λ e, EventType.name (Event.eventType e)) <$> heap two_event_store !! 1%nat
               = Some "LOGIN") by (vm_compute; reflexivity).
  assert (Hseq : events_sequence two_event_store = [0%nat; 1%nat]) by reflexivity.
  assert (Hcur : events_curSeqnum two_event_store = 2) by reflexivity.
  assert (Hl : events_lists two_event_store = {[ "LOGIN" := [0%nat; 1%nat] ]})
    by (vm_compute; reflexivity).
  assert (Hcase : ∀ a, a ∈ [0%nat; 1%nat] → a = 0%nat ∨ a = 1%nat).
  { intros a Ha. apply elem_of_cons in Ha as [->|Ha]; [left; reflexivity|].
    apply list_elem_of_singleton in Ha as ->. right. reflexivity. }
  assert (Hnd : NoDup [0%nat; 1%nat]).
  { apply NoDup_cons. split; [intros H; apply list_elem_of_singleton in H; discriminate|].
    apply NoDup_singleton. }
  unfold well_formed. rewrite Hseq, Hl.
  split; [exact Hnd|]. split.
  { intros a Ha. rewrite Hcur.
    destruct (Hcase a Ha) as [->| ->].
    - destruct (heap two_event_store !! 0%nat) as [e|]; [|discriminate].
      exists e. split; [reflexivity|]. injection H0 as ->. lia.
    - destruct (heap two_event_store !! 1%nat) as [e|]; [|discriminate].
      exists e. split; [reflexivity|]. injection H1 as ->. lia. }
  split.
  { intros a b ea eb Ha Hb Hne Hea Heb.
    destruct (Hcase a Ha) as [->| ->], (Hcase b Hb) as [->| ->]; try contradiction;
      rewrite Hea in *; rewrite Heb in *; cbn in H0, H1;
      injection H0 as E0; injection H1 as E1; lia. }
  split.
  { intros a e Ha He. exists [0%nat; 1%nat]. split; [|exact Ha].
    destruct (Hcase a Ha) as [->| ->]; rewrite He in *; cbn in N0, N1.
    - injection N0 as ->. reflexivity.
    - injection N1 as ->. reflexivity. }
  intros k l Hk. apply lookup_singleton_Some in Hk as [<- <-].
  split; [exact Hnd|]. intros a Ha. split; [exact Ha|].
  destruct (Hcase a Ha) as [->| ->].
  - destruct (heap two_event_store !! 0%nat) as [e|]; [|discriminate].
    exists e. split; [reflexivity|]. injection N0 as ->. reflexivity.
  - destruct (heap two_event_store !! 1%nat) as [e|]; [|discriminate].
    exists e. split; [reflexivity|]. injection N1 as ->. reflexivity.
Qed.

Lemma delete_event_removes_witness :
  ∃ st', EventSet.delete_event 0%nat two_event_store = (Ok tt, st') ∧
    well_formed st' ∧ unlisted st' 0%nat ∧ heap st' = heap two_event_store ∧
    (∀ b, b ≠ 0%nat → b ∈ events_sequence two_event_store → b ∈ events_sequence st') ∧
    ∀ name fields before limit l,
      EventSet.get_events st' name fields before limit = Ok l → 0%nat ∉ l.
Proof.
  apply (delete_event_removes two_event_store 0%nat).
  - exact two_event_store_well_formed.
  - left.
Defined.

Lemma cmp_none (e1 e2 : Event.t) :
  Event.timestamp e1 = Event.timestamp e2 → Event.seqnum e1 = Event.seqnum e2 →
  EventSet.cmp e1 e2 = None.
Proof.
  intros Ht Hs. unfold EventSet.cmp, datetime.eqb, datetime.compare.
  rewrite Ht, Hs, lex_compare_refl, Z.eqb_refl. reflexivity.
Qed.

Lemma cmp_some (e1 e2 : Event.t) :
  Event.timestamp e2 ≠ Event.timestamp e1 ∨ Event.seqnum e2 ≠ Event.seqnum e1 →
  is_Some (EventSet.cmp e1 e2).
Proof.
  intros [Ht|Hs]; [|apply cmp_seqnum; congruence].
  unfold EventSet.cmp, datetime.eqb.
  destruct (datetime.compare (Event.timestamp e1) (Event.timestamp e2)) eqn:E; cbn; eauto.
  apply datetime_compare_eq in E. congruence.
Qed.

Lemma contains_apart (h : gmap nat Event.t) (x : nat) (ex : Event.t) (l : list nat) :
  h !! x = Some ex → x ∉ l →
  (∀ a, a ∈ l → ∃ ea, h !! a = Some ea ∧ is_Some (EventSet.cmp ex ea)) →
  EventSet.contains h x l = Ok false.
Proof.
  intros Hx. induction l as [|y l IH]; intros Hin H; [reflexivity|].
  cbn [EventSet.contains].
  destruct (Nat.eqb_spec x y) as [->|Hne]; [exfalso; apply Hin; left|].
  destruct (H y) as (ey & Hy & [c Hc]); [left|].
  unfold deref. rewrite Hx, Hy. cbn. rewrite Hc.
  apply IH.
  - intros Hx'. apply Hin. right. exact Hx'.
  - intros a Ha. apply H. right. exact Ha.
Qed.

Lemma contains_clash (h : gmap nat Event.t) (x b : nat) (ex eb : Event.t) (l : list nat) :
  h !! x = Some ex → x ∉ l → (∀ a, a ∈ l → is_Some (h !! a)) →
  b ∈ l → h !! b = Some eb → EventSet.cmp ex eb = None →
  EventSet.contains h x l = Raise (TypeError "comparison did not return an int").
Proof.
  intros Hx. induction l as [|y l IH]; intros Hin Hcl Hb Heb Hc; [inversion Hb|].
  cbn [EventSet.contains].
  destruct (Nat.eqb_spec x y) as [->|Hne]; [exfalso; apply Hin; left|].
  destruct (Hcl y) as [ey Hy]; [left|].
  unfold deref. rewrite Hx, Hy. cbn.
  destruct (EventSet.cmp ex ey) as [c|] eqn:E; [|reflexivity].
  apply IH.
  - intros Hx'. apply Hin. right. exact Hx'.
  - intros a Ha. apply Hcl. right. exact Ha.
  - apply elem_of_cons in Hb as [->|Hb]; [|exact Hb].
    rewrite Hy in Heb. injection Heb as <-. congruence.
  - exact Heb.
  - exact Hc.
Qed.

Lemma delete_event_apart (st : Store) (a : nat) (e : Event.t) :
  well_formed st → unlisted st a → heap st !! a = Some e →
  is_Some (events_lists st !! EventType.name (Event.eventType e)) →
  (∀ b eb, b ∈ events_sequence st → heap st !! b = Some eb →
     Event.timestamp eb ≠ Event.timestamp e ∨ Event.seqnum eb ≠ Event.seqnum e) →
  EventSet.delete_event a st = (Ok tt, st).
Proof.
  intros (Hnd & Hbelow & Hdist & Hin & Hlists) [Hseq Hun] He [l Hl] Hother.
  destruct (Hlists _ _ Hl) as [Hndl Hl_in].
  unfold EventSet.delete_event.
  erewrite bind_ok by reflexivity.
  erewrite bind_ok.
  2:{ unfold lift_result. rewrite (contains_apart _ a e); [reflexivity | exact He | exact Hseq |].
      intros b Hb. destruct (Hbelow b Hb) as (eb & Heb & _).
      exists eb. split; [exact Heb|]. apply cmp_some. exact (Hother b eb Hb Heb). }
  erewrite bind_ok by reflexivity.
  erewrite bind_ok by (unfold lift_result, deref; rewrite He; reflexivity).
  rewrite Hl.
  erewrite bind_ok.
  2:{ unfold lift_result.
      rewrite (contains_apart _ a e); [reflexivity | exact He | exact (Hun _ _ Hl) |].
      intros b Hb. destruct (Hl_in b Hb) as (Hbs & eb & Heb & _).
      exists eb. split; [exact Heb|]. apply cmp_some. exact (Hother b eb Hbs Heb). }
  destruct st. reflexivity.
Qed.

(** X12.  Deleting an event that is in no list.  A second deletion made
    directly after the first, in a well-formed set, changes nothing and
    does not raise; so does any deletion of an unlisted event of a
    well-formed set from which every listed event differs in timestamp or
    in sequence number.  When a listed event has both the timestamp and the
    sequence number of the unlisted one, as happens once [sortEvents] has
    renumbered the listed events, the deletion raises [TypeError] (the
    comparison of the two events returns nothing) and leaves the set as it
    was. *)
Theorem delete_event_twice :
  (∀ st st' a,
     well_formed st → a ∈ events_sequence st →
     EventSet.delete_event a st = (Ok tt, st') →
     EventSet.delete_event a st' = (Ok tt, st')) ∧
  (∀ st a e,
     well_formed st → unlisted st a → heap st !! a = Some e →
     is_Some (events_lists st !! EventType.name (Event.eventType e)) →
     (∀ b eb, b ∈ events_sequence st → heap st !! b = Some eb →
        Event.timestamp eb ≠ Event.timestamp e ∨ Event.seqnum eb ≠ Event.seqnum e) →
     EventSet.delete_event a st = (Ok tt, st)) ∧
  (∀ st a e b eb,
     (∀ c, c ∈ events_sequence st → is_Some (heap st !! c)) →
     a ∉ events_sequence st → heap st !! a = Some e →
     b ∈ events_sequence st → heap st !! b = Some eb →
     Event.timestamp eb = Event.timestamp e → Event.seqnum eb = Event.seqnum e →
     EventSet.delete_event a st
     = (Raise (TypeError "comparison did not return an int"), st)).
Proof.
  split; [|split].
  - intros st st' a Hwf Ha H.
    pose proof Hwf as (Hnd & Hbelow & Hdist & Hin & _).
    destruct (Hbelow a Ha) as (e & He & _).
    destruct (Hin a e Ha He) as (l & Hl & _).
    destruct (well_formed_delete st a e l Hwf Ha He Hl) as [Hwf' Hun].
    rewrite (delete_event_listed st a e l Hwf Ha He Hl) in H. injection H as <-.
    apply (delete_event_apart _ a e Hwf' Hun He).
    + cbn [events_lists]. rewrite lookup_insert_eq. eauto.
    + intros b eb Hb Heb. cbn [events_sequence heap] in *.
      apply (remove_first_elem a _ b Hnd) in Hb as [Hb Hne].
      right. exact (Hdist b a eb e Hb Ha Hne Heb He).
  - intros st a e. apply delete_event_apart.
  - intros st a e b eb Hcl Ha He Hb Heb Ht Hs.
    unfold EventSet.delete_event.
    erewrite bind_ok by reflexivity.
    erewrite bind_raise; [reflexivity|].
    unfold lift_result.
    rewrite (contains_clash _ a b e eb); try assumption; [reflexivity|].
    apply cmp_none; congruence.
Qed.

Lemma delete_event_twice_witness :
  let st1 := snd (EventSet.delete_event 0%nat two_event_store) in
  let st2 := snd (EventSet.sortEvents st1) in
  EventSet.delete_event 0%nat st1 = (Ok tt, st1) ∧
  EventSet.delete_event 0%nat st2
  = (Raise (TypeError "comparison did not return an int"), st2).
Proof.
  intros st1 st2. destruct delete_event_twice as (Htwice & _ & Hclash). split.
  - apply (Htwice two_event_store st1 0%nat).
    + exact two_event_store_well_formed.
    + left.
    + vm_compute. reflexivity.
  - assert (Hseq : events_sequence st2 = [1%nat]) by (vm_compute; reflexivity).
    destruct (heap st2 !! 0%nat) as [e|] eqn:E0; [|vm_compute in E0; discriminate].
    destruct (heap st2 !! 1%nat) as [eb|] eqn:E1; [|vm_compute in E1; discriminate].
    apply (Hclash st2 0%nat e 1%nat eb).
    + intros c Hc. rewrite Hseq in Hc. apply list_elem_of_singleton in Hc as ->. eauto.
    + rewrite Hseq. intros H. apply list_elem_of_singleton in H. discriminate.
    + exact E0.
    + rewrite Hseq. left.
    + exact E1.
    + vm_compute in E0, E1. injection E0 as <-. injection E1 as <-. reflexivity.
    + vm_compute in E0, E1. injection E0 as <-. injection E1 as <-. reflexivity.
Defined.

Lemma init_lists (names : list string) (k : string) (l : list nat) :
  (list_to_map ((λ k, (k, [])) <$> names) : gmap string (list nat)) !! k = Some l → l = [].
Proof.
  induction names as [|n names IH]; cbn [fmap list_fmap list_to_map foldr].
  - rewrite lookup_empty. discriminate.
  - destruct (decide (n = k)) as [->|E].
    + rewrite lookup_insert_eq. intros H. injection H as <-. reflexivity.
    + rewrite lookup_insert_ne by exact E. exact IH.
Qed.

(** X13.  A new event set is well formed, and inserting an event that is
    in none of its lists, and whose type the set knows, succeeds and leaves
    the set well formed. *)
Theorem add_event_keeps_well_formed :
  (∀ h names, well_formed (EventSet.init h names)) ∧
  (∀ st a e,
     well_formed st → heap st !! a = Some e → a ∉ events_sequence st →
     is_Some (events_lists st !! EventType.name (Event.eventType e)) →
     ∃ st', EventSet.add_event a st = (Ok tt, st') ∧ well_formed st').
Proof.
  split.
  - intros h names. unfold well_formed, EventSet.init.
    cbn [events_sequence events_lists heap events_curSeqnum].
    split; [constructor|]. split; [intros a Ha; inversion Ha|].
    split; [intros a b ea eb Ha; inversion Ha|].
    split; [intros a e Ha; inversion Ha|].
    intros k l Hk. apply init_lists in Hk as ->.
    split; [constructor | intros a Ha; inversion Ha].
  - intros st a e (Hnd & Hbelow & Hdist & Hin & Hlists) He Ha [l Hl].
    destruct (Hlists _ _ Hl) as [Hndl Hl_in].
    assert (Hal : a ∉ l) by (intros H; apply Ha; apply (Hl_in a H)).
    eexists. split; [apply (add_event_result a st e l He Hl)|].
    set (e' := Event.sfield_store _ _ _).
    assert (Hs' : Event.seqnum e' = events_curSeqnum st) by reflexivity.
    assert (Hn' : Event.eventType e' = Event.eventType e) by reflexivity.
    unfold well_formed. cbn [events_sequence events_lists heap events_curSeqnum].
    split; [apply NoDup_app; split; [exact Hnd|]; split;
            [intros x Hx Hx'; apply list_elem_of_singleton in Hx' as ->; contradiction
            | apply NoDup_singleton]|].
    split.
    { intros b Hb. cbn [events_curSeqnum heap].
      apply elem_of_app in Hb as [Hb|Hb].
      - destruct (Hbelow b Hb) as (eb & Heb & Hlt). exists eb.
        rewrite lookup_insert_ne by (intros ->; contradiction). split; [exact Heb | lia].
      - apply list_elem_of_singleton in Hb as ->. exists e'.
        rewrite lookup_insert_eq. split; [reflexivity | lia]. }
    split.
    { intros b c eb ec Hb Hc Hne Heb Hec.
      apply elem_of_app in Hb as [Hb|Hb]; apply elem_of_app in Hc as [Hc|Hc];
        try (apply list_elem_of_singleton in Hb as ->);
        try (apply list_elem_of_singleton in Hc as ->).
      - rewrite lookup_insert_ne in Heb by (intros ->; contradiction).
        rewrite lookup_insert_ne in Hec by (intros ->; contradiction).
        exact (Hdist b c eb ec Hb Hc Hne Heb Hec).
      - rewrite lookup_insert_ne in Heb by (intros ->; contradiction).
        rewrite lookup_insert_eq in Hec. injection Hec as <-.
        destruct (Hbelow b Hb) as (eb' & Heb' & Hlt).
        rewrite Heb in Heb'. injection Heb' as <-. lia.
      - rewrite lookup_insert_ne in Hec by (intros ->; contradiction).
        rewrite lookup_insert_eq in Heb. injection Heb as <-.
        destruct (Hbelow c Hc) as (ec' & Hec' & Hlt).
        rewrite Hec in Hec'. injection Hec' as <-. lia.
      - contradiction. }
    split.
    { intros b eb Hb Heb.
      apply elem_of_app in Hb as [Hb|Hb].
      - rewrite lookup_insert_ne in Heb by (intros ->; contradiction).
        destruct (Hin b eb Hb Heb) as (lb & Hlb & Hbl).
        destruct (decide (EventType.name (Event.eventType e)
                          = EventType.name (Event.eventType eb))) as [E|E].
        + rewrite <- E, lookup_insert_eq. eexists. split; [reflexivity|].
          rewrite <- E, Hl in Hlb. injection Hlb as <-.
          apply elem_of_app. left. exact Hbl.
        + rewrite lookup_insert_ne by exact E. eauto.
      - apply list_elem_of_singleton in Hb as ->.
        rewrite lookup_insert_eq in Heb. injection Heb as <-.
        rewrite Hn', lookup_insert_eq. eexists. split; [reflexivity|].
        apply elem_of_app. right. left. }
    intros k lk Hk.
    destruct (decide (EventType.name (Event.eventType e) = k)) as [<-|E].
    + rewrite lookup_insert_eq in Hk. injection Hk as <-.
      split; [apply NoDup_app; split; [exact Hndl|]; split;
              [intros x Hx Hx'; apply list_elem_of_singleton in Hx' as ->; contradiction
              | apply NoDup_singleton]|].
      intros b Hb. apply elem_of_app in Hb as [Hb|Hb].
      * destruct (Hl_in b Hb) as (Hbs & eb & Heb & Hname).
        split; [apply elem_of_app; left; exact Hbs|].
        exists eb. rewrite lookup_insert_ne by (intros ->; contradiction). auto.
      * apply list_elem_of_singleton in Hb as ->.
        split; [apply elem_of_app; right; left|].
        exists e'. rewrite lookup_insert_eq. auto.
    + rewrite lookup_insert_ne in Hk by exact E.
      destruct (Hlists _ _ Hk) as [Hndk Hk_in]. split; [exact Hndk|].
      intros b Hb. destruct (Hk_in b Hb) as (Hbs & eb & Heb & Hname).
      split; [apply elem_of_app; left; exact Hbs|].
      exists eb. rewrite lookup_insert_ne by (intros ->; contradiction). auto.
Qed.

Lemma add_event_keeps_well_formed_witness :
  ∃ st', EventSet.add_event 0%nat (EventSet.init {[0%nat := sample_event]} ["LOGIN"])
           = (Ok tt, st') ∧ well_formed st'.
Proof.
  destruct add_event_keeps_well_formed as [Hinit Hadd].
  apply (Hadd (EventSet.init {[0%nat := sample_event]} ["LOGIN"]) 0%nat sample_event).
  - apply Hinit.
  - reflexivity.
  - intros H. inversion H.
  - vm_compute. eauto.
Defined.

(** ** Field templating: splitting and rendering *)


Lemma join_empty_cons (x : string) (l : list string) :
  Str.join "" (x :: l) = x +:+ Str.join "" l.
Proof.
  destruct l as [|y l]; cbn [Str.join]; [rewrite append_nil_r; reflexivity|].
  reflexivity.
Qed.

Ltac str_norm :=
  rewrite ?append_assoc;
  repeat match goal with
         | |- context [EmptyString +:+ ?x] => change (EmptyString +:+ x) with x
         end;
  rewrite ?append_nil_r.

Lemma split_fields_join (s : string) :
  ∀ text pending,
  Str.join "" (split_fields s text pending)
  = text +:+ match pending with Some buf => "{" +:+ buf | None => "" end +:+ s.
Proof.
  induction s as [|c s IH]; intros text pending; cbn [split_fields].
  - cbn [Str.join]. destruct pending as [buf|]; str_norm; reflexivity.
  - destruct pending as [buf|].
    + destruct (Ascii.eqb_spec c "}") as [->|Hc].
      * destruct buf as [|b buf].
        -- rewrite IH. str_norm. reflexivity.
        -- rewrite !join_empty_cons, IH. str_norm. reflexivity.
      * destruct (Ascii.eqb_spec c "{") as [->|Hc'].
        -- rewrite IH. str_norm. reflexivity.
        -- rewrite IH. str_norm. reflexivity.
    + destruct (Ascii.eqb_spec c "{") as [->|Hc].
      * rewrite IH. str_norm. reflexivity.
      * rewrite IH. str_norm. reflexivity.
Qed.

Lemma split_fields_odd (s : string) :
  ∀ text pending, Nat.Odd (length (split_fields s text pending)).
Proof.
  induction s as [|c s IH]; intros text pending; cbn [split_fields].
  - exists 0%nat. reflexivity.
  - destruct pending as [buf|].
    + destruct (Ascii.eqb c "}").
      * destruct buf as [|b buf]; [apply IH|].
        destruct (IH EmptyString None) as [n Hn]. exists (S n). cbn [length]. lia.
      * destruct (Ascii.eqb c "{"); apply IH.
    + destruct (Ascii.eqb c "{"); apply IH.
Qed.

(** X14.  The parts into which a template is split, placeholders included,
    are odd in number and, put together again, give the template. *)
Theorem split_fields_round_trip (s : string) :
  Str.join "" (split_fields s EmptyString None) = s ∧
  Nat.Odd (length (split_fields s EmptyString None)).
Proof.
  split; [|apply split_fields_odd].
  rewrite split_fields_join. reflexivity.
Qed.












(** A field that holds a number breaks the rendering: the text cannot be
    added to a number. *)
Example replaceFields_number :
  replaceFields delay_store 1%nat "took {delay}s"
  = Raise (TypeError "unsupported operand type(s) for +: 'int' and 'str'") ∧
  replaceFields delay_store 1%nat "at {_time}" = Ok "at 10:00:00".
Proof. vm_compute. auto. Qed.

Lemma split_fields_plain (s : string) :
  lacks "{" s = true → ∀ text, split_fields s text None = [text +:+ s].
Proof.
  induction s as [|c s IH]; intros H text; cbn [split_fields lacks] in *.
  - rewrite append_nil_r. reflexivity.
  - apply andb_true_iff in H as [Hc H]. apply negb_true_iff in Hc. rewrite Hc.
    rewrite (IH H). str_norm. reflexivity.
Qed.

Lemma lacks_append (c : ascii) (a b : string) :
  lacks c (a +:+ b) = lacks c a && lacks c b.
Proof.
  induction a as [|x a IH]; [reflexivity|].
  change (String x a +:+ b) with (String x (a +:+ b)). cbn [lacks].
  rewrite IH. apply andb_assoc.
Qed.

Lemma lacks_replace_from (c : ascii) (old new : string) (s : string) :
  lacks c new = true → lacks c s = true →
  ∀ skip, lacks c (Str.replace_from old new skip s) = true.
Proof.
  intros Hnew. induction s as [|x s IH]; intros H skip; cbn [Str.replace_from]; [reflexivity|].
  cbn [lacks] in H. apply andb_true_iff in H as [Hx H].
  destruct skip as [|k]; [|apply IH, H].
  destruct (String.prefix old (String x s)).
  - rewrite lacks_append, Hnew. apply IH, H.
  - cbn [lacks]. rewrite Hx. apply IH, H.
Qed.

(** X16.  A template in which no opening brace occurs is returned as it
    is, but for the two escapes: backslash-t becomes a tab and backslash-n a
    line break.  No event is looked at. *)
Theorem replaceFields_plain (st : Store) (self : nat) (text : string) :
  lacks "{" text = true →
  replaceFields st self text
  = Ok (Str.replace backslash_n Str.nl
          (Str.replace backslash_t (String Str.tab EmptyString) text)).
Proof.
  intros H. unfold replaceFields.
  rewrite split_fields_plain; [reflexivity|].
  unfold Str.replace. apply lacks_replace_from; [reflexivity|].
  apply lacks_replace_from; [reflexivity | exact H].
Qed.

Lemma replaceFields_plain_witness :
  replaceFields two_event_store 7%nat "user\tlogged in"
  = Ok (Str.replace backslash_n Str.nl
          (Str.replace backslash_t (String Str.tab EmptyString) "user\tlogged in")).
Proof.
  apply (replaceFields_plain two_event_store 7%nat "user\tlogged in").
  reflexivity.
Defined.

(** ** Storing events and the end of a file *)

(** X17.  [storeNewEvent], for an event type without hook and display
    template: the event gets the [n] most recent lines as raw text, the
    line number [linenum - (n + 1)] and the next sequence number; it is
    appended to the list of its type and to the flat list, and the counters
    of events and of sequence numbers move on by one. *)
Theorem storeNewEvent_effect (exec_hook : string → nat → ST Store unit) (ev : nat) (n : Z)
    (c : EventSearchContext.t) (e : Event.t) (l : list nat) :
  heap (store c) !! ev = Some e →
  EventType.execOnMatch (Event.eventType e) = None →
  EventType.displayOnMatch (Event.eventType e) = None →
  events_lists (store c) !! EventType.name (Event.eventType e) = Some l →
  numbered_below (store c) l →
  ∃ e' c',
    storeNewEvent exec_hook ev n c = (Ok tt, c') ∧
    heap (store c') !! ev = Some e' ∧
    Event.sfields e' !! "_raw" = Some (VStr (getMultiline n c)) ∧
    Event.sfields e' !! "_line_number" = Some (VStr (Str.of_Z (linenum c - (n + 1)))) ∧
    Event.seqnum e' = events_curSeqnum (store c) ∧
    events_lists (store c') !! EventType.name (Event.eventType e) = Some (l ++ [ev]) ∧
    events_sequence (store c') = events_sequence (store c) ++ [ev] ∧
    events_curSeqnum (store c') = events_curSeqnum (store c) + 1 ∧
    numFoundEvents c' = numFoundEvents c + 1.
Proof.
  intros He Hh Hd Hl Hb.
  destruct (storeNewEvent_run exec_hook ev n c e l He Hh Hd Hl Hb)
    as (e' & Hrun & _ & Hseq & Hraw & Hnum).
  exists e'. eexists. split; [exact Hrun|].
  cbn [store set_store set_numFoundEvents heap events_lists events_sequence
       events_curSeqnum numFoundEvents].
  rewrite !lookup_insert_eq. auto 10.
Qed.

Lemma storeNewEvent_effect_witness :
  ∃ e' c',
    storeNewEvent no_hook 0%nat 1 pending_context = (Ok tt, c') ∧
    heap (store c') !! 0%nat = Some e' ∧
    Event.sfields e' !! "_raw" = Some (VStr (getMultiline 1 pending_context)) ∧
    Event.sfields e' !! "_line_number"
      = Some (VStr (Str.of_Z (linenum pending_context - (1 + 1)))) ∧
    Event.seqnum e' = events_curSeqnum (store pending_context) ∧
    events_lists (store c') !! "LOGIN" = Some ([] ++ [0%nat]) ∧
    events_sequence (store c') = events_sequence (store pending_context) ++ [0%nat] ∧
    events_curSeqnum (store c') = events_curSeqnum (store pending_context) + 1 ∧
    numFoundEvents c' = numFoundEvents pending_context + 1.
Proof.
  apply (storeNewEvent_effect no_hook 0%nat 1 pending_context
           (Event.init sample_type "app.log") []).
  - reflexivity.
  - reflexivity.
  - reflexivity.
  - vm_compute. reflexivity.
  - intros a Ha. inversion Ha.
Defined.

(** X18.  At the end of a file ([line] is [None]) an event that was waiting
    for the next timestamp is stored and yielded: its raw text is the last
    [eventLinesCount] lines, its line number [linenum - (eventLinesCount +
    1)], and no event is left waiting. *)
Theorem end_of_file_stores_pending (exec_hook : string → nat → ST Store unit)
    (now : datetime.t) (evt : EventType.t) (c : EventSearchContext.t) (ev : nat)
    (e : Event.t) (l : list nat) (n : Z) :
  EventType.execOnMatch evt = None → EventType.displayOnMatch evt = None →
  unfinishedEvents c = <[EventType.name evt := ev]> ∅ →
  eventLinesCount c = Some n →
  heap (store c) !! ev = Some e → Event.eventType e = evt →
  events_lists (store c) !! EventType.name evt = Some l →
  numbered_below (store c) l →
  ∃ e' c',
    checkLine exec_hook now None true c = (Ok [ev], c') ∧
    heap (store c') !! ev = Some e' ∧
    unfinishedEvents c' = ∅ ∧
    events_sequence (store c') = events_sequence (store c) ++ [ev] ∧
    Event.sfields e' !! "_raw" = Some (VStr (getMultiline n c)) ∧
    Event.sfields e' !! "_line_number" = Some (VStr (Str.of_Z (linenum c - (n + 1)))).
Proof.
  intros Hh Hd Hunf Hk He Hty Hl Hb.
  destruct (checkLine_end_finish exec_hook now evt Hh Hd c ev e l n Hunf Hk He Hty Hl Hb)
    as (e' & c' & Hrun & Hheap & Hu & Hs & Hraw & Hnum).
  exists e', c'. rewrite Hheap, lookup_insert_eq. auto 10.
Qed.

Lemma end_of_file_stores_pending_witness :
  let c := set_unfinishedEvents (<["LOGIN" := 0%nat]> ∅)
             (set_eventLinesCount (Some 1) pending_context) in
  ∃ e' c',
    checkLine no_hook datetime.min None true c = (Ok [0%nat], c') ∧
    heap (store c') !! 0%nat = Some e' ∧
    unfinishedEvents c' = ∅ ∧
    events_sequence (store c') = events_sequence (store c) ++ [0%nat] ∧
    Event.sfields e' !! "_raw" = Some (VStr (getMultiline 1 c)) ∧
    Event.sfields e' !! "_line_number" = Some (VStr (Str.of_Z (linenum c - (1 + 1)))).
Proof.
  intros c.
  apply (end_of_file_stores_pending no_hook datetime.min sample_type c 0%nat
           (Event.init sample_type "app.log") [] 1).
  - reflexivity.
  - reflexivity.
  - reflexivity.
  - reflexivity.
  - reflexivity.
  - reflexivity.
  - vm_compute. reflexivity.
  - intros a Ha. inversion Ha.
Defined.

(** X19.  A two-line file read with an event type of window size 2, without
    hook and display template, whose timestamp pattern does not match the
    first line: every event yielded has as raw text one of the two lines
    alone, never both, the first line under line number -1 or the second
    under line number 0.  When the text pattern accepts the two-line window
    at the second line, the last event yielded is the one of the second
    line; otherwise every event yielded is one of the first line. *)
Theorem two_line_file (exec_hook : string → nat → ST Store unit) (now : datetime.t)
    (evt : EventType.t) (line1 line2 : string) (verbosity : Z) (chronological : bool)
    (path : string) (time : option datetime.t) :
  EventType.multilineCount evt = 2 →
  EventType.execOnMatch evt = None → EventType.displayOnMatch evt = None →
  line1 ≠ EmptyString → line2 ≠ EmptyString →
  EventType.searchTimestamp evt line1 = None →
  is_Some (EventType.searchFilename evt path) →
  ∃ c1 evs c',
    checkSource path time (init verbosity [evt] chronological) = (Ok true, c1) ∧
    scan_lines exec_hook now [line1; line2] c1 = (Ok evs, c') ∧
    Forall (λ a, event_is (heap (store c')) a line1 "-1" ∨
                 event_is (heap (store c')) a line2 "0") evs ∧
    (accepted_on line1 line2 evt = true →
       ∃ a, last evs = Some a ∧ event_is (heap (store c')) a line2 "0") ∧
    (accepted_on line1 line2 evt = false →
       Forall (λ a, event_is (heap (store c')) a line1 "-1") evs).
Proof.
  intros Hw Hh Hd H1 H2 Hts Hf.
  exact (two_line_scan exec_hook now evt Hw Hh Hd line1 line2 H1 H2 Hts
           verbosity chronological path time Hf).
Qed.

Lemma two_line_file_witness :
  ∃ c1 evs c',
    checkSource "app.log" None (init 0 [window2_type error_span] false) = (Ok true, c1) ∧
    scan_lines no_hook datetime.min [line1; line2] c1 = (Ok evs, c') ∧
    Forall (λ a, event_is (heap (store c')) a line1 "-1" ∨
                 event_is (heap (store c')) a line2 "0") evs ∧
    (accepted_on line1 line2 (window2_type error_span) = true →
       ∃ a, last evs = Some a ∧ event_is (heap (store c')) a line2 "0") ∧
    (accepted_on line1 line2 (window2_type error_span) = false →
       Forall (λ a, event_is (heap (store c')) a line1 "-1") evs).
Proof.
  apply (two_line_file no_hook datetime.min (window2_type error_span) line1 line2 0 false
           "app.log" None).
  - reflexivity.
  - reflexivity.
  - reflexivity.
  - discriminate.
  - discriminate.
  - vm_compute. reflexivity.
  - vm_compute. eauto.
Defined.

Lemma shorter_differs (a b : string) :
  (String.length a < String.length b)%nat → VStr a ≠ VStr b.
Proof. intros H E. injection E as ->. lia. Qed.






(** ** The window of lines and the line counter *)

Lemma same_file_refl (c : EventSearchContext.t) : same_file c c.
Proof. repeat split. Qed.

Lemma same_file_trans (c1 c2 c3 : EventSearchContext.t) :
  same_file c1 c2 → same_file c2 c3 → same_file c1 c3.
Proof. intros (A1 & A2 & A3) (B1 & B2 & B3). repeat split; congruence. Qed.

Lemma frames_ret {A} (x : A) : frames (mret x).
Proof. intros c. apply same_file_refl. Qed.

Lemma frames_raise {A} (x : exn) : frames (@raise EventSearchContext.t A x).
Proof. intros c. apply same_file_refl. Qed.

Lemma frames_get : frames get.
Proof. intros c. apply same_file_refl. Qed.

Lemma frames_lift {A} (r : result A) : frames (@lift_result EventSearchContext.t A r).
Proof. intros c. apply same_file_refl. Qed.

Lemma frames_modify (f : EventSearchContext.t → EventSearchContext.t) :
  (∀ c, same_file c (f c)) → frames (modify f).
Proof. intros H c. apply H. Qed.

Lemma frames_bind {A B} (m : ST EventSearchContext.t A) (f : A → ST EventSearchContext.t B) :
  frames m → (∀ a, frames (f a)) → frames (m ≫= f).
Proof.
  intros Hm Hf c. unfold mbind, ST_bind. specialize (Hm c).
  destruct (m c) as [[a|x] c1]; cbn [snd] in *; [|exact Hm].
  eapply same_file_trans; [exact Hm | apply Hf].
Qed.

Lemma frames_try {A} (body : ST EventSearchContext.t A)
    (handler : exn → ST EventSearchContext.t A) :
  frames body → (∀ x, frames (handler x)) → frames (try_except body handler).
Proof.
  intros Hb Hh c. unfold try_except. specialize (Hb c).
  destruct (body c) as [[a|x] c1]; cbn [snd] in *; [exact Hb|].
  eapply same_file_trans; [exact Hb | apply Hh].
Qed.

Lemma frames_on_store {A} (m : ST Store A) : frames (on_store m).
Proof.
  intros c. unfold on_store. destruct (m (store c)) as [r st']. repeat split.
Qed.

Lemma frames_on_ev {A} (a : nat) (m : ST Event.t A) : frames (on_ev a m).
Proof. apply frames_on_store. Qed.

Lemma frames_read : frames read_eventLinesCount.
Proof.
  unfold read_eventLinesCount. apply frames_bind; [apply frames_get|]. intros c.
  destruct (eventLinesCount c); [apply frames_ret | apply frames_raise].
Qed.

Ltac frames_step :=
  first [ apply frames_ret | apply frames_raise | apply frames_get | apply frames_lift
        | apply frames_on_ev | apply frames_on_store | apply frames_read
        | apply frames_modify; intros ?; repeat split ].

Section frames_of_the_search.
Variable exec_hook : string → nat → ST Store unit.
Variable now : datetime.t.

Lemma frames_storeNewEvent (ev : nat) (n : Z) : frames (storeNewEvent exec_hook ev n).
Proof.
  unfold storeNewEvent.
  apply frames_bind; [frames_step|]. intros c.
  apply frames_bind; [frames_step|]. intros _.
  apply frames_bind; [frames_step|]. intros _.
  apply frames_bind; [frames_step|]. intros _.
  apply frames_bind; [frames_step|]. intros _.
  apply frames_bind; [frames_step|]. intros c1.
  apply frames_bind; [frames_step|]. intros e.
  destruct (_ || _); [|frames_step].
  apply frames_bind; [frames_step|]. intros _.
  apply frames_bind; [frames_step|]. intros c2.
  destruct (events_lists _ !! _); [|frames_step].
  apply frames_bind; [frames_step|]. intros [|]; frames_step.
Qed.

Lemma frames_finish_events (line : option string) (todo : list (string * nat)) :
  frames (finish_events exec_hook line todo).
Proof.
  induction todo as [|[k ev] rest IH]; cbn [finish_events]; [frames_step|].
  apply frames_bind; [frames_step|]. intros c.
  apply frames_bind; [frames_step|]. intros e.
  match goal with |- frames (if ?b then _ else _) => destruct b end; [|exact IH].
  apply frames_bind; [frames_step|]. intros n.
  apply frames_bind; [apply frames_storeNewEvent|]. intros _.
  apply frames_bind; [frames_step|]. intros _.
  apply frames_bind; [exact IH|]. intros more. frames_step.
Qed.

Lemma frames_find_timestamp (ev : nat) (ls : list string) :
  frames (find_timestamp now ev ls).
Proof.
  induction ls as [|l rest IH]; cbn [find_timestamp].
  - apply frames_bind; [frames_step | intros _; frames_step].
  - apply frames_bind; [frames_step|]. intros c.
    apply frames_try.
    + apply frames_bind; [frames_step | intros _; frames_step].
    + intros _. apply frames_bind; [frames_step|]. intros n.
      apply frames_bind; [frames_step | intros _; exact IH].
Qed.

Lemma frames_match_type (line : string) (finishEvents : bool) (evt : EventType.t) :
  frames (match_type exec_hook now line finishEvents evt).
Proof.
  unfold match_type.
  apply frames_bind; [frames_step|]. intros c.
  destruct (unfinishedEvents c !! EventType.name evt); [frames_step|].
  destruct (EventType.searchText evt _) as [rexResult|]; [|frames_step].
  destruct (_ <? _); [|frames_step].
  destruct (alloc _ _) as [ev h].
  apply frames_bind; [frames_step|]. intros _.
  apply frames_bind; [frames_step|]. intros _.
  apply frames_bind; [frames_step|]. intros _.
  apply frames_bind; [apply frames_find_timestamp|]. intros timestampFound.
  apply frames_bind.
  { destruct (_ && _); [|frames_step].
    apply frames_try; [frames_step | intros _; frames_step]. }
  intros _.
  destruct (_ || _).
  - apply frames_bind; [frames_step|]. intros n.
    apply frames_bind; [apply frames_storeNewEvent | intros _; frames_step].
  - apply frames_bind; [frames_step | intros _; frames_step].
Qed.

Lemma frames_match_types (line : string) (finishEvents : bool) (evts : list EventType.t) :
  frames (match_types exec_hook now line finishEvents evts).
Proof.
  induction evts as [|evt rest IH]; cbn [match_types]; [frames_step|].
  apply frames_bind; [apply frames_match_type|]. intros found.
  apply frames_bind; [exact IH | intros more; frames_step].
Qed.

Lemma frames_finished (line : option string) (c0 : EventSearchContext.t) :
  frames (if bool_decide (unfinishedEvents c0 = ∅) then mret []
          else evs ← finish_events exec_hook line (map_to_list (unfinishedEvents c0));
               n ← read_eventLinesCount;
               modify (set_eventLinesCount (Some (n + 1))) ;; mret evs).
Proof.
  destruct (bool_decide _); [frames_step|].
  apply frames_bind; [apply frames_finish_events|]. intros evs.
  apply frames_bind; [frames_step|]. intros n.
  apply frames_bind; [frames_step | intros _; frames_step].
Qed.

End frames_of_the_search.

Lemma bind_inv {S A B} (m : ST S A) (f : A → ST S B) (s s' : S) (b : B) :
  (m ≫= f) s = (Ok b, s') → ∃ a s1, m s = (Ok a, s1) ∧ f a s1 = (Ok b, s').
Proof.
  unfold mbind, ST_bind. destruct (m s) as [[a|x] s1]; [eauto | discriminate].
Qed.

(** X20.  A call of [checkLine] with a line that returns normally, whatever
    the hooks do and whatever events it yields, puts the line in front of
    the window, which never holds more than 100 lines, and adds one to the
    line number and to the count of processed lines. *)
Theorem checkLine_counts_lines (exec_hook : string → nat → ST Store unit)
    (now : datetime.t) (l : string) (finishEvents : bool)
    (c c' : EventSearchContext.t) (evs : list nat) :
  checkLine exec_hook now (Some l) finishEvents c = (Ok evs, c') →
  lines c' = take 100 (l :: lines c) ∧
  (length (lines c') ≤ 100)%nat ∧
  linenum c' = linenum c + 1 ∧
  numProcessedLines c' = numProcessedLines c + 1.
Proof.
  intros H. unfold checkLine in H.
  apply bind_inv in H as (c0 & c0' & H0 & H). injection H0 as <- <-.
  apply bind_inv in H as (finished & c1 & H1 & H).
  pose proof (frames_finished exec_hook (Some l) c c) as F1.
  rewrite H1 in F1. cbn [snd] in F1. destruct F1 as (L1 & N1 & P1).
  apply bind_inv in H as ([] & c2 & H2 & H). injection H2 as <-.
  apply bind_inv in H as ([] & c3 & H3 & H). injection H3 as <-.
  apply bind_inv in H as (c4 & c4' & H4 & H). injection H4 as <- <-.
  apply bind_inv in H as (started & c5 & H5 & H).
  match type of H5 with
  | match_types _ _ _ _ _ ?c3 = _ =>
      pose proof (frames_match_types exec_hook now l finishEvents
                    (searchEventTypes c3) c3) as F5
  end.
  rewrite H5 in F5. cbn [snd] in F5. destruct F5 as (L5 & N5 & P5).
  apply bind_inv in H as ([] & c6 & H6 & H). injection H6 as <-. injection H as _ <-.
  cbn [set_numProcessedLines set_linenum set_lines lines linenum numProcessedLines] in *.
  rewrite L5, N5, P5, L1, N1, P1. unfold appendleft.
  split; [reflexivity|]. split; [|split; reflexivity].
  rewrite length_take. lia.
Qed.

Lemma checkLine_counts_lines_witness :
  let c' := snd (checkLine no_hook datetime.min (Some "next line") true pending_context) in
  lines c' = take 100 ("next line" :: lines pending_context) ∧
  (length (lines c') ≤ 100)%nat ∧
  linenum c' = linenum pending_context + 1 ∧
  numProcessedLines c' = numProcessedLines pending_context + 1.
Proof.
  intros c'.
  apply (checkLine_counts_lines no_hook datetime.min "next line" true pending_context c' []).
  vm_compute. reflexivity.
Defined.

Lemma join_snoc2 (sep : string) (l : list string) (x y : string) :
  Str.join sep (l ++ [x; y]) = Str.join sep (l ++ [x +:+ sep +:+ y]).
Proof.
  induction l as [|a l IH]; [reflexivity|].
  cbn [app]. destruct l as [|b l]; [reflexivity|].
  change (Str.join sep (a :: (b :: l) ++ [x; y]))
    with (a +:+ sep +:+ Str.join sep ((b :: l) ++ [x; y])).
  change (Str.join sep (a :: (b :: l) ++ [x +:+ sep +:+ y]))
    with (a +:+ sep +:+ Str.join sep ((b :: l) ++ [x +:+ sep +:+ y])).
  rewrite IH. reflexivity.
Qed.

Lemma getMultiline_from_join (ls : list string) :
  ∀ i res, getMultiline_from (S i) ls res = Str.join Str.nl (reverse ls ++ [res]).
Proof.
  induction ls as [|l rest IH]; intros i res; cbn [getMultiline_from]; [reflexivity|].
  rewrite IH, reverse_cons, <- app_assoc. cbn [app]. symmetry. apply join_snoc2.
Qed.

(** X21.  [getMultiline(num)] is the [num] most recent lines of the window
    (all of them if there are fewer), oldest first, joined by line breaks. *)
Theorem getMultiline_joins (num : Z) (c : EventSearchContext.t) :
  getMultiline num c = Str.join Str.nl (reverse (take (Z.to_nat num) (lines c))).
Proof.
  unfold getMultiline. destruct (take (Z.to_nat num) (lines c)) as [|l rest]; [reflexivity|].
  cbn [getMultiline_from]. rewrite getMultiline_from_join, reverse_cons.
  change (EmptyString +:+ EmptyString) with EmptyString. rewrite append_nil_r. reflexivity.
Qed.

(** ** Scanning paths: what the return value counts *)

Lemma lift_inv {S A} (r : result A) (s s' : S) (a : A) :
  lift_result r s = (Ok a, s') → r = Ok a ∧ s' = s.
Proof. unfold lift_result. intros H. injection H as -> ->. auto. Qed.

Lemma add_logs join relpath stat (self self' : LogSource.t) (logpath : string)
    (fields : list (string * value)) :
  LogSource.add join relpath stat self logpath fields = Ok self' →
  ∃ f, LogSource.logs self' = LogSource.logs self ++ [f] ∧
       LogSource.type self' = LogSource.type self ∧
       LogSource.path self' = LogSource.path self ∧
       LogSource.archive self' = LogSource.archive self ∧
       LogSource.fields f = fields.
Proof.
  unfold LogSource.add. intros H.
  apply result_bind_ok in H as ([info tm] & _ & H).
  apply result_bind_ok in H as (size & _ & H).
  injection H as <-. eexists. repeat split.
Qed.

Lemma add_count join relpath stat (self self' : LogSource.t) (logpath : string)
    (fields : list (string * value)) :
  LogSource.add join relpath stat self logpath fields = Ok self' →
  LogSource.count self' = LogSource.count self + 1.
Proof.
  intros H. destruct (add_logs _ _ _ _ _ _ _ H) as (f & Hl & _).
  unfold LogSource.count. rewrite Hl, length_app. cbn [length]. lia.
Qed.

Lemma registered_snoc (self : LogSet.t) (s : LogSource.t) :
  registered (LogSet.set_sources (LogSet.sources self ++ [s]) self)
  = registered self + LogSource.count s.
Proof.
  unfold registered. cbn [LogSet.set_sources LogSet.sources LogSet.singleLogFiles].
  rewrite foldr_app. cbn [foldr].
  generalize (LogSource.count s). intros k.
  induction (LogSet.sources self) as [|x l IH]; cbn [foldr]; lia.
Qed.

Lemma keep_source_run (source : LogSource.t) (self : LogSet.t) :
  ∃ self', LogSet.keep_source source self = (Ok tt, self') ∧
    registered self' = registered self + LogSource.count source ∧
    LogSet.rexPathFilter self' = LogSet.rexPathFilter self.
Proof.
  unfold LogSet.keep_source. destruct (Z.ltb_spec 0 (LogSource.count source)).
  - eexists. split; [reflexivity|]. split; [apply registered_snoc | reflexivity].
  - exists self. split; [reflexivity|]. split; [|reflexivity].
    unfold LogSource.count in *. lia.
Qed.

Section counting.
Variable join : string → string → string.
Variable relpath : string → string → string.
Variable stat : string → result (datetime.t * Z).
Variable isdir : string → bool.
Variable isfile : string → bool.
Variable walk : string → list (string * list string).
Variable content : string → blob.
Variable archivePathRex : string → bool.

Section loops.
Variable scan : string → option blob → ST LogSet.t (option Z).
Hypothesis Hscan : counts scan.

Lemma scan_filenames_counts (dirpath : string) (filenames : list string) :
  ∀ source res self source' res' self',
  LogSet.scan_filenames join relpath stat archivePathRex scan dirpath filenames source res self
    = (Ok (source', res'), self') →
  registered self' + LogSource.count source' - res'
  = registered self + LogSource.count source - res.
Proof.
  induction filenames as [|filename rest IH]; intros source res self source' res' self' H;
    cbn [LogSet.scan_filenames] in H.
  - injection H as <- <- <-. reflexivity.
  - apply bind_inv in H as (self0 & s0 & H0 & H). injection H0 as <- <-.
    destruct (LogSet.checkPathFilter _ _) as [fields|].
    + apply bind_inv in H as (source1 & s1 & H1 & H).
      apply lift_inv in H1 as [H1 ->]. apply add_count in H1.
      apply IH in H. lia.
    + destruct (archivePathRex filename).
      * apply bind_inv in H as (n & s1 & H1 & H).
        apply bind_inv in H as (res1 & s2 & H2 & H).
        apply lift_inv in H2 as [H2 ->].
        destruct n as [n|]; [|discriminate]. injection H2 as <-.
        apply Hscan in H1. apply IH in H. lia.
      * apply IH in H. exact H.
Qed.

Lemma scan_walk_counts (entries : list (string * list string)) :
  ∀ source res self source' res' self',
  LogSet.scan_walk join relpath stat archivePathRex scan entries source res self
    = (Ok (source', res'), self') →
  registered self' + LogSource.count source' - res'
  = registered self + LogSource.count source - res.
Proof.
  induction entries as [|[dirpath filenames] rest IH];
    intros source res self source' res' self' H; cbn [LogSet.scan_walk] in H.
  - injection H as <- <- <-. reflexivity.
  - apply bind_inv in H as ([source1 res1] & s1 & H1 & H).
    apply scan_filenames_counts in H1. apply IH in H. lia.
Qed.

Lemma scan_members_counts (path : string) (items : list (string * option blob)) :
  ∀ addedNames source res self source' res' self',
  LogSet.scan_members join relpath stat archivePathRex scan path items addedNames
    source res self = (Ok (source', res'), self') →
  registered self' + LogSource.count source' - res'
  = registered self + LogSource.count source - res.
Proof.
  induction items as [|[name newFile] rest IH];
    intros addedNames source res self source' res' self' H; cbn [LogSet.scan_members] in H.
  - injection H as <- <- <-. reflexivity.
  - apply bind_inv in H as (self0 & s0 & H0 & H). injection H0 as <- <-.
    destruct (LogSet.checkPathFilter _ _) as [fields|].
    + destruct (bool_decide (name ∈ addedNames)); [apply IH in H; exact H|].
      apply bind_inv in H as (source1 & s1 & H1 & H).
      apply lift_inv in H1 as [H1 ->]. apply add_count in H1.
      apply IH in H. lia.
    + destruct (archivePathRex _).
      * apply bind_inv in H as (n & s1 & H1 & H).
        apply bind_inv in H as (res1 & s2 & H2 & H).
        apply lift_inv in H2 as [H2 ->].
        destruct n as [n|]; [|discriminate]. injection H2 as <-.
        apply Hscan in H1. apply IH in H. lia.
      * apply IH in H. exact H.
Qed.

End loops.

Lemma registered_single (self : LogSet.t) (single single' : LogSource.t) :
  LogSet.singleLogFiles self = Some single →
  LogSource.count single' = LogSource.count single + 1 →
  registered (LogSet.set_singleLogFiles (Some single') self) = registered self + 1.
Proof.
  intros Hs Hc. unfold registered.
  cbn [LogSet.set_singleLogFiles LogSet.sources LogSet.singleLogFiles].
  rewrite Hs. lia.
Qed.

Lemma scanPath_counts_all (depth : nat) :
  counts (LogSet.scanPath join relpath stat isdir isfile walk content archivePathRex depth).
Proof.
  induction depth as [|depth IH]; intros path file self n self' H; cbn [LogSet.scanPath] in H.
  - discriminate.
  - apply bind_inv in H as (self0 & s0 & H0 & H). injection H0 as <- <-.
    destruct (negb (bool_decide (is_Some file)) && isdir path).
    { apply bind_inv in H as ([source res] & s1 & H1 & H).
      apply (scan_walk_counts _ IH) in H1.
      apply bind_inv in H as ([] & s2 & H2 & H).
      destruct (keep_source_run source s1) as (s2' & Hk & Hr & _).
      rewrite Hk in H2. injection H2 as <-. injection H as <- <-.
      change (LogSource.count (LogSource.init _ _ _)) with 0 in H1. lia. }
    destruct (negb (bool_decide (is_Some file)) && isfile path && bool_decide (is_Some _)).
    { destruct (LogSet.singleLogFiles self) as [single|] eqn:Es; [|discriminate].
      apply bind_inv in H as (single' & s1 & H1 & H).
      apply lift_inv in H1 as [H1 ->]. apply add_count in H1.
      apply bind_inv in H as ([] & s2 & H2 & H). injection H2 as <-. injection H as <- <-.
      apply (registered_single _ single); assumption. }
    destruct (bool_decide (is_Some file) || _); [|discriminate].
    destruct (as_tar _) as [members|].
    { apply bind_inv in H as ([source res] & s1 & H1 & H).
      apply (scan_members_counts _ IH) in H1.
      apply bind_inv in H as ([] & s2 & H2 & H).
      destruct (keep_source_run source s1) as (s2' & Hk & Hr & _).
      rewrite Hk in H2. injection H2 as <-. injection H as <- <-.
      change (LogSource.count (LogSource.init _ _ _)) with 0 in H1. lia. }
    destruct (as_zip _) as [infos|].
    { apply bind_inv in H as ([source res] & s1 & H1 & H).
      apply (scan_members_counts _ IH) in H1.
      apply bind_inv in H as ([] & s2 & H2 & H).
      destruct (keep_source_run source s1) as (s2' & Hk & Hr & _).
      rewrite Hk in H2. injection H2 as <-. injection H as <- <-.
      change (LogSource.count (LogSource.init _ _ _)) with 0 in H1. lia. }
    injection H as <- <-. lia.
Qed.

End counting.

(** ** Scanning paths: the state of the sources *)

Lemma bind_cases {S A B} (m : ST S A) (f : A → ST S B) (s s' : S) (r : result B) :
  (m ≫= f) s = (r, s') →
  (∃ a s1, m s = (Ok a, s1) ∧ f a s1 = (r, s')) ∨
  (∃ e, m s = (Raise e, s') ∧ r = Raise e).
Proof.
  unfold mbind, ST_bind. destruct (m s) as [[a|x] s1]; [eauto|].
  intros H. injection H as <- <-. eauto.
Qed.

Lemma prefix_char (c x : ascii) (s : string) :
  String.prefix (String c EmptyString) (String x s) = Ascii.eqb x c.
Proof.
  cbn [String.prefix]. destruct (ascii_dec c x) as [->|Hn].
  - rewrite Ascii.eqb_refl. destruct s; reflexivity.
  - symmetry. apply Ascii.eqb_neq. congruence.
Qed.

Lemma replace_char_lacks (c : ascii) (new s : string) :
  lacks c new = true → lacks c (Str.replace (String c EmptyString) new s) = true.
Proof.
  intros Hnew. unfold Str.replace.
  induction s as [|x s IH]; cbn [Str.replace_from]; [reflexivity|].
  rewrite prefix_char. destruct (Ascii.eqb x c) eqn:E.
  - rewrite lacks_append, Hnew. exact IH.
  - cbn [lacks]. rewrite E. exact IH.
Qed.

Lemma replace_char_absent (c : ascii) (new s : string) :
  lacks c s = true → Str.replace (String c EmptyString) new s = s.
Proof.
  unfold Str.replace.
  induction s as [|x s IH]; intros H; cbn [Str.replace_from]; [reflexivity|].
  cbn [lacks] in H. apply andb_true_iff in H as [Hx H]. apply negb_true_iff in Hx.
  rewrite prefix_char, Hx. f_equal. apply IH, H.
Qed.

Lemma checkPathFilter_normal (rex : Pattern) (path : string) :
  LogSet.checkPathFilter rex (Str.replace "\" "/" path) = LogSet.checkPathFilter rex path.
Proof.
  unfold LogSet.checkPathFilter.
  rewrite (replace_char_absent "\" "/" (Str.replace "\" "/" path)); [reflexivity|].
  apply replace_char_lacks. reflexivity.
Qed.

Lemma ltb_irrefl (a : datetime.t) : datetime.ltb a a = false.
Proof. unfold datetime.ltb, datetime.compare. rewrite lex_compare_refl. reflexivity. Qed.

Lemma ltb_trans (a b c : datetime.t) :
  datetime.ltb a b = true → datetime.ltb b c = true → datetime.ltb a c = true.
Proof.
  unfold datetime.ltb, datetime.compare. intros H1 H2.
  destruct (datetime.lex_compare (datetime.fields a) (datetime.fields b)) eqn:E1;
    try discriminate.
  destruct (datetime.lex_compare (datetime.fields b) (datetime.fields c)) eqn:E2;
    try discriminate.
  rewrite (lex_compare_trans _ _ _ E1 E2). reflexivity.
Qed.

Lemma dt_le_lower (tm e t : datetime.t) :
  dt_le e t → dt_le (if datetime.ltb tm e then tm else e) t.
Proof.
  unfold dt_le. intros H. destruct (datetime.ltb tm e) eqn:E; [|exact H].
  destruct (datetime.ltb t tm) eqn:E'; [|reflexivity].
  rewrite (ltb_trans _ _ _ E' E) in H. discriminate.
Qed.

Lemma dt_le_upper (tm l t : datetime.t) :
  dt_le t l → dt_le t (if datetime.ltb l tm then tm else l).
Proof.
  unfold dt_le. intros H. destruct (datetime.ltb l tm) eqn:E; [|exact H].
  destruct (datetime.ltb tm t) eqn:E'; [|reflexivity].
  rewrite (ltb_trans _ _ _ E E') in H. discriminate.
Qed.

Lemma dt_le_lower_new (tm e : datetime.t) : dt_le (if datetime.ltb tm e then tm else e) tm.
Proof. unfold dt_le. destruct (datetime.ltb tm e) eqn:E; [apply ltb_irrefl | exact E]. Qed.

Lemma dt_le_upper_new (tm l : datetime.t) : dt_le tm (if datetime.ltb l tm then tm else l).
Proof. unfold dt_le. destruct (datetime.ltb l tm) eqn:E; [apply ltb_irrefl | exact E]. Qed.

Section adding.
Variable join : string → string → string.
Variable relpath : string → string → string.
Variable stat : string → result (datetime.t * Z).

Lemma add_spec (self self' : LogSource.t) (logpath : string)
    (fields : list (string * value)) :
  LogSource.add join relpath stat self logpath fields = Ok self' →
  ∃ f,
    LogSource.logs self' = LogSource.logs self ++ [f] ∧
    LogSource.type self' = LogSource.type self ∧
    LogSource.path self' = LogSource.path self ∧
    LogSource.fields f = fields ∧
    LogSource.file_path f
      = match LogSource.type self with
        | LogSource.DIR => relpath logpath (LogSource.path self)
        | _ => logpath
        end ∧
    LogSource.pseudoPath f
      = Str.replace "\" "/" (join (LogSource.path self) (LogSource.file_path f)) ∧
    (Forall (file_ok self) (LogSource.logs self) →
     Forall (file_ok self') (LogSource.logs self')).
Proof.
  unfold LogSource.add. intros H.
  apply result_bind_ok in H as ([info tm] & _ & H).
  apply result_bind_ok in H as (size & _ & H).
  injection H as <-. eexists. cbn [LogSource.logs LogSource.type LogSource.path
    LogSource.fields LogSource.file_path LogSource.pseudoPath].
  split; [reflexivity|]. split; [reflexivity|]. split; [reflexivity|].
  split; [reflexivity|]. split; [reflexivity|]. split; [reflexivity|].
  intros Hold. apply Forall_app. split.
  - eapply Forall_impl; [exact Hold|]. intros f (Hp & He & Hl & Hm).
    unfold file_ok. cbn [LogSource.earliest LogSource.latest].
    split; [exact Hp|]. split; [apply dt_le_lower, He|]. split; [apply dt_le_upper, Hl|].
    exact Hm.
  - constructor; [|constructor].
    unfold file_ok. cbn [LogSource.earliest LogSource.latest LogSource.time
      LogSource.pseudoPath].
    split; [apply replace_char_lacks; reflexivity|].
    split; [apply dt_le_lower_new|]. split; [apply dt_le_upper_new | reflexivity].
Qed.

End adding.

Lemma source_ok_init (rex : Pattern) (type : LogSource.kind) (path : string)
    (archive : option LogSource.handle) :
  source_ok rex (LogSource.init type path archive).
Proof.
  split; [constructor|]. intros _. split; constructor.
Qed.

Lemma keep_source_ok (rex : Pattern) (source : LogSource.t) (self : LogSet.t) :
  sources_ok rex self → source_ok rex source →
  sources_ok rex (snd (LogSet.keep_source source self)).
Proof.
  intros (Hr & Hs & Hsingle) Hsrc. unfold LogSet.keep_source.
  destruct (Z.ltb_spec 0 (LogSource.count source)); cbn [snd modify mret ST_ret];
    [|split; [exact Hr | split; assumption]].
  split; [exact Hr|]. split; [|exact Hsingle].
  cbn [LogSet.set_sources LogSet.sources]. apply Forall_app. split; [exact Hs|].
  constructor; [|constructor]. split; [exact Hsrc|].
  intros E. unfold LogSource.count in *. rewrite E in *. cbn in *. lia.
Qed.

Section invariant.
Variable join : string → string → string.
Variable relpath : string → string → string.
Variable stat : string → result (datetime.t * Z).
Variable isdir : string → bool.
Variable isfile : string → bool.
Variable walk : string → list (string * list string).
Variable content : string → blob.
Variable archivePathRex : string → bool.
Variable rex : Pattern.

Section loops.
Variable scan : string → option blob → ST LogSet.t (option Z).
Hypothesis Hscan : keeps_sources rex scan.

Lemma scan_filenames_ok (dirpath : string) (filenames : list string) :
  ∀ source res self r self',
  LogSet.scan_filenames join relpath stat archivePathRex scan dirpath filenames source res self
    = (r, self') →
  sources_ok rex self → LogSource.type source = LogSource.DIR →
  Forall (file_ok source) (LogSource.logs source) →
  sources_ok rex self' ∧
  ∀ source' res', r = Ok (source', res') →
    LogSource.type source' = LogSource.DIR ∧
    Forall (file_ok source') (LogSource.logs source').
Proof.
  induction filenames as [|filename rest IH]; intros source res self r self' H Hok Hty Hf;
    cbn [LogSet.scan_filenames] in H.
  - injection H as <- <-. split; [exact Hok|]. intros s' r' E. injection E as <- <-. auto.
  - apply bind_cases in H as [(self0 & s0 & H0 & H)|(e & H0 & _)]; [|discriminate].
    injection H0 as <- <-.
    destruct (LogSet.checkPathFilter _ _) as [fields|].
    + apply bind_cases in H as [(source1 & s1 & H1 & H)|(e & H1 & ->)].
      * apply lift_inv in H1 as [H1 ->].
        destruct (add_spec _ _ _ _ _ _ _ H1) as (f & _ & Hty1 & _ & _ & _ & _ & Hf1).
        apply (IH _ _ _ _ _ H Hok); [congruence | exact (Hf1 Hf)].
      * unfold lift_result in H1. injection H1 as _ <-.
        split; [exact Hok | discriminate].
    + destruct (archivePathRex filename); [|apply (IH _ _ _ _ _ H Hok Hty Hf)].
      apply bind_cases in H as [(n & s1 & H1 & H)|(e & H1 & ->)].
      * assert (Hok1 : sources_ok rex s1).
        { pose proof (Hscan (join dirpath filename) None self Hok) as Hk.
          rewrite H1 in Hk. exact Hk. }
        apply bind_cases in H as [(res1 & s2 & H2 & H)|(e & H2 & ->)].
        -- apply lift_inv in H2 as [_ ->]. apply (IH _ _ _ _ _ H Hok1 Hty Hf).
        -- unfold lift_result in H2. injection H2 as _ <-.
           split; [exact Hok1 | discriminate].
      * pose proof (Hscan (join dirpath filename) None self Hok) as Hk.
        rewrite H1 in Hk. split; [exact Hk | discriminate].
Qed.

Lemma scan_walk_ok (entries : list (string * list string)) :
  ∀ source res self r self',
  LogSet.scan_walk join relpath stat archivePathRex scan entries source res self = (r, self') →
  sources_ok rex self → LogSource.type source = LogSource.DIR →
  Forall (file_ok source) (LogSource.logs source) →
  sources_ok rex self' ∧
  ∀ source' res', r = Ok (source', res') →
    LogSource.type source' = LogSource.DIR ∧
    Forall (file_ok source') (LogSource.logs source').
Proof.
  induction entries as [|[dirpath filenames] rest IH];
    intros source res self r self' H Hok Hty Hf; cbn [LogSet.scan_walk] in H.
  - injection H as <- <-. split; [exact Hok|]. intros s' r' E. injection E as <- <-. auto.
  - apply bind_cases in H as [([source1 res1] & s1 & H1 & H)|(e & H1 & ->)].
    + destruct (scan_filenames_ok _ _ _ _ _ _ _ H1 Hok Hty Hf) as [Hok1 Hs1].
      destruct (Hs1 _ _ eq_refl) as [Hty1 Hf1].
      apply (IH _ _ _ _ _ H Hok1 Hty1 Hf1).
    + destruct (scan_filenames_ok _ _ _ _ _ _ _ H1 Hok Hty Hf) as [Hok1 _].
      split; [exact Hok1 | discriminate].
Qed.

Lemma scan_members_ok (path : string) (items : list (string * option blob)) :
  ∀ addedNames source res self r self',
  LogSet.scan_members join relpath stat archivePathRex scan path items addedNames
    source res self = (r, self') →
  sources_ok rex self → LogSource.type source ≠ LogSource.DIR →
  filling rex join path addedNames source →
  sources_ok rex self' ∧
  ∀ source' res', r = Ok (source', res') →
    LogSource.type source' = LogSource.type source ∧
    ∃ addedNames', filling rex join path addedNames' source'.
Proof.
  induction items as [|[name newFile] rest IH];
    intros addedNames source res self r self' H Hok Hty Hfill;
    cbn [LogSet.scan_members] in H.
  - injection H as <- <-. split; [exact Hok|]. intros s' r' E. injection E as <- <-. eauto.
  - apply bind_cases in H as [(self0 & s0 & H0 & H)|(e & H0 & _)]; [|discriminate].
    injection H0 as <- <-.
    destruct (LogSet.checkPathFilter _ _) as [fields|] eqn:Efilter.
    + destruct (bool_decide_reflect (name ∈ addedNames)) as [Hin|Hnew];
        [apply (IH _ _ _ _ _ _ H Hok Hty Hfill)|].
      apply bind_cases in H as [(source1 & s1 & H1 & H)|(e & H1 & ->)].
      * apply lift_inv in H1 as [H1 ->].
        destruct (add_spec _ _ _ _ _ _ _ H1)
          as (f & Hlogs & Hty1 & Hpath1 & Hfields & Hfp & Hpp & Hf1).
        destruct Hfill as (Hp & Hfiles & [Hnd Hflt] & Hnames).
        assert (Hname : LogSource.file_path f = name)
          by (rewrite Hfp; destruct (LogSource.type source); congruence).
        assert (Hfill1 : filling rex join path (name :: addedNames) source1).
        { split; [congruence|]. split; [exact (Hf1 Hfiles)|]. split.
          - split.
            + rewrite Hlogs, fmap_app. apply NoDup_app. split; [exact Hnd|]. split.
              * intros x Hx Hx'. cbn in Hx'. apply list_elem_of_singleton in Hx' as ->.
                apply list_elem_of_fmap in Hx as (g & Hg & Hgin).
                apply Hnew. rewrite <- Hname, Hg. apply Hnames, Hgin.
              * cbn. apply NoDup_singleton.
            + rewrite Hlogs. apply Forall_app. split; [exact Hflt|].
              constructor; [|constructor].
              rewrite Hpp, Hname, Hp, checkPathFilter_normal, Hfields.
              destruct Hok as (Hr & _). rewrite <- Hr. exact Efilter.
          - intros g Hg. rewrite Hlogs in Hg. apply elem_of_app in Hg as [Hg|Hg].
            + right. apply Hnames, Hg.
            + apply list_elem_of_singleton in Hg as ->. rewrite Hname. left. }
        assert (Hty1' : LogSource.type source1 ≠ LogSource.DIR) by congruence.
        destruct (IH _ _ _ _ _ _ H Hok Hty1' Hfill1) as [Hok' Hres].
        split; [exact Hok'|]. intros s' r' E. destruct (Hres s' r' E) as [Ht Hx].
        split; [congruence | exact Hx].
      * unfold lift_result in H1. injection H1 as _ <-.
        split; [exact Hok | discriminate].
    + destruct (archivePathRex _); [|apply (IH _ _ _ _ _ _ H Hok Hty Hfill)].
      apply bind_cases in H as [(n & s1 & H1 & H)|(e & H1 & ->)].
      * assert (Hok1 : sources_ok rex s1).
        { pose proof (Hscan (join path name) newFile self Hok) as Hk.
          rewrite H1 in Hk. exact Hk. }
        apply bind_cases in H as [(res1 & s2 & H2 & H)|(e & H2 & ->)].
        -- apply lift_inv in H2 as [_ ->]. apply (IH _ _ _ _ _ _ H Hok1 Hty Hfill).
        -- unfold lift_result in H2. injection H2 as _ <-.
           split; [exact Hok1 | discriminate].
      * pose proof (Hscan (join path name) newFile self Hok) as Hk.
        rewrite H1 in Hk. split; [exact Hk | discriminate].
Qed.

End loops.

Lemma filled_source_ok (path : string) (addedNames : list string) (s : LogSource.t) :
  filling rex join path addedNames s → source_ok rex s.
Proof. intros (_ & Hf & Hm & _). split; [exact Hf | intros _; exact Hm]. Qed.

Lemma scanPath_keeps (depth : nat) :
  keeps_sources rex
    (LogSet.scanPath join relpath stat isdir isfile walk content archivePathRex depth).
Proof.
  induction depth as [|depth IH]; intros path file self Hok; [exact Hok|].
  destruct (LogSet.scanPath _ _ _ _ _ _ _ _ (S depth) path file self) as [r self'] eqn:H.
  cbn [snd]. cbn [LogSet.scanPath] in H.
  apply bind_cases in H as [(self0 & s0 & H0 & H)|(e & H0 & _)]; [|discriminate].
  injection H0 as <- <-.
  destruct (negb (bool_decide (is_Some file)) && isdir path).
  { apply bind_cases in H as [([source res] & s1 & H1 & H)|(e & H1 & ->)].
    - destruct (scan_walk_ok _ IH _ _ _ _ _ _ H1 Hok eq_refl) as [Hok1 Hs];
        [constructor|].
      destruct (Hs _ _ eq_refl) as [Hty Hf].
      assert (Hsrc : source_ok rex source).
      { split; [exact Hf|]. intros [E|E]; rewrite Hty in E; discriminate. }
      pose proof (keep_source_ok rex source s1 Hok1 Hsrc) as Hk.
      apply bind_cases in H as [([] & s2 & H2 & H)|(e & H2 & ->)].
      + rewrite H2 in Hk. injection H as _ <-. exact Hk.
      + rewrite H2 in Hk. exact Hk.
    - destruct (scan_walk_ok _ IH _ _ _ _ _ _ H1 Hok eq_refl) as [Hok1 _];
        [constructor | exact Hok1]. }
  destruct (negb (bool_decide (is_Some file)) && isfile path && bool_decide (is_Some _)).
  { destruct (LogSet.singleLogFiles self) as [single|] eqn:Es;
      [|injection H as _ <-; exact Hok].
    apply bind_cases in H as [(single' & s1 & H1 & H)|(e & H1 & ->)].
    - apply lift_inv in H1 as [H1 ->].
      destruct (add_spec _ _ _ _ _ _ _ H1) as (f & _ & Hty1 & _ & _ & _ & _ & Hf1).
      apply bind_cases in H as [([] & s2 & H2 & H)|(e & H2 & _)]; [|discriminate].
      injection H2 as <-. injection H as _ <-.
      destruct Hok as (Hr & Hs & Hsingle). destruct (Hsingle single Es) as [Hty Hf].
      split; [exact Hr|]. split; [exact Hs|].
      intros s E. cbn in E. injection E as <-. split; [congruence | exact (Hf1 Hf)].
    - unfold lift_result in H1. injection H1 as _ <-. exact Hok. }
  destruct (bool_decide (is_Some file) || _); [|injection H as _ <-; exact Hok].
  assert (Harchive : ∀ kind items handle r self',
    kind ≠ LogSource.DIR →
    (('(source, res) ←
        LogSet.scan_members join relpath stat archivePathRex
          (LogSet.scanPath join relpath stat isdir isfile walk content archivePathRex depth)
          path items [] (LogSource.init kind path handle) 0;
      LogSet.keep_source source ;; mret (Some res)) : ST LogSet.t (option Z)) self
    = (r, self') →
    sources_ok rex self').
  { intros kind items handle r0 self0 Hkind H'.
    assert (Hfill : filling rex join path [] (LogSource.init kind path handle)).
    { split; [reflexivity|]. split; [constructor|]. split; [split; constructor|].
      intros f Hf. inversion Hf. }
    apply bind_cases in H' as [([source res] & s1 & H1 & H')|(e & H1 & ->)].
    - destruct (scan_members_ok _ IH _ _ _ _ _ _ _ _ H1 Hok Hkind Hfill) as [Hok1 Hs].
      destruct (Hs _ _ eq_refl) as [_ [added Hfilled]].
      pose proof (keep_source_ok rex source s1 Hok1 (filled_source_ok _ _ _ Hfilled)) as Hk.
      apply bind_cases in H' as [([] & s2 & H2 & H')|(e & H2 & ->)].
      + rewrite H2 in Hk. injection H' as _ <-. exact Hk.
      + rewrite H2 in Hk. exact Hk.
    - destruct (scan_members_ok _ IH _ _ _ _ _ _ _ _ H1 Hok Hkind Hfill) as [Hok1 _].
      exact Hok1. }
  destruct (as_tar _) as [members|]; [eapply Harchive; [|exact H]; discriminate|].
  destruct (as_zip _) as [infos|]; [eapply Harchive; [|exact H]; discriminate|].
  injection H as _ <-. exact Hok.
Qed.

Lemma for_each_keeps {A} (P : LogSet.t → Prop) (l : list A)
    (body : A → ST LogSet.t unit) :
  (∀ x self, P self → P (snd (body x self))) →
  ∀ self, P self → P (snd (for_each l body self)).
Proof.
  intros Hb. induction l as [|x l IH]; intros self H; cbn [for_each]; [exact H|].
  unfold mbind, ST_bind. specialize (Hb x self H).
  destruct (body x self) as [[[]|e] s1]; cbn [snd] in *; [apply IH, Hb | exact Hb].
Qed.

Lemma scanPaths_keeps (depth : nat) (paths : list string) (self : LogSet.t) :
  sources_ok rex self →
  sources_ok rex
    (snd (LogSet.scanPaths join relpath stat isdir isfile walk content archivePathRex
            depth paths self)).
Proof.
  intros (Hr & Hs & _). unfold LogSet.scanPaths.
  unfold mbind at 1, ST_bind at 1. cbn [modify].
  set (self1 := LogSet.set_singleLogFiles _ self).
  assert (Hok1 : sources_ok rex self1).
  { split; [exact Hr|]. split; [exact Hs|]. intros s E. cbn in E. injection E as <-.
    split; [reflexivity | constructor]. }
  pose proof (for_each_keeps (sources_ok rex) paths
    (λ p, LogSet.scanPath join relpath stat isdir isfile walk content archivePathRex
            depth p None ;; mret tt)) as Hloop.
  unfold mbind at 1, ST_bind at 1.
  match goal with
  | |- context [for_each paths ?b self1] =>
      specialize (Hloop ltac:(intros p s Hp; unfold mbind, ST_bind;
        pose proof (scanPath_keeps depth p None s Hp) as Hk;
        destruct (LogSet.scanPath _ _ _ _ _ _ _ _ depth p None s) as [[o|e] s'];
        exact Hk) self1 Hok1);
      destruct (for_each paths b self1) as [[[]|e] s2]
  end; cbn [snd] in *; [|exact Hloop].
  unfold mbind, ST_bind. cbn [get].
  destruct (LogSet.singleLogFiles s2) as [single|] eqn:Es; [|exact Hloop].
  apply keep_source_ok; [exact Hloop|].
  destruct Hloop as (_ & _ & Hsingle). destruct (Hsingle single Es) as [Hty Hf].
  split; [exact Hf|]. intros [E|E]; rewrite Hty in E; discriminate.
Qed.

End invariant.

(** X22.  When [scanPath] returns a number, that number is how many log
    files the call registered, in the sources it appended and among the
    files given directly. *)
Theorem scanPath_counts (join relpath : string → string → string)
    (stat : string → result (datetime.t * Z)) (isdir isfile : string → bool)
    (walk : string → list (string * list string)) (content : string → blob)
    (archivePathRex : string → bool) (depth : nat) (path : string) (file : option blob)
    (self self' : LogSet.t) (n : Z) :
  LogSet.scanPath join relpath stat isdir isfile walk content archivePathRex depth path file
    self = (Ok (Some n), self') →
  registered self' = registered self + n.
Proof. apply scanPath_counts_all. Qed.

Lemma scanPath_counts_witness :
  registered (snd (sample_scan 3 "logs")) = registered empty_set + 1.
Proof.
  apply (scanPath_counts sample_join (λ f _, f) sample_stat sample_isdir sample_isfile
           sample_walk sample_content sample_archive_name 3 "logs" None).
  vm_compute. reflexivity.
Defined.

(** X23.  [scanPath] and [scanPaths] keep the sources in order, however
    they end: no source that is kept is empty; the pseudo path of a file
    holds no backslash; the time of a file has no microseconds and lies
    between [earliest] and [latest] of its source; in a source made from an
    archive no member name comes twice and the pseudo path of every member
    passes the path filter, with the fields that were stored. *)
Theorem scanning_keeps_sources_ok (join relpath : string → string → string)
    (stat : string → result (datetime.t * Z)) (isdir isfile : string → bool)
    (walk : string → list (string * list string)) (content : string → blob)
    (archivePathRex : string → bool) (rex : Pattern) (depth : nat) (self : LogSet.t) :
  sources_ok rex self →
  (∀ path file,
     sources_ok rex
       (snd (LogSet.scanPath join relpath stat isdir isfile walk content archivePathRex
               depth path file self))) ∧
  (∀ paths,
     sources_ok rex
       (snd (LogSet.scanPaths join relpath stat isdir isfile walk content archivePathRex
               depth paths self))).
Proof.
  intros Hok. split.
  - intros path file. apply scanPath_keeps, Hok.
  - intros paths. apply scanPaths_keeps, Hok.
Qed.

Lemma scanning_keeps_sources_ok_witness :
  (∀ path file,
     sources_ok log_filter
       (snd (LogSet.scanPath sample_join (λ f _, f) sample_stat sample_isdir sample_isfile
               sample_walk sample_content sample_archive_name 3 path file empty_set))) ∧
  (∀ paths,
     sources_ok log_filter
       (snd (LogSet.scanPaths sample_join (λ f _, f) sample_stat sample_isdir sample_isfile
               sample_walk sample_content sample_archive_name 3 paths empty_set))).
Proof.
  apply (scanning_keeps_sources_ok sample_join (λ f _, f) sample_stat sample_isdir
           sample_isfile sample_walk sample_content sample_archive_name log_filter 3
           empty_set).
  split; [reflexivity|]. split; [constructor | discriminate].
Defined.

Lemma scanPath_unreadable (join relpath : string → string → string)
    (stat : string → result (datetime.t * Z)) (isdir isfile : string → bool)
    (walk : string → list (string * list string)) (content : string → blob)
    (archivePathRex : string → bool) (depth : nat) (path : string) (file : option blob)
    (self : LogSet.t) :
  candidate isdir isfile archivePathRex path file self →
  as_tar (default (content path) file) = None →
  as_zip (default (content path) file) = None →
  LogSet.scanPath join relpath stat isdir isfile walk content archivePathRex (S depth)
    path file self = (Ok (Some 0), self).
Proof.
  intros Hdisk Ht Hz. cbn [LogSet.scanPath].
  erewrite bind_ok by reflexivity.
  destruct file as [b|].
  - rewrite (bool_decide_eq_true_2 (is_Some (Some b))) by eauto.
    cbn [negb andb orb]. rewrite Ht, Hz. reflexivity.
  - destruct (Hdisk eq_refl) as (Hd & Hf & Ha & Hp).
    rewrite (bool_decide_eq_false_2 (is_Some None)) by (intros [? ?]; discriminate).
    rewrite Hd, Hf, Ha, Hp.
    rewrite (bool_decide_eq_false_2 (is_Some None)) by (intros [? ?]; discriminate).
    cbn [negb andb orb]. rewrite Ht, Hz. reflexivity.
Qed.

(** X24.  A file handed over as a possible archive, from inside an archive
    or by a path that is a file, does not pass the path filter and carries
    the name of an archive, is skipped when it opens neither as a tar nor
    as a zip archive: the call returns 0 and registers nothing. *)
Theorem unreadable_archive_skipped (join relpath : string → string → string)
    (stat : string → result (datetime.t * Z)) (isdir isfile : string → bool)
    (walk : string → list (string * list string)) (content : string → blob)
    (archivePathRex : string → bool) (depth : nat) (path : string) (file : option blob)
    (self : LogSet.t) :
  (file = None →
     isdir path = false ∧ isfile path = true ∧ archivePathRex path = true ∧
     LogSet.checkPathFilter (LogSet.rexPathFilter self) path = None) →
  as_tar (default (content path) file) = None →
  as_zip (default (content path) file) = None →
  LogSet.scanPath join relpath stat isdir isfile walk content archivePathRex (S depth)
    path file self = (Ok (Some 0), self).
Proof. apply scanPath_unreadable. Qed.

Lemma unreadable_archive_skipped_witness :
  sample_scan 1 "logs/old.zip" = (Ok (Some 0), empty_set).
Proof.
  apply (unreadable_archive_skipped sample_join (λ f _, f) sample_stat sample_isdir
           sample_isfile sample_walk sample_content sample_archive_name 0 "logs/old.zip"
           None empty_set).
  - intros _. vm_compute. auto.
  - reflexivity.
  - reflexivity.
Defined.

Section candidates.

Variables (join relpath : string → string → string).
Variable stat : string → result (datetime.t * Z).
Variables (isdir isfile : string → bool).
Variable walk : string → list (string * list string).
Variable content : string → blob.
Variable archivePathRex : string → bool.

Local Abbreviation scan :=
  (LogSet.scanPath join relpath stat isdir isfile walk content archivePathRex).
Local Abbreviation scan_members := (LogSet.scan_members join relpath stat archivePathRex).
Local Abbreviation scan_filenames := (LogSet.scan_filenames join relpath stat archivePathRex).

(** C9.  A candidate archive, given by a path or as the file object of a
    member of an archive, is opened as a tar archive first: when that
    works its members are scanned, and what the zip reader would make of
    it plays no part.  Only when it fails is the candidate opened as a zip
    archive, and its entries scanned.  When both fail the call returns 0,
    raises nothing and leaves the log set as it was; the loop over the
    files of a directory, or over the members of an archive, that made the
    call goes on with the next name, its count and its source unchanged. *)
Theorem archive_candidate_tar_then_zip :
  (∀ depth path file self members,
     candidate isdir isfile archivePathRex path file self →
     as_tar (default (content path) file) = Some members →
     scan (S depth) path file self
     = (('(source, res) ← scan_members (scan depth) path (LogSet.tar_items members) []
                            (LogSource.init LogSource.TAR path
                               (Some (LogSource.TarFile members))) 0;
         LogSet.keep_source source ;;
         mret (Some res)) : ST LogSet.t (option Z)) self) ∧
  (∀ depth path file self infos,
     candidate isdir isfile archivePathRex path file self →
     as_tar (default (content path) file) = None →
     as_zip (default (content path) file) = Some infos →
     scan (S depth) path file self
     = (('(source, res) ← scan_members (scan depth) path (LogSet.zip_items infos) []
                            (LogSource.init LogSource.ZIP path
                               (Some (LogSource.ZipFile infos))) 0;
         LogSet.keep_source source ;;
         mret (Some res)) : ST LogSet.t (option Z)) self) ∧
  (∀ depth path file self,
     candidate isdir isfile archivePathRex path file self →
     as_tar (default (content path) file) = None →
     as_zip (default (content path) file) = None →
     scan (S depth) path file self = (Ok (Some 0), self)) ∧
  (∀ depth dirpath filename rest source res self,
     archivePathRex filename = true →
     candidate isdir isfile archivePathRex (join dirpath filename) None self →
     as_tar (content (join dirpath filename)) = None →
     as_zip (content (join dirpath filename)) = None →
     scan_filenames (scan (S depth)) dirpath (filename :: rest) source res self
     = scan_filenames (scan (S depth)) dirpath rest source res self) ∧
  (∀ depth path name member rest addedNames source res self,
     LogSet.checkPathFilter (LogSet.rexPathFilter self) (join path name) = None →
     archivePathRex (join path name) = true →
     as_tar member = None → as_zip member = None →
     scan_members (scan (S depth)) path ((name, Some member) :: rest) addedNames source res
       self
     = scan_members (scan (S depth)) path rest addedNames source res self).
Proof.
  split; [|split; [|split; [|split]]].
  - intros depth path file self members Hc Ht. cbn [LogSet.scanPath].
    erewrite bind_ok by reflexivity.
    destruct file as [b|].
    + rewrite (bool_decide_eq_true_2 (is_Some (Some b))) by eauto.
      cbn [negb andb orb]. rewrite Ht. reflexivity.
    + destruct (Hc eq_refl) as (Hd & Hf & Ha & Hp).
      rewrite (bool_decide_eq_false_2 (is_Some None)) by (intros [? ?]; discriminate).
      rewrite Hd, Hf, Ha, Hp.
      rewrite (bool_decide_eq_false_2 (is_Some None)) by (intros [? ?]; discriminate).
      cbn [negb andb orb]. rewrite Ht. reflexivity.
  - intros depth path file self infos Hc Ht Hz. cbn [LogSet.scanPath].
    erewrite bind_ok by reflexivity.
    destruct file as [b|].
    + rewrite (bool_decide_eq_true_2 (is_Some (Some b))) by eauto.
      cbn [negb andb orb]. rewrite Ht, Hz. reflexivity.
    + destruct (Hc eq_refl) as (Hd & Hf & Ha & Hp).
      rewrite (bool_decide_eq_false_2 (is_Some None)) by (intros [? ?]; discriminate).
      rewrite Hd, Hf, Ha, Hp.
      rewrite (bool_decide_eq_false_2 (is_Some None)) by (intros [? ?]; discriminate).
      cbn [negb andb orb]. rewrite Ht, Hz. reflexivity.
  - intros depth path file self. apply scanPath_unreadable.
  - intros depth dirpath filename rest source res self Hname Hc Ht Hz.
    destruct (Hc eq_refl) as (_ & _ & _ & Hp).
    remember (S depth) as d eqn:Ed. cbn [LogSet.scan_filenames].
    erewrite bind_ok by reflexivity.
    rewrite Hp, Hname.
    erewrite bind_ok by (subst d; apply scanPath_unreadable; assumption).
    erewrite bind_ok by reflexivity.
    rewrite Z.add_0_r. reflexivity.
  - intros depth path name member rest addedNames source res self Hp Hname Ht Hz.
    remember (S depth) as d eqn:Ed. cbn [LogSet.scan_members].
    erewrite bind_ok by reflexivity.
    rewrite Hp, Hname.
    erewrite bind_ok
      by (subst d; apply scanPath_unreadable; [intros H; discriminate H | assumption..]).
    erewrite bind_ok by reflexivity.
    rewrite Z.add_0_r. reflexivity.
Qed.

End candidates.

Lemma archive_candidate_tar_then_zip_witness :
  sample_scan 1 "logs/old.zip" = (Ok (Some 0), empty_set) ∧
  LogSet.scan_filenames sample_join (λ f _, f) sample_stat sample_archive_name
    (λ path file, LogSet.scanPath sample_join (λ f _, f) sample_stat sample_isdir
                    sample_isfile sample_walk sample_content sample_archive_name 1 path file)
    "logs" ["old.zip"; "app.log"] (LogSource.init LogSource.DIR "logs" None) 0 empty_set
  = LogSet.scan_filenames sample_join (λ f _, f) sample_stat sample_archive_name
      (λ path file, LogSet.scanPath sample_join (λ f _, f) sample_stat sample_isdir
                      sample_isfile sample_walk sample_content sample_archive_name 1 path file)
      "logs" ["app.log"] (LogSource.init LogSource.DIR "logs" None) 0 empty_set.
Proof.
  destruct (archive_candidate_tar_then_zip sample_join (λ f _, f) sample_stat sample_isdir
              sample_isfile sample_walk sample_content sample_archive_name)
    as (_ & _ & Hskip & Hdir & _).
  split.
  - apply (Hskip 0%nat "logs/old.zip" None empty_set).
    + intros _. vm_compute. auto.
    + reflexivity.
    + reflexivity.
  - apply (Hdir 0%nat "logs" "old.zip" ["app.log"]).
    + vm_compute. reflexivity.
    + intros _. vm_compute. auto.
    + reflexivity.
    + reflexivity.
Defined.

(** X25.  A name in a scanned directory that looks like an archive and does
    not pass the path filter, but behind which there is neither a file nor
    a directory (a dangling link, say), makes the scan of the directory
    raise a [TypeError]: the recursive call returns nothing, and nothing
    cannot be added to the count. *)
Theorem archive_name_without_file_raises (join relpath : string → string → string)
    (stat : string → result (datetime.t * Z)) (isdir isfile : string → bool)
    (walk : string → list (string * list string)) (content : string → blob)
    (archivePathRex : string → bool) (depth : nat) (path dirpath bad : string)
    (files : list string) (more : list (string * list string)) (self : LogSet.t) :
  isdir path = true →
  walk path = (dirpath, bad :: files) :: more →
  LogSet.checkPathFilter (LogSet.rexPathFilter self) (join dirpath bad) = None →
  archivePathRex bad = true →
  isdir (join dirpath bad) = false → isfile (join dirpath bad) = false →
  LogSet.scanPath join relpath stat isdir isfile walk content archivePathRex
    (S (S depth)) path None self
  = (Raise (TypeError "unsupported operand type(s) for +=: 'int' and 'NoneType'"), self).
Proof.
  intros Hd Hw Hp Ha Hbd Hbf.
  assert (Hinner :
    LogSet.scanPath join relpath stat isdir isfile walk content archivePathRex (S depth)
      (join dirpath bad) None self = (Ok None, self)).
  { cbn [LogSet.scanPath]. erewrite bind_ok by reflexivity.
    rewrite (bool_decide_eq_false_2 (is_Some None)) by (intros [? ?]; discriminate).
    rewrite Hbd, Hbf. reflexivity. }
  remember (S depth) as d eqn:Ed. cbn [LogSet.scanPath].
  erewrite bind_ok by reflexivity.
  rewrite (bool_decide_eq_false_2 (is_Some None)) by (intros [? ?]; discriminate).
  rewrite Hd, Hw. cbn [negb andb LogSet.scan_walk LogSet.scan_filenames].
  erewrite bind_raise; [reflexivity|].
  erewrite bind_raise; [reflexivity|].
  erewrite bind_ok by reflexivity.
  rewrite Hp, Ha.
  erewrite bind_ok by exact Hinner.
  reflexivity.
Qed.

Lemma archive_name_without_file_raises_witness :
  sample_scan 2 "broken"
  = (Raise (TypeError "unsupported operand type(s) for +=: 'int' and 'NoneType'"), empty_set).
Proof.
  apply (archive_name_without_file_raises sample_join (λ f _, f) sample_stat sample_isdir
           sample_isfile sample_walk sample_content sample_archive_name 0 "broken" "broken"
           "link.zip" [] [] empty_set).
  - reflexivity.
  - reflexivity.
  - vm_compute. reflexivity.
  - vm_compute. reflexivity.
  - reflexivity.
  - reflexivity.
Defined.

(** X26.  The path filter does not tell a backslash from a slash: a path
    and the same path with its backslashes replaced by slashes get the same
    answer from [checkPathFilter]. *)
Theorem path_filter_separator_blind (rex : Pattern) (path : string) :
  LogSet.checkPathFilter rex (Str.replace "\" "/" path) = LogSet.checkPathFilter rex path.
Proof. apply checkPathFilter_normal. Qed.

(** ** The CSV export: one line per event, one separator per column *)









